(** * Queuify: the persistence layer and the dispatch engine

    A shallow embedding of [src/helpers/db.ts] (class [DBActions]) and of the
    engine class [QueuifyEngine], over an executable model of the fragment of
    the Redis keyspace the code talks to.  Keys are the strings the code
    builds, values are hashes or lists, and a command sent to a key of the
    other kind answers [WRONGTYPE], as the server does. *)

From stdpp Require Import gmap strings list fin_maps.

Set Default Proof Using "Type".

(** ** Constants ([helpers/constants]) *)

Inductive QUEUIFY_JOB_STATUS := PENDING | RUNNING | STALLED | COMPLETED | FAILED.

#[global] Instance QUEUIFY_JOB_STATUS_eq_dec : EqDecision QUEUIFY_JOB_STATUS.
Proof. solve_decision. Defined.

Inductive QUEUIFY_JOB_FIELDS := JOB_ID | DATA | STATUS | FAILED_REASON.

#[global] Instance QUEUIFY_JOB_FIELDS_eq_dec : EqDecision QUEUIFY_JOB_FIELDS.
Proof. solve_decision. Defined.

(** [DB_FIELDS.LEFT] and [DB_FIELDS.RIGHT]: the two ends of a list, the head
    and the tail. *)
Inductive DB_FIELDS := LEFT | RIGHT.

Inductive WORKER_STATUS := IDLE | BUSY.

#[global] Instance WORKER_STATUS_eq_dec : EqDecision WORKER_STATUS.
Proof. solve_decision. Defined.

Inductive WORKER_TYPES := SANDBOX.

Inductive QUEUE_EVENTS :=
  QUEUE_ADD | JOB_ADD | WORKER_ADD | JOB_POOL_REQUEST | JOB_POOL_PROCESS
| JOB_COMPLETE | JOB_FAIL.

#[global] Instance QUEUE_EVENTS_eq_dec : EqDecision QUEUE_EVENTS.
Proof. solve_decision. Defined.

(** ** The store *)

(** A job record: the hash with the four fields of [QUEUIFY_JOB_FIELDS]. *)
Record hash := Hash {
  h_job_id : option string;
  h_data : option string;
  h_status : option string;
  h_failed_reason : option string;
}.

#[global] Instance hash_eq_dec : EqDecision hash.
Proof. solve_decision. Defined.

Definition hash_empty : hash := Hash None None None None.

Definition hash_get (f : QUEUIFY_JOB_FIELDS) (h : hash) : option string :=
  match f with
  | JOB_ID => h_job_id h
  | DATA => h_data h
  | STATUS => h_status h
  | FAILED_REASON => h_failed_reason h
  end.

Definition hash_set (h : hash) (fv : QUEUIFY_JOB_FIELDS * string) : hash :=
  match fv.1 with
  | JOB_ID => Hash (Some fv.2) (h_data h) (h_status h) (h_failed_reason h)
  | DATA => Hash (h_job_id h) (Some fv.2) (h_status h) (h_failed_reason h)
  | STATUS => Hash (h_job_id h) (h_data h) (Some fv.2) (h_failed_reason h)
  | FAILED_REASON => Hash (h_job_id h) (h_data h) (h_status h) (Some fv.2)
  end.

Inductive rvalue := RHash (h : hash) | RList (l : list string).

#[global] Instance rvalue_eq_dec : EqDecision rvalue.
Proof. solve_decision. Defined.

Abbreviation store := (gmap string rvalue).

(** What a command answers. *)
Inductive value :=
| VInt (n : nat)
| VBulk (s : option string)
| VArray (l : list (option string)).

Inductive reply := Ok (v : value) | WRONGTYPE.

(** The commands the code sends. *)
Inductive command :=
| EXISTS (key : string)
| HSET (key : string) (fvs : list (QUEUIFY_JOB_FIELDS * string))
| HMGET (key : string) (fs : list QUEUIFY_JOB_FIELDS)
| LPUSH (key : string) (v : string)
| LREM (key : string) (count : nat) (v : string)
| LRANGE_ALL (key : string)
| LMOVE (src dst : string) (wherefrom whereto : DB_FIELDS).

(** A list that becomes empty is deleted, as the server does. *)
Definition set_list (key : string) (l : list string) (db : store) : store :=
  match l with
  | [] => delete key db
  | _ => <[key := RList l]> db
  end.

(** [LREM key count v] for a positive [count]: the first [count] occurrences
    from the head. *)
Fixpoint remove_first (count : nat) (v : string) (l : list string) : list string :=
  match count, l with
  | 0, _ => l
  | _, [] => []
  | S c, x :: l' => if decide (x = v) then remove_first c v l' else x :: remove_first count v l'
  end.

Definition pop_end (w : DB_FIELDS) (l : list string) : option (string * list string) :=
  match w with
  | LEFT => match l with [] => None | x :: l' => Some (x, l') end
  | RIGHT => match reverse l with [] => None | x :: l' => Some (x, reverse l') end
  end.

Definition push_end (w : DB_FIELDS) (x : string) (l : list string) : list string :=
  match w with
  | LEFT => x :: l
  | RIGHT => l ++ [x]
  end.

Definition run (c : command) (db : store) : store * reply :=
  match c with
  | EXISTS key =>
      (db, Ok (VInt (if db !! key is Some _ then 1 else 0)))
  | HSET key fvs =>
      match db !! key with
      | Some (RList _) => (db, WRONGTYPE)
      | Some (RHash h) => (<[key := RHash (foldl hash_set h fvs)]> db, Ok (VInt 0))
      | None => (<[key := RHash (foldl hash_set hash_empty fvs)]> db, Ok (VInt (length fvs)))
      end
  | HMGET key fs =>
      match db !! key with
      | Some (RList _) => (db, WRONGTYPE)
      | Some (RHash h) => (db, Ok (VArray ((λ f, hash_get f h) <$> fs)))
      | None => (db, Ok (VArray ((λ _, None) <$> fs)))
      end
  | LPUSH key v =>
      match db !! key with
      | Some (RHash _) => (db, WRONGTYPE)
      | Some (RList l) => (<[key := RList (v :: l)]> db, Ok (VInt (S (length l))))
      | None => (<[key := RList [v]]> db, Ok (VInt 1))
      end
  | LREM key count v =>
      match db !! key with
      | Some (RHash _) => (db, WRONGTYPE)
      | Some (RList l) =>
          let l' := remove_first count v l in
          (set_list key l' db, Ok (VInt (length l - length l')))
      | None => (db, Ok (VInt 0))
      end
  | LRANGE_ALL key =>
      match db !! key with
      | Some (RHash _) => (db, WRONGTYPE)
      | Some (RList l) => (db, Ok (VArray (Some <$> l)))
      | None => (db, Ok (VArray []))
      end
  | LMOVE src dst wherefrom whereto =>
      match db !! src with
      | None => (db, Ok (VBulk None))
      | Some (RHash _) => (db, WRONGTYPE)
      | Some (RList l) =>
          match pop_end wherefrom l with
          | None => (db, Ok (VBulk None))
          | Some (x, l') =>
              match db !! dst with
              | Some (RHash _) => (db, WRONGTYPE)
              | _ =>
                  let db1 := set_list src l' db in
                  let d := match db1 !! dst with Some (RList d) => d | _ => [] end in
                  (<[dst := RList (push_end whereto x d)]> db1, Ok (VBulk (Some x)))
              end
          end
      end
  end.

(** [multi()] ... [exec()]: the queued commands run one after the other; a
    command that fails leaves its error in the array of results and the
    following ones still run. *)
Fixpoint exec (cs : list command) (db : store) : store * list reply :=
  match cs with
  | [] => (db, [])
  | c :: cs' =>
      let '(db1, r) := run c db in
      let '(db2, rs) := exec cs' db1 in
      (db2, r :: rs)
  end.

(** The list stored at a key, as the code means it: nothing when the key is
    absent. *)
Definition list_at (key : string) (db : store) : list string :=
  match db !! key with
  | Some (RList l) => l
  | _ => []
  end.

Definition hash_at (key : string) (db : store) : option hash :=
  match db !! key with
  | Some (RHash h) => Some h
  | _ => None
  end.

(** ** Errors and promises *)

(** What a call of the code throws, or rejects its promise with. *)
Inductive error :=
| JOB_ALREADY_EXISTS (jobId queueName : string)
| ALREADY_EXISTS (queueName : string)
| QueueDbRequired
| ReplyError
| TypeError.

#[global] Instance error_eq_dec : EqDecision error.
Proof. solve_decision. Defined.

Inductive result (A : Type) :=
| Resolved (a : A)
| Rejected (e : error).
Arguments Resolved {A} a.
Arguments Rejected {A} e.

Record tJob := Job { id : option string; data : string }.

#[global] Instance tJob_eq_dec : EqDecision tJob.
Proof. solve_decision. Defined.

(** A value of type [string] that is [null] or [undefined] at run time: what
    a template literal prints for it, and what the client sends for it as an
    argument of a command. *)
Definition template (s : option string) : string := default "null" s.
Definition argument (s : option string) : string := default "" s.

(** [!jobId] on the answer of [lmove]: [null] and the empty string are
    falsy. *)
Definition falsy (s : option string) : bool :=
  match s with
  | None => true
  | Some s => bool_decide (s = "")
  end.

(** ** What is not among the sources *)

(** A text pasted between the quotes of a string of a Lua script stands for
    itself when it holds no quote (character 39), no backslash (92) and no
    line break (10 and 13). *)
Definition breaks_literal (a : Ascii.ascii) : bool :=
  existsb (Ascii.eqb a) (Ascii.ascii_of_nat <$> [39; 92; 10; 13]).

Fixpoint literal (s : string) : bool :=
  match s with
  | EmptyString => true
  | String a s' => negb (breaks_literal a) && literal s'
  end.

(** The values of the constants and the helpers of [helpers/utils] and
    [helpers/messages] are not among the sources: the string each status is
    written as, the prefix of every key, the decompression of a payload and
    the text of the message [JOB_ALREADY_EXISTS(jobId, queueName)] are taken
    as parameters.  Two statuses are written differently.

    [addJob] builds the text of its script from that message and from
    constants, each pasted between quotes.  When a pasted text does not
    stand for itself the server is sent another script than the one
    written, one that may not compile or that runs other commands; what the
    server makes of it, given the pasted texts, the keys and the arguments,
    is the parameter [eval_altered]. *)
Class Helpers := {
  NAMESPACE : string;
  status_str : QUEUIFY_JOB_STATUS → string;
  status_str_inj : Inj (=) (=) status_str;
  decompressData : option string → string;
  JOB_ALREADY_EXISTS_message : string → string → string;
  eval_altered :
    string → string → list string → list string → store → store * result unit;
}.

Module DBActions.
Section DBActions.
Context `{Helpers}.

Definition RUNS : string := "runs".

(** Modelled from the spec: [getQueuifyKey] of [helpers/utils], which is
    not among the sources.  The persisted key layout is
    [<namespace>:<queue>:runs:<jobId>] for a record and
    [<namespace>:<queue>:runs:<status>] for a list. *)
Definition getQueuifyKey (queueName : string) (rest : list string) : string :=
  String.concat ":" (NAMESPACE :: queueName :: rest).

(** The template literal [`${a}:${b}`]. *)
Definition colon (a b : string) : string := a +:+ ":" +:+ b.

(** The key of the record of a job, [`${queuifyRunsKey}:${jobId}`], and the
    key of the list of a status, [`${queuifyRunsKey}:${status}`]. *)
Definition jobKey (queueName jobId : string) : string :=
  colon (getQueuifyKey queueName [RUNS]) jobId.
Definition listKey (queueName : string) (status : QUEUIFY_JOB_STATUS) : string :=
  colon (getQueuifyKey queueName [RUNS]) (status_str status).

(** The loop of [getJobs]: up to [limit] ids are moved from the head of
    the source list to the tail of the RUNNING list; it stops at the first
    falsy answer. *)
Fixpoint getJobs_pop (src dst : string) (limit : nat) (db : store)
  : store * result (list string) :=
  match limit with
  | 0 => (db, Resolved [])
  | S limit' =>
      match run (LMOVE src dst LEFT RIGHT) db with
      | (db1, Ok (VBulk jobId)) =>
          if falsy jobId then (db1, Resolved [])
          else
            match getJobs_pop src dst limit' db1 with
            | (db2, Resolved jobIds) => (db2, Resolved (argument jobId :: jobIds))
            | (db2, Rejected e) => (db2, Rejected e)
            end
      | (db1, _) => (db1, Rejected ReplyError)
      end
  end.

(** [const [jobId, data] = result[1]]: an entry that carries an error has
    no second component, and reading it throws. *)
Definition to_job (r : reply) : option tJob :=
  match r with
  | Ok (VArray [jobId; data]) => Some (Job jobId (decompressData data))
  | _ => None
  end.

Fixpoint to_jobs (rs : list reply) : option (list tJob) :=
  match rs with
  | [] => Some []
  | r :: rs' =>
      match to_job r with
      | None => None
      | Some job => match to_jobs rs' with
                    | None => None
                    | Some jobs => Some (job :: jobs)
                    end
      end
  end.

Definition getJobs (queueName : string) (from : QUEUIFY_JOB_STATUS) (limit : nat)
    (db : store) : store * result (list tJob) :=
  let queuifyListKey := getQueuifyKey queueName [RUNS; status_str from] in
  let queuifyRunsKey := getQueuifyKey queueName [RUNS] in
  match getJobs_pop queuifyListKey (colon queuifyRunsKey (status_str RUNNING)) limit db with
  | (db1, Rejected e) => (db1, Rejected e)
  | (db1, Resolved []) => (db1, Resolved [])
  | (db1, Resolved jobIds) =>
      let jobsPipeline :=
        (λ jobId, HMGET (colon queuifyRunsKey jobId) [JOB_ID; DATA]) <$> jobIds in
      let statusPipeline :=
        (λ jobId, HSET (colon queuifyRunsKey jobId) [(STATUS, status_str RUNNING)]) <$> jobIds in
      let '(db2, jobsResults) := exec jobsPipeline db1 in
      let '(db3, _) := exec statusPipeline db2 in
      match to_jobs jobsResults with
      | Some jobs => (db3, Resolved jobs)
      | None => (db3, Rejected TypeError)
      end
  end.

(** The default of the parameter [limit]. *)
Definition default_limit : nat := 1.

Definition completeJob (queueName : string) (jobId : option string) (db : store)
  : store * result unit :=
  let queuifyKey := getQueuifyKey queueName [RUNS] in
  let jobPipeline :=
    [ HSET (colon queuifyKey (template jobId)) [(STATUS, status_str COMPLETED)];
      LREM (colon queuifyKey (status_str RUNNING)) 1 (argument jobId);
      LPUSH (colon queuifyKey (status_str COMPLETED)) (argument jobId) ] in
  ((exec jobPipeline db).1, Resolved ()).

Definition updateJob (queueName jobId newData : string) (db : store)
  : store * result unit :=
  let queuifyRunsKey := getQueuifyKey queueName [RUNS] in
  let queuifyRunsJobKey := colon queuifyRunsKey jobId in
  match run (HSET queuifyRunsJobKey [(DATA, newData)]) db with
  | (db1, Ok _) => (db1, Resolved ())
  | (db1, WRONGTYPE) => (db1, Rejected ReplyError)
  end.

Definition failJob (queueName : string) (jobId failedReason : option string) (db : store)
  : store * result unit :=
  let queuifyKey := getQueuifyKey queueName [RUNS] in
  let jobPipeline :=
    [ HSET (colon queuifyKey (template jobId))
        [(STATUS, status_str FAILED); (FAILED_REASON, argument failedReason)];
      LREM (colon queuifyKey (status_str RUNNING)) 1 (argument jobId);
      LPUSH (colon queuifyKey (status_str FAILED)) (argument jobId) ] in
  ((exec jobPipeline db).1, Resolved ()).

(** The ids [lrange] answers; the array holds no [null]. *)
Definition bulk_strings (l : list (option string)) : list string :=
  argument <$> l.

Definition moveJobsBetweenLists (queueName : string) (from to : QUEUIFY_JOB_STATUS)
    (db : store) : store * result (list string) :=
  let queuifyKey := getQueuifyKey queueName [RUNS] in
  let fromList := colon queuifyKey (status_str from) in
  let toList := colon queuifyKey (status_str to) in
  match run (LRANGE_ALL fromList) db with
  | (db1, Ok (VArray jobRuns)) =>
      let jobRuns := bulk_strings jobRuns in
      let jobMovePipeline :=
        jobRuns ≫= (λ jobId,
          [ LMOVE fromList toList LEFT RIGHT;
            HSET (colon queuifyKey jobId) [(STATUS, status_str to)] ]) in
      ((exec jobMovePipeline db1).1, Resolved jobRuns)
  | (db1, _) => (db1, Rejected ReplyError)
  end.

(** The script of [addJob], run by [eval] as one command: [redis.call]
    raises what the command answers as an error, which ends the script and
    rejects the promise; what the script wrote before stays written.  The
    text of the script has the message of [JOB_ALREADY_EXISTS] and the
    string of the PENDING status pasted between quotes (the names of the
    fields, pasted as well, are the constants of [QUEUIFY_JOB_FIELDS]): the
    script that runs is the one written when both stand for themselves
    there. *)
Definition addJob (queueName jobId data : string) (db : store) : store * result unit :=
  let queuifyKey := getQueuifyKey queueName [] in
  let queuifyRunsKey := getQueuifyKey queueName [RUNS] in
  let queuifyRunsJobKey := colon queuifyRunsKey jobId in
  let queuifyRunsPendingKey := getQueuifyKey queueName [RUNS; status_str PENDING] in
  if literal (JOB_ALREADY_EXISTS_message jobId queueName) && literal (status_str PENDING)
  then
    match run (EXISTS queuifyRunsJobKey) db with
    | (_, Ok (VInt 1)) => (db, Rejected (JOB_ALREADY_EXISTS jobId queueName))
    | _ =>
        match run (HSET queuifyRunsJobKey
                     [(JOB_ID, jobId); (STATUS, status_str PENDING); (DATA, data)]) db with
        | (db1, WRONGTYPE) => (db1, Rejected ReplyError)
        | (db1, Ok _) =>
            match run (LPUSH queuifyRunsPendingKey jobId) db1 with
            | (db2, WRONGTYPE) => (db2, Rejected ReplyError)
            | (db2, Ok _) => (db2, Resolved ())
            end
        end
    end
  else
    eval_altered (JOB_ALREADY_EXISTS_message jobId queueName) (status_str PENDING)
      [queuifyRunsJobKey; queuifyKey; queuifyRunsPendingKey] [data; jobId] db.

End DBActions.
End DBActions.

(** ** The engine ([QueuifyEngine]) *)

(** The engine runs on one event loop.  A handler runs until its next
    [await]; what is suspended there is a task of the state, and resuming a
    task is a step of its own, so that the steps of different handlers
    interleave as they do at run time.  A call of the persistence layer is
    run as one step, at the moment its answer is awaited.  The state keeps a
    log of the calls of the persistence layer and of the event bus, in the
    order in which they happen. *)
Module Engine.
Section Engine.
Context `{Helpers}.

(** A queue as it is registered: its name, and its connection when it has
    one. *)
Record tQueue := Queue { name : string; db : option nat }.

Record tWorkerConfig := WorkerConfig {
  type : option WORKER_TYPES;
  sharedData : option string;
}.

(** How the promise of a worker routine settles, with the [message] of what
    it threw when the thrown value has one. *)
Inductive outcome := Fulfils | Rejects (message : option string).

(** [workerFunction]: a routine, or the source of a sandboxed one. *)
Inductive tWorker :=
| WorkerFunction (f : tJob → outcome)
| WorkerSource (source : string).

Record tWorkerData := WorkerData {
  worker : tWorker;
  jobs : list tJob;
  status : WORKER_STATUS;
  config : tWorkerConfig;
}.

(** The value of the map [queues].  [workers] is a [Map]: it iterates in the
    order of insertion. *)
Record tQueueMapValue := QueueMapValue {
  queue : tQueue;
  dbActions : nat;
  workers : list (string * tWorkerData);
  idleWorkerId : string;
  isStalledJobsProcessingComplete : bool;
}.

(** [Map.get] and [Map.set]. *)
Fixpoint map_get {V} (key : string) (m : list (string * V)) : option V :=
  match m with
  | [] => None
  | (k, v) :: m' => if decide (k = key) then Some v else map_get key m'
  end.

Fixpoint map_set {V} (key : string) (v : V) (m : list (string * V)) : list (string * V) :=
  match m with
  | [] => [(key, v)]
  | (k, v') :: m' => if decide (k = key) then (k, v) :: m' else (k, v') :: map_set key v m'
  end.

(** What is suspended at an [await]. *)
Inductive task :=
| AwaitJobs (queueName workerId : string) (from : QUEUIFY_JOB_STATUS)
| AwaitRoutine (queueName workerId : string) (batch : nat) (job : tJob) (settles : outcome)
| AwaitSandbox (queueName workerId : string) (batch : nat) (job : tJob).

(** The log.  An event is named by the queue it is scoped to, if any, and
    its kind; [Emit] has what the event carries: the id of a worker, the id
    of a job, or the name of the queue. *)
Inductive effect :=
| Emit (queueName : option string) (e : QUEUE_EVENTS) (payload : option string)
| On (queueName : option string) (e : QUEUE_EVENTS)
| GetJobs (queueName : string) (from : QUEUIFY_JOB_STATUS) (limit : nat)
| MoveJobsBetweenLists (queueName : string) (from to : QUEUIFY_JOB_STATUS)
| AddJob (queueName jobId : string)
| CompleteJob (queueName : string) (jobId : option string)
| FailJob (queueName : string) (jobId failedReason : option string).

#[global] Instance effect_eq_dec : EqDecision effect.
Proof. solve_decision. Defined.

(** The engine, the servers its connections lead to, the suspended tasks,
    and the counter [remainingJobs] of every batch in flight. *)
Record state := State {
  queues : gmap string tQueueMapValue;
  listeners : list (option string * QUEUE_EVENTS);
  servers : gmap nat store;
  tasks : list task;
  remainingJobs : gmap nat Z;
  log : list effect;
}.

(** The engine as the module exports it, with its two listeners that do
    nothing, against servers that hold [redis]. *)
Definition boot (redis : gmap nat store) : state :=
  State ∅ [(None, QUEUE_ADD); (None, WORKER_ADD)] redis [] ∅ [].

Definition initial : state := boot ∅.

Definition set_queue (queueName : string) (q : tQueueMapValue) (st : state) : state :=
  State (<[queueName := q]> (queues st)) (listeners st) (servers st) (tasks st)
    (remainingJobs st) (log st).

Definition set_server (conn : nat) (redis : store) (st : state) : state :=
  State (queues st) (listeners st) (<[conn := redis]> (servers st)) (tasks st)
    (remainingJobs st) (log st).

Definition add_listener (queueName : string) (e : QUEUE_EVENTS) (st : state) : state :=
  State (queues st) (listeners st ++ [(Some queueName, e)]) (servers st) (tasks st)
    (remainingJobs st) (log st ++ [On (Some queueName) e]).

Definition add_task (t : task) (st : state) : state :=
  State (queues st) (listeners st) (servers st) (tasks st ++ [t]) (remainingJobs st) (log st).

Definition set_tasks (ts : list task) (st : state) : state :=
  State (queues st) (listeners st) (servers st) ts (remainingJobs st) (log st).

Definition set_remainingJobs (batch : nat) (n : Z) (st : state) : state :=
  State (queues st) (listeners st) (servers st) (tasks st)
    (<[batch := n]> (remainingJobs st)) (log st).

Definition logs (e : effect) (st : state) : state :=
  State (queues st) (listeners st) (servers st) (tasks st) (remainingJobs st) (log st ++ [e]).

Definition set_workers (ws : list (string * tWorkerData)) (q : tQueueMapValue) : tQueueMapValue :=
  QueueMapValue (queue q) (dbActions q) ws (idleWorkerId q)
    (isStalledJobsProcessingComplete q).

Definition set_idleWorkerId (workerId : string) (q : tQueueMapValue) : tQueueMapValue :=
  QueueMapValue (queue q) (dbActions q) (workers q) workerId
    (isStalledJobsProcessingComplete q).

Definition set_isStalledJobsProcessingComplete (b : bool) (q : tQueueMapValue)
  : tQueueMapValue :=
  QueueMapValue (queue q) (dbActions q) (workers q) (idleWorkerId q) b.

Definition set_jobs (js : list tJob) (w : tWorkerData) : tWorkerData :=
  WorkerData (worker w) js (status w) (config w).

Definition set_status (s : WORKER_STATUS) (w : tWorkerData) : tWorkerData :=
  WorkerData (worker w) (jobs w) s (config w).

(** A call of the persistence layer on the server of a connection. *)
Definition on_server {A} (conn : nat) (call : store → store * result A) (st : state)
  : state * result A :=
  let '(redis, r) := call (servers st !!! conn) in
  (set_server conn redis st, r).

(** How many times a handler was registered for an event. *)
Definition registered (queueName : option string) (e : QUEUE_EVENTS) (st : state) : nat :=
  length (filter (λ l, l = (queueName, e)) (listeners st)).

(** [emit]: the handler runs once for every registration, before [emit]
    returns. *)
Definition emit (queueName : option string) (e : QUEUE_EVENTS) (payload : option string)
    (handler : state → state) (st : state) : state :=
  let st := logs (Emit queueName e payload) st in
  Nat.iter (registered queueName e st) handler st.

(** [onJobsRequest] up to its first [await]. *)
Definition onJobsRequest (queueName workerId : string) (st : state) : state :=
  match queues st !! queueName with
  | None => st
  | Some queue =>
      match map_get workerId (workers queue) with
      | None => st
      | Some workerData =>
          if negb (isStalledJobsProcessingComplete queue)
          then add_task (AwaitJobs queueName workerId STALLED) st
          else add_task (AwaitJobs queueName workerId PENDING) st
      end
  end.

(** Modelled from the spec: [promisifyFunction] of [helpers], which is not
    among the sources: the worker's routine is invoked with the job, and the
    promise settles as the routine does.  A worker that is not a routine
    cannot be invoked, and the promise is rejected. *)
Definition promisifyFunction (w : tWorker) (job : tJob) : outcome :=
  match w with
  | WorkerFunction f => f job
  | WorkerSource _ => Rejects (Some "workerFunction is not a function")
  end.

(** [!workerData.worker]: the empty source is falsy. *)
Definition no_worker (w : tWorker) : bool :=
  match w with
  | WorkerSource source => bool_decide (source = "")
  | WorkerFunction _ => false
  end.

Definition isSandbox (c : tWorkerConfig) : bool :=
  match type c with
  | Some SANDBOX => true
  | None => false
  end.

(** The first worker of the registry with the status idle, or the empty
    string. *)
Fixpoint first_idle (ws : list (string * tWorkerData)) : string :=
  match ws with
  | [] => ""
  | (workerId, w) :: ws' =>
      if decide (status w = IDLE) then workerId else first_idle ws'
  end.

(** The loop of [onJobsProcess]: the jobs are popped from the end of the
    batch, and each is started without waiting for the one before. *)
Definition dispatch (queueName workerId : string) (batch : nat) (w : tWorkerData)
  : list task :=
  (λ job,
     if isSandbox (config w)
     then AwaitSandbox queueName workerId batch job
     else AwaitRoutine queueName workerId batch job (promisifyFunction (worker w) job))
  <$> reverse (jobs w).

(** A name for the counter of a new batch. *)
Definition fresh_batch (st : state) : nat :=
  S (max_list (fst <$> map_to_list (remainingJobs st))).

Definition onJobsProcess (queueName workerId : string) (st : state) : state :=
  match queues st !! queueName with
  | None => st
  | Some queue =>
      match map_get workerId (workers queue) with
      | None => st
      | Some workerData =>
          match jobs workerData with
          | [] =>
              let ws := map_set workerId (set_status IDLE workerData) (workers queue) in
              set_queue queueName (set_idleWorkerId workerId (set_workers ws queue)) st
          | _ =>
              let ws := map_set workerId (set_status BUSY workerData) (workers queue) in
              let queue := set_idleWorkerId (first_idle ws) (set_workers ws queue) in
              if no_worker (worker workerData) then set_queue queueName queue st
              else
                let batch := fresh_batch st in
                let ws := map_set workerId (set_jobs [] (set_status BUSY workerData)) ws in
                let st := set_queue queueName (set_workers ws queue) st in
                let st := set_remainingJobs batch (Z.of_nat (length (jobs workerData))) st in
                set_tasks (tasks st ++ dispatch queueName workerId batch workerData) st
          end
      end
  end.

(** The end of [onJobsRequest], after the last [await]. *)
Definition deliver (queueName workerId : string) (fetched : list tJob) (st : state) : state :=
  match queues st !! queueName with
  | None => st
  | Some queue =>
      match map_get workerId (workers queue) with
      | None => st
      | Some workerData =>
          let ws := map_set workerId (set_jobs (jobs workerData ++ fetched) workerData)
                      (workers queue) in
          let st := set_queue queueName (set_workers ws queue) st in
          emit (Some queueName) JOB_POOL_PROCESS (Some workerId)
            (onJobsProcess queueName workerId) st
      end
  end.

(** [onJobsRequest] from an [await] of [getJobs] on. *)
Definition onJobsRequest_resume (queueName workerId : string) (from : QUEUIFY_JOB_STATUS)
    (st : state) : state :=
  match queues st !! queueName with
  | None => st
  | Some queue =>
      let st := logs (GetJobs queueName from DBActions.default_limit) st in
      match on_server (dbActions queue)
              (DBActions.getJobs queueName from DBActions.default_limit) st with
      | (st, Rejected _) => st
      | (st, Resolved fetched) =>
          match from, fetched with
          | STALLED, [] =>
              let st := set_queue queueName
                          (set_isStalledJobsProcessingComplete true queue) st in
              add_task (AwaitJobs queueName workerId PENDING) st
          | _, [] => st
          | _, _ => deliver queueName workerId fetched st
          end
      end
  end.

Definition onWorkerAdd (queueName workerId : string) (st : state) : state :=
  match queues st !! queueName with
  | None => st
  | Some queue =>
      match map_get workerId (workers queue) with
      | None => st
      | Some _ =>
          emit (Some queueName) JOB_POOL_REQUEST (Some workerId)
            (onJobsRequest queueName workerId) st
      end
  end.

Definition onComplete (queueName : string) (jobId : option string) (st : state) : state :=
  match queues st !! queueName with
  | None => st
  | Some queue =>
      let st := logs (CompleteJob queueName jobId) st in
      let st := (on_server (dbActions queue) (DBActions.completeJob queueName jobId) st).1 in
      emit (Some queueName) JOB_COMPLETE jobId (λ st, st) st
  end.

Definition onFailed (queueName : string) (jobId errorMessage : option string) (st : state)
  : state :=
  match queues st !! queueName with
  | None => st
  | Some queue =>
      let st := logs (FailJob queueName jobId errorMessage) st in
      let st :=
        (on_server (dbActions queue) (DBActions.failJob queueName jobId errorMessage) st).1 in
      emit (Some queueName) JOB_FAIL jobId (λ st, st) st
  end.

(** [onFinish]: the countdown of the batch. *)
Definition onFinish (queueName workerId : string) (batch : nat) (st : state) : state :=
  let remaining := (default 0 (remainingJobs st !! batch) - 1)%Z in
  let st := set_remainingJobs batch remaining st in
  match remaining with
  | 0%Z =>
      match queues st !! queueName with
      | None => st
      | Some queue =>
          match map_get workerId (workers queue) with
          | None => st
          | Some workerData =>
              let ws := map_set workerId (set_status IDLE workerData) (workers queue) in
              let st := set_queue queueName
                          (set_idleWorkerId workerId (set_workers ws queue)) st in
              emit (Some queueName) JOB_POOL_REQUEST (Some workerId)
                (onJobsRequest queueName workerId) st
          end
      end
  | _ => st
  end.

(** [a || 'Something went wrong']. *)
Definition or_default (a : option string) : string :=
  if falsy a then "Something went wrong" else argument a.

(** What a sandbox answers: a message with a status and maybe an error, or
    the [error] event of the process. *)
Inductive sandbox_result :=
| Message (status : QUEUIFY_JOB_STATUS) (error : option string)
| SpawnError (message : option string).

Definition settle_routine (queueName workerId : string) (batch : nat) (job : tJob)
    (settles : outcome) (st : state) : state :=
  let st :=
    match settles with
    | Fulfils => onComplete queueName (id job) st
    | Rejects message => onFailed queueName (id job) message st
    end in
  onFinish queueName workerId batch st.

Definition settle_sandbox (queueName workerId : string) (batch : nat) (job : tJob)
    (r : sandbox_result) (st : state) : state :=
  let st :=
    match r with
    | Message COMPLETED _ => onComplete queueName (id job) st
    | Message _ error => onFailed queueName (id job) (Some (or_default error)) st
    | SpawnError message =>
        onFailed queueName (id job) (Some ("Spawn Failed! " +:+ or_default message)) st
    end in
  onFinish queueName workerId batch st.

(** Modelled from the spec: [checkExisting] of [helpers], which is not among
    the sources: registering a queue fails with [ALREADY_EXISTS] when the
    name is taken. *)
Definition checkExisting {V} (existing : option V) (e : error) : result unit :=
  match existing with
  | Some _ => Rejected e
  | None => Resolved ()
  end.

Definition start (q : tQueue) (st : state) : state * result unit :=
  match db q with
  | None => (st, Rejected QueueDbRequired)
  | Some conn =>
      let queueName := name q in
      match checkExisting (queues st !! queueName) (ALREADY_EXISTS queueName) with
      | Rejected e => (st, Rejected e)
      | Resolved _ =>
          let st := set_queue queueName (QueueMapValue q conn [] "" false) st in
          (emit None QUEUE_ADD (Some queueName) (λ st, st) st, Resolved ())
      end
  end.

Definition addJob (queueName jobId data : string) (st : state) : state * result unit :=
  match queues st !! queueName with
  | None => (st, Resolved ())
  | Some queue =>
      let st := logs (AddJob queueName jobId) st in
      match on_server (dbActions queue) (DBActions.addJob queueName jobId data) st with
      | (st, Rejected e) => (st, Rejected e)
      | (st, Resolved _) =>
          let st := emit (Some queueName) JOB_ADD (Some queueName) (λ st, st) st in
          if decide (idleWorkerId queue = "") then (st, Resolved ())
          else (emit (Some queueName) JOB_POOL_REQUEST (Some (idleWorkerId queue))
                  (onJobsRequest queueName (idleWorkerId queue)) st, Resolved ())
      end
  end.

(** [startWorkerPool]; [key] is where the map holds [queueData], which the
    code writes through its reference. *)
Definition startWorkerPool (key : string) (queueData : tQueueMapValue) (st : state)
  : state * result unit :=
  let st := logs (MoveJobsBetweenLists (name (queue queueData)) RUNNING STALLED) st in
  match on_server (dbActions queueData)
          (DBActions.moveJobsBetweenLists (name (queue queueData)) RUNNING STALLED) st with
  | (st, Rejected e) => (st, Rejected e)
  | (st, Resolved []) =>
      (set_queue key (set_isStalledJobsProcessingComplete true queueData) st, Resolved ())
  | (st, Resolved _) => (st, Resolved ())
  end.

Definition startWorkers (queueName : string) (st : state) : state * result unit :=
  match queues st !! queueName with
  | None => (st, Resolved ())
  | Some queueData =>
      match startWorkerPool queueName queueData st with
      | (st, Rejected e) => (st, Rejected e)
      | (st, Resolved _) =>
          let st := add_listener queueName WORKER_ADD st in
          let st := add_listener queueName JOB_POOL_REQUEST st in
          let st := add_listener queueName JOB_POOL_PROCESS st in
          (st, Resolved ())
      end
  end.

(** [addWorker]; [workerId] is the id [generateId] gave. *)
Definition addWorker (queueName workerId : string) (workerFunction : tWorker)
    (workerConfig : tWorkerConfig) (st : state) : state * result unit :=
  match queues st !! queueName with
  | None => (st, Resolved ())
  | Some queue =>
      let hasWorkers := bool_decide (0 < length (workers queue)) in
      let ws := map_set workerId (WorkerData workerFunction [] IDLE workerConfig)
                  (workers queue) in
      let st := set_queue queueName (set_workers ws queue) st in
      match (if hasWorkers then (st, Resolved ()) else startWorkers queueName st) with
      | (st, Rejected e) => (st, Rejected e)
      | (st, Resolved _) =>
          (emit (Some queueName) WORKER_ADD (Some workerId)
             (onWorkerAdd queueName workerId) st,
           Resolved ())
      end
  end.

(** What the event loop does next: a call of the public surface, or the
    continuation of a suspended task. *)
Inductive action :=
| Start (q : tQueue)
| Enqueue (queueName jobId data : string)
| Register (queueName workerId : string) (workerFunction : tWorker)
    (workerConfig : tWorkerConfig)
| Resume (i : nat)
| Answer (i : nat) (r : sandbox_result).

Definition step (a : action) (st : state) : state :=
  match a with
  | Start q => (start q st).1
  | Enqueue queueName jobId data => (addJob queueName jobId data st).1
  | Register queueName workerId workerFunction workerConfig =>
      (addWorker queueName workerId workerFunction workerConfig st).1
  | Resume i =>
      match tasks st !! i with
      | Some (AwaitJobs queueName workerId from) =>
          onJobsRequest_resume queueName workerId from (set_tasks (delete i (tasks st)) st)
      | Some (AwaitRoutine queueName workerId batch job settles) =>
          settle_routine queueName workerId batch job settles
            (set_tasks (delete i (tasks st)) st)
      | _ => st
      end
  | Answer i r =>
      match tasks st !! i with
      | Some (AwaitSandbox queueName workerId batch job) =>
          settle_sandbox queueName workerId batch job r (set_tasks (delete i (tasks st)) st)
      | _ => st
      end
  end.

Definition steps (l : list action) (st : state) : state := foldl (λ st a, step a st) st l.

End Engine.
End Engine.

(** ** What the claims say, as predicates on the code *)

Section statements.
Context `{Helpers}.
Import DBActions.

(** The lists of the queue hold no record, and a record no list: the layout
    of the spec, with the five lists and the per-job records apart. *)
Definition lists_typed (queueName : string) (db : store) : Prop :=
  ∀ s, hash_at (listKey queueName s) db = None.

(** Number of entries of a list equal to [jobId]. *)
Definition entries (jobId : string) (l : list string) : nat :=
  length (filter (λ x, x = jobId) l).

(** A store laid out as the spec has it for the queue: under the prefix of
    the queue, the key of a status holds a list when it holds anything, and
    every other key a record. *)
Definition laid_out (queueName : string) (db : store) : Prop :=
  ∀ x, match db !! jobKey queueName x with
       | Some (RList _) => ∃ s, x = status_str s
       | Some (RHash _) => ∀ s, x ≠ status_str s
       | None => True
       end.

(** No status is written as [jobId]. *)
Definition plain_id (jobId : string) : Prop := ∀ s, jobId ≠ status_str s.

(** The script [addJob] sends for the job is the one written: the texts it
    pastes between quotes stand for themselves there. *)
Definition as_written (queueName jobId : string) : Prop :=
  literal (JOB_ALREADY_EXISTS_message jobId queueName) && literal (status_str PENDING) = true.

(** What [completeJob] and [failJob] do with a job for the terminal status
    [st]: they resolve, the record of the job has status [st], one entry of
    the id is gone from the RUNNING list, and the id is one more time at the
    head of the list of [st]. *)
Definition settled (queueName jobId : string) (st : QUEUIFY_JOB_STATUS)
    (db : store) (out : store * result unit) : Prop :=
  out.2 = Resolved ()
  ∧ (∃ h, hash_at (jobKey queueName jobId) out.1 = Some h
          ∧ h_status h = Some (status_str st))
  ∧ list_at (listKey queueName RUNNING) out.1
    = remove_first 1 jobId (list_at (listKey queueName RUNNING) db)
  ∧ list_at (listKey queueName st) out.1 = jobId :: list_at (listKey queueName st) db.

(** The record of a job as [getJobs] reads it: the id field and the
    decompressed payload. *)
Definition job_of (queueName : string) (db : store) (jobId : string) : tJob :=
  let h := default hash_empty (hash_at (jobKey queueName jobId) db) in
  Job (h_job_id h) (decompressData (h_data h)).

(** What [HMGET] answers for the id and payload fields of a record. *)
Definition hmget_reply (queueName : string) (db : store) (jobId : string) : reply :=
  let h := default hash_empty (hash_at (jobKey queueName jobId) db) in
  Ok (VArray [h_job_id h; h_data h]).

Definition has_status (queueName jobId : string) (st : QUEUIFY_JOB_STATUS) (db : store) : Prop :=
  ∃ h, hash_at (jobKey queueName jobId) db = Some h ∧ h_status h = Some (status_str st).

(** The list [l] read [k] times over. *)
Definition around (k : nat) (l : list string) : list string := mjoin (replicate k l).

(** What [getJobs] does: it pops at most [n] ids from the list of [from]
    onto the RUNNING list, sets the status of each of them, and resolves
    with their records; on an empty list it resolves with nothing and
    leaves the store as it is.  From the RUNNING list itself each id is
    moved from its head to its tail: the ids are the first [n] of the list
    read over and over, and the list is what follows them there. *)
Definition fetched (queueName : string) (from : QUEUIFY_JOB_STATUS) (n : nat)
    (db : store) (out : store * result (list tJob)) : Prop :=
  (∃ ids : list string,
    length ids ≤ n
    ∧ out.2 = Resolved (job_of queueName db <$> ids)
    ∧ (∀ jobId, jobId ∈ ids → has_status queueName jobId RUNNING out.1)
    ∧ (if decide (from = RUNNING)
       then let l := list_at (listKey queueName RUNNING) db in
            ids = take n (around (S n) l)
            ∧ list_at (listKey queueName RUNNING) out.1
              = take (length l) (drop n (around (S n) l))
       else ids = take n (list_at (listKey queueName from) db)
            ∧ list_at (listKey queueName from) out.1
              = drop n (list_at (listKey queueName from) db)
            ∧ list_at (listKey queueName RUNNING) out.1
              = list_at (listKey queueName RUNNING) db ++ ids))
  ∧ (list_at (listKey queueName from) db = [] → out = (db, Resolved [])).

(** What [moveJobsBetweenLists] does: it resolves with the ids of the list
    of [from], in the order of the list; each of them has the status [to];
    they are at the tail of the list of [to], in the order of the list they
    came from, after what the list of [to] held; and the list of [from] is
    empty. *)
Definition moved_all (queueName : string) (from to : QUEUIFY_JOB_STATUS)
    (db : store) (out : store * result (list string)) : Prop :=
  let ids := list_at (listKey queueName from) db in
  out.2 = Resolved ids
  ∧ (∀ jobId, jobId ∈ ids → has_status queueName jobId to out.1)
  ∧ list_at (listKey queueName to) out.1
    = (if decide (from = to) then [] else list_at (listKey queueName to) db) ++ ids
  ∧ (from ≠ to → list_at (listKey queueName from) out.1 = []).

(** [n] fetches in a row with the default limit, and what each resolved
    with. *)
Fixpoint fetches (queueName : string) (from : QUEUIFY_JOB_STATUS) (n : nat) (db : store)
  : list (result (list tJob)) :=
  match n with
  | 0 => []
  | S n' =>
      let '(db', r) := getJobs queueName from default_limit db in
      r :: fetches queueName from n' db'
  end.

(** After a restart with [N] jobs in RUNNING and none in STALLED, the first
    [N] fetches from STALLED return the recovered jobs, one each, in the
    order of the RUNNING list. *)
Definition recovered_first (queueName : string) (db : store) : Prop :=
  let ids := list_at (listKey queueName RUNNING) db in
  list_at (listKey queueName STALLED) db = [] →
  fetches queueName STALLED (length ids)
    (moveJobsBetweenLists queueName RUNNING STALLED db).1
  = (λ jobId, Resolved [job_of queueName db jobId]) <$> ids.

(** Neither operation has a precondition, and a second [completeJob] puts
    the id a second time on the COMPLETED list. *)
Definition settles_any (queueName jobId : string) (db : store) : Prop :=
  settled queueName jobId COMPLETED db (completeJob queueName (Some jobId) db)
  ∧ (∀ reason, settled queueName jobId FAILED db (failJob queueName (Some jobId) reason db))
  ∧ entries jobId
      (list_at (listKey queueName COMPLETED)
         (completeJob queueName (Some jobId) (completeJob queueName (Some jobId) db).1).1)
    = 2 + entries jobId (list_at (listKey queueName COMPLETED) db).

(** Uniqueness: after two attempts to enqueue [jobId], the second one was
    refused and wrote nothing, and the store holds the record of [jobId],
    PENDING and with the payload of the first attempt, with one entry on the
    PENDING list. *)
Definition enqueued_once (queueName jobId data data' : string) (db : store) : Prop :=
  let '(db1, r1) := addJob queueName jobId data db in
  let '(db2, r2) := addJob queueName jobId data' db1 in
  r2 = Rejected (JOB_ALREADY_EXISTS jobId queueName)
  ∧ db2 = db1
  ∧ (∃ h, hash_at (jobKey queueName jobId) db2 = Some h
          ∧ h_job_id h = Some jobId
          ∧ h_data h = Some data
          ∧ h_status h = Some (status_str PENDING))
  ∧ entries jobId (list_at (listKey queueName PENDING) db2) = 1.

(** What the failure of a job leaves in the store: the status FAILED with
    the reason, one entry of the id less on the RUNNING list, and the id at
    the head of the FAILED list. *)
Definition failed_with (queueName jobId message : string) (redis redis' : store) : Prop :=
  has_status queueName jobId FAILED redis'
  ∧ hash_at (jobKey queueName jobId) redis' ≫= h_failed_reason = Some message
  ∧ list_at (listKey queueName RUNNING) redis'
    = remove_first 1 jobId (list_at (listKey queueName RUNNING) redis)
  ∧ list_at (listKey queueName FAILED) redis' = jobId :: list_at (listKey queueName FAILED) redis.

(** The [i]-th suspended task is the routine of a local worker that throws
    an error with the message [message], for the job [jobId] of the queue;
    when it settles, the failure is recorded on the server of the queue. *)
Definition failure_recorded (i : nat) (queueName jobId message : string) (st : Engine.state)
  : Prop :=
  ∃ workerId batch job queue,
    Engine.tasks st !! i
    = Some (Engine.AwaitRoutine queueName workerId batch job (Engine.Rejects (Some message)))
    ∧ id job = Some jobId
    ∧ Engine.queues st !! queueName = Some queue
    ∧ failed_with queueName jobId message
        (Engine.servers st !!! Engine.dbActions queue)
        (Engine.servers (Engine.step (Engine.Resume i) st) !!! Engine.dbActions queue).

(** The stalled-recovery flag of a queue, when the queue is registered. *)
Definition flag_of (queueName : string) (st : Engine.state) : option bool :=
  Engine.isStalledJobsProcessingComplete <$> Engine.queues st !! queueName.

(** A fetch from the STALLED list of the queue, in the log; and a request
    of the queue suspended at its fetch from STALLED. *)
Definition is_stalled_fetch (queueName : string) (e : Engine.effect) : bool :=
  match e with
  | Engine.GetJobs q STALLED _ => bool_decide (q = queueName)
  | _ => false
  end.

Definition is_stalled_await (queueName : string) (t : Engine.task) : bool :=
  match t with
  | Engine.AwaitJobs q _ STALLED => bool_decide (q = queueName)
  | _ => false
  end.

(** The fetches from STALLED the queue has made, and the ones it is about
    to make. *)
Definition stalled_fetches (queueName : string) (st : Engine.state) : nat :=
  length (List.filter (is_stalled_fetch queueName) (Engine.log st))
  + length (List.filter (is_stalled_await queueName) (Engine.tasks st)).

(** The invariant once the flag of [queueName] is set: it stays set, and
    the fetches from STALLED made or awaited stay [c]. *)
Definition one_shot (queueName : string) (c : nat) (st : Engine.state) : Prop :=
  flag_of queueName st = Some true ∧ stalled_fetches queueName st = c.

(** The requests suspended at a fetch. *)
Definition awaited_fetches (st : Engine.state) : list Engine.task :=
  List.filter (λ t, match t with Engine.AwaitJobs _ _ _ => true | _ => false end)
    (Engine.tasks st).

(** What the answer of the fetch from STALLED does to a request of the
    worker [workerId]: an empty answer sets the flag and the request goes on
    to fetch from PENDING; a job keeps the flag as it is and the request
    fetches nothing more; an error ends the request. *)
Definition stalled_answer (queueName workerId : string) (queue : Engine.tQueueMapValue)
    (st : Engine.state) : Prop :=
  let st' := Engine.onJobsRequest_resume queueName workerId STALLED st in
  match (DBActions.getJobs queueName STALLED DBActions.default_limit
           (Engine.servers st !!! Engine.dbActions queue)).2 with
  | Resolved [] =>
      flag_of queueName st' = Some true
      ∧ Engine.tasks st' = Engine.tasks st ++ [Engine.AwaitJobs queueName workerId PENDING]
      ∧ Engine.log st'
        = Engine.log st ++ [Engine.GetJobs queueName STALLED DBActions.default_limit]
  | Resolved (_ :: _) =>
      flag_of queueName st' = flag_of queueName st
      ∧ awaited_fetches st' = awaited_fetches st
      ∧ Engine.log st'
        = Engine.log st ++ [ Engine.GetJobs queueName STALLED DBActions.default_limit;
                             Engine.Emit (Some queueName) JOB_POOL_PROCESS (Some workerId) ]
  | Rejected _ =>
      flag_of queueName st' = flag_of queueName st
      ∧ Engine.tasks st' = Engine.tasks st
      ∧ Engine.log st'
        = Engine.log st ++ [Engine.GetJobs queueName STALLED DBActions.default_limit]
  end.

(** A state the engine can be in: some calls and continuations after it
    was started against some servers. *)
Definition reachable (st : Engine.state) : Prop :=
  ∃ redis l, st = Engine.steps l (Engine.boot redis).

(** No handler listens to an event of the queue. *)
Definition silent (queueName : string) (st : Engine.state) : Prop :=
  ∀ e, (Some queueName, e) ∉ Engine.listeners st.

Definition is_emit (e : Engine.effect) : Prop :=
  match e with Engine.Emit _ _ _ => True | _ => False end.

(** What registering a worker does at startup.  For the first worker of
    the queue, the move of the RUNNING jobs to STALLED is the first thing
    done, before any handler is registered, and the server of the queue
    holds what the move left, the other servers what they held; when the
    move moves nothing, the flag of the queue is set; and the handlers
    registered are the three of the queue, or none when the move failed.
    For a later worker nothing is moved and no handler is registered: every
    server holds what it held, and only events are emitted. *)
Definition startup (queueName workerId : string) (workerFunction : Engine.tWorker)
    (workerConfig : Engine.tWorkerConfig) (queue : Engine.tQueueMapValue)
    (st : Engine.state) : Prop :=
  let st' := (Engine.addWorker queueName workerId workerFunction workerConfig st).1 in
  let move :=
    DBActions.moveJobsBetweenLists (Engine.name (Engine.queue queue)) RUNNING STALLED
      (Engine.servers st !!! Engine.dbActions queue) in
  let moved := move.2 in
  match Engine.workers queue with
  | [] =>
      (∃ rest, Engine.log st'
               = Engine.log st
                 ++ Engine.MoveJobsBetweenLists (Engine.name (Engine.queue queue))
                      RUNNING STALLED :: rest)
      ∧ Engine.servers st' = <[Engine.dbActions queue := move.1]> (Engine.servers st)
      ∧ (moved = Resolved [] → flag_of queueName st' = Some true)
      ∧ (match moved with
         | Resolved _ =>
             Engine.listeners st'
             = Engine.listeners st
               ++ [ (Some queueName, WORKER_ADD); (Some queueName, JOB_POOL_REQUEST);
                    (Some queueName, JOB_POOL_PROCESS) ]
         | Rejected _ => Engine.listeners st' = Engine.listeners st
         end)
  | _ :: _ =>
      Engine.listeners st' = Engine.listeners st
      ∧ Engine.servers st' = Engine.servers st
      ∧ ∃ rest, Engine.log st' = Engine.log st ++ rest ∧ Forall is_emit rest
  end.

(** What the move of the first worker leaves on the server of a queue that
    is laid out as the spec has it and whose RUNNING list holds ids that no
    status is written as: every job that was RUNNING is STALLED, at the
    tail of the STALLED list in the order of the RUNNING list, and the
    RUNNING list is empty. *)
Definition startup_recovers (queueName workerId : string) (workerFunction : Engine.tWorker)
    (workerConfig : Engine.tWorkerConfig) (queue : Engine.tQueueMapValue)
    (st : Engine.state) : Prop :=
  let name := Engine.name (Engine.queue queue) in
  let redis := Engine.servers st !!! Engine.dbActions queue in
  let st' := (Engine.addWorker queueName workerId workerFunction workerConfig st).1 in
  Engine.workers queue = [] →
  laid_out name redis →
  Forall plain_id (list_at (listKey name RUNNING) redis) →
  moved_all name RUNNING STALLED redis
    (Engine.servers st' !!! Engine.dbActions queue,
     (DBActions.moveJobsBetweenLists name RUNNING STALLED redis).2).

(** How many pool requests of the queue the log has. *)
Definition pool_requests (queueName : string) (l : list Engine.effect) : nat :=
  length (List.filter
            (λ e, match e with
                  | Engine.Emit (Some q) JOB_POOL_REQUEST _ => bool_decide (q = queueName)
                  | _ => false
                  end) l).

(** The worker has a routine in flight: started by the local dispatch of a
    batch, and not settled yet. *)
Definition in_dispatch (queueName workerId : string) (st : Engine.state) : Prop :=
  ∃ batch job settles,
    Engine.AwaitRoutine queueName workerId batch job settles ∈ Engine.tasks st.

(** The idle/busy invariant: a worker with the status idle has an empty
    batch and no routine in flight. *)
Definition idle_busy (st : Engine.state) : Prop :=
  ∀ queueName queue workerId workerData,
    Engine.queues st !! queueName = Some queue →
    Engine.map_get workerId (Engine.workers queue) = Some workerData →
    Engine.status workerData = IDLE →
    Engine.jobs workerData = [] ∧ ¬ in_dispatch queueName workerId st.

End statements.

(** ** An instance of the constants, for the examples *)

Definition demo_status_str (s : QUEUIFY_JOB_STATUS) : string :=
  match s with
  | PENDING => "pending"
  | RUNNING => "running"
  | STALLED => "stalled"
  | COMPLETED => "completed"
  | FAILED => "failed"
  end.

Lemma demo_status_str_inj : Inj (=) (=) demo_status_str.
Proof. by intros [] [] ?. Qed.

(** In the instance the message names the job and the queue, and the server
    refuses every script but the one written, as it does a script that does
    not compile: it answers with an error and writes nothing.  The examples
    below enqueue ids without a quote, a backslash or a line break, for
    which the script is the one written; [addJob_quote] alone shows the
    other case, on an id whose script does not compile. *)
Definition demo : Helpers :=
  {| NAMESPACE := "queuify";
     status_str := demo_status_str;
     status_str_inj := demo_status_str_inj;
     decompressData := default "";
     JOB_ALREADY_EXISTS_message jobId queueName :=
       "Job " +:+ jobId +:+ " already exists in queue " +:+ queueName;
     eval_altered _ _ _ _ db := (db, Rejected ReplyError) |}.

(** * Properties of the persistence layer *)

Section keys.
Context `{Helpers}.
Import DBActions.

Lemma append_assoc (a b c : string) : (a +:+ b) +:+ c = a +:+ (b +:+ c).
Proof.
  induction a as [|x a IH]; [done|].
  change (String x ((a +:+ b) +:+ c) = String x (a +:+ b +:+ c)). by f_equal.
Qed.

Lemma getQueuifyKey_status queueName s :
  getQueuifyKey queueName [RUNS; status_str s] = listKey queueName s.
Proof.
  unfold listKey, colon, getQueuifyKey. cbn [String.concat].
  by rewrite !append_assoc.
Qed.

#[global] Instance colon_inj a : Inj (=) (=) (colon a).
Proof. intros b c Hbc. unfold colon in Hbc. by simplify_eq. Qed.

#[global] Instance listKey_inj queueName : Inj (=) (=) (listKey queueName).
Proof. intros s t Hst. by apply status_str_inj, (colon_inj (getQueuifyKey queueName [RUNS])). Qed.

#[global] Instance jobKey_inj queueName : Inj (=) (=) (jobKey queueName).
Proof. intros s t Hst. by apply (colon_inj (getQueuifyKey queueName [RUNS])). Qed.

Lemma jobKey_listKey queueName jobId s :
  jobKey queueName jobId = listKey queueName s ↔ jobId = status_str s.
Proof.
  split; [apply (colon_inj (getQueuifyKey queueName [RUNS])) | by intros ->].
Qed.

End keys.

Section entries.
Context `{Helpers}.

Lemma entries_cons jobId x l :
  entries jobId (x :: l) = (if decide (x = jobId) then 1 else 0) + entries jobId l.
Proof. unfold entries. rewrite filter_cons. by case_decide. Qed.

Lemma entries_app jobId l k : entries jobId (l ++ k) = entries jobId l + entries jobId k.
Proof. unfold entries. by rewrite filter_app, length_app. Qed.

Lemma entries_not_elem_of jobId l : jobId ∉ l → entries jobId l = 0.
Proof.
  induction l as [|x l IH]; [done|]. rewrite not_elem_of_cons. intros [Hx Hl].
  rewrite entries_cons, IH by done. by case_decide.
Qed.

End entries.

(** ** The commands on keys of the right kind *)

Section commands.
Implicit Types (db : store) (key : string).

Lemma list_at_insert key l db : list_at key (<[key := RList l]> db) = l.
Proof. unfold list_at. by rewrite lookup_insert_eq. Qed.

Lemma list_at_insert_ne key key' v db :
  key ≠ key' → list_at key' (<[key := v]> db) = list_at key' db.
Proof. intros. unfold list_at. by rewrite lookup_insert_ne. Qed.

Lemma list_at_insert_hash key key' h db :
  list_at key' (<[key := RHash h]> db) = if decide (key = key') then [] else list_at key' db.
Proof.
  unfold list_at. case_decide as Hk; [subst; by rewrite lookup_insert_eq|].
  by rewrite lookup_insert_ne.
Qed.

Lemma list_at_set_list key l db : list_at key (set_list key l db) = l.
Proof.
  unfold set_list, list_at. destruct l; [by rewrite lookup_delete_eq|].
  by rewrite lookup_insert_eq.
Qed.

Lemma lookup_set_list_ne key key' l db :
  key ≠ key' → set_list key l db !! key' = db !! key'.
Proof.
  intros. unfold set_list. destruct l; [by rewrite lookup_delete_ne|].
  by rewrite lookup_insert_ne.
Qed.

Lemma list_at_set_list_ne key key' l db :
  key ≠ key' → list_at key' (set_list key l db) = list_at key' db.
Proof. intros. unfold list_at. by rewrite lookup_set_list_ne. Qed.

Lemma hash_at_set_list key key' l db :
  hash_at key db = None → hash_at key' (set_list key l db) = hash_at key' db.
Proof.
  intros Hk. destruct (decide (key = key')) as [<-|Hne].
  - rewrite Hk. unfold hash_at, set_list.
    destruct l; [by rewrite lookup_delete_eq | by rewrite lookup_insert_eq].
  - unfold hash_at. by rewrite lookup_set_list_ne.
Qed.

Lemma hash_at_insert key h db : hash_at key (<[key := RHash h]> db) = Some h.
Proof. unfold hash_at. by rewrite lookup_insert_eq. Qed.

Lemma hash_at_insert_ne key key' v db :
  key ≠ key' → hash_at key' (<[key := v]> db) = hash_at key' db.
Proof. intros. unfold hash_at. by rewrite lookup_insert_ne. Qed.

Lemma hash_at_insert_list key key' l db :
  hash_at key db = None → hash_at key' (<[key := RList l]> db) = hash_at key' db.
Proof.
  intros Hk. destruct (decide (key = key')) as [<-|Hne].
  - rewrite Hk. unfold hash_at. by rewrite lookup_insert_eq.
  - by rewrite hash_at_insert_ne.
Qed.

Lemma set_list_id key db :
  hash_at key db = None → db !! key ≠ Some (RList []) → set_list key (list_at key db) db = db.
Proof.
  unfold hash_at, list_at, set_list. intros Hh Hl.
  destruct (db !! key) as [[h|[|x l]]|] eqn:Hk; try done.
  - by apply insert_id.
  - by apply delete_id.
Qed.

(** [HSET] on a key that holds no list writes the fields, into a new record
    when the key is absent. *)
Lemma run_HSET key fvs db :
  (∀ l, db !! key ≠ Some (RList l)) →
  ∃ n, run (HSET key fvs) db =
    (<[key := RHash (foldl hash_set (default hash_empty (hash_at key db)) fvs)]> db, Ok (VInt n)).
Proof.
  intros Hk. unfold hash_at. cbn. destruct (db !! key) as [[h|l]|] eqn:E; eauto.
  by destruct (Hk l).
Qed.

Lemma run_HSET_list key fvs l db :
  db !! key = Some (RList l) → run (HSET key fvs) db = (db, WRONGTYPE).
Proof. intros Hk. cbn. by rewrite Hk. Qed.

(** [LPUSH] on a key that holds no record puts the value at the head. *)
Lemma run_LPUSH key v db :
  hash_at key db = None →
  ∃ n, run (LPUSH key v) db = (<[key := RList (v :: list_at key db)]> db, Ok (VInt n)).
Proof.
  unfold hash_at, list_at. cbn. destruct (db !! key) as [[h|l]|] eqn:E; eauto. done.
Qed.

Lemma run_LPUSH_hash key v h db :
  db !! key = Some (RHash h) → run (LPUSH key v) db = (db, WRONGTYPE).
Proof. intros Hk. cbn. by rewrite Hk. Qed.

(** [LREM] on a key that holds no record. *)
Lemma run_LREM key count v db :
  hash_at key db = None →
  ∃ n, run (LREM key count v) db =
    (set_list key (remove_first count v (list_at key db)) db, Ok (VInt n)).
Proof.
  unfold hash_at, list_at. cbn. destruct (db !! key) as [[h|l]|] eqn:E; eauto; [done|].
  intros _. exists 0. f_equal. destruct count; cbn; by rewrite delete_id.
Qed.

(** [LMOVE] from the head of one list to the tail of another one. *)
Lemma run_LMOVE_empty src dst db :
  list_at src db = [] → hash_at src db = None →
  run (LMOVE src dst LEFT RIGHT) db = (db, Ok (VBulk None)).
Proof.
  unfold hash_at, list_at. cbn. by destruct (db !! src) as [[h|[|x l]]|] eqn:E.
Qed.

Lemma run_LMOVE_cons src dst x l db :
  list_at src db = x :: l → hash_at dst db = None →
  run (LMOVE src dst LEFT RIGHT) db =
    (<[dst := RList (list_at dst (set_list src l db) ++ [x])]> (set_list src l db),
     Ok (VBulk (Some x))).
Proof.
  unfold hash_at. unfold list_at at 1. cbn.
  destruct (db !! src) as [[h|l']|] eqn:E; try done. intros -> Hdst. cbn.
  destruct (db !! dst) as [[h|d]|] eqn:E'; try done.
Qed.

Lemma exec_app cs cs' db :
  exec (cs ++ cs') db =
    ((exec cs' (exec cs db).1).1, (exec cs db).2 ++ (exec cs' (exec cs db).1).2).
Proof.
  revert db. induction cs as [|c cs IH]; intros db; cbn.
  - by destruct (exec cs' db).
  - destruct (run c db) as [db1 r]. rewrite IH.
    destruct (exec cs db1) as [db2 rs]. cbn. by destruct (exec cs' db2).
Qed.

End commands.

Section addJob.
Context `{Helpers}.
Import DBActions.

Lemma addJob_exists queueName jobId data (db : store) :
  as_written queueName jobId →
  is_Some (db !! jobKey queueName jobId) →
  addJob queueName jobId data db = (db, Rejected (JOB_ALREADY_EXISTS jobId queueName)).
Proof.
  intros Hscript [v Hv]. unfold addJob. rewrite Hscript.
  fold (jobKey queueName jobId). cbn. by rewrite Hv.
Qed.

Lemma addJob_new queueName jobId data (db : store) :
  as_written queueName jobId →
  db !! jobKey queueName jobId = None →
  hash_at (listKey queueName PENDING) db = None →
  jobId ≠ status_str PENDING →
  addJob queueName jobId data db =
    (<[listKey queueName PENDING := RList (jobId :: list_at (listKey queueName PENDING) db)]>
       (<[jobKey queueName jobId :=
            RHash (Hash (Some jobId) (Some data) (Some (status_str PENDING)) None)]> db),
     Resolved ()).
Proof.
  intros Hscript Hnew Hpending Hne.
  assert (jobKey queueName jobId ≠ listKey queueName PENDING) as Hkeys
    by by rewrite jobKey_listKey.
  unfold addJob. rewrite Hscript. rewrite getQueuifyKey_status.
  fold (jobKey queueName jobId).
  cbn. rewrite Hnew. cbn. rewrite lookup_insert_ne by done.
  unfold hash_at, list_at in *.
  destruct (db !! listKey queueName PENDING) as [[h|l]|]; done.
Qed.

(** C1, as amended: for a job id that is not the name the PENDING status
    is written as, whose script is the one written (the message of
    [JOB_ALREADY_EXISTS] stands for itself between the quotes it is pasted
    in), and that is new to a queue whose PENDING key holds no record and
    does not list the id yet, enqueuing the id twice leaves the record of
    the id, with the id, the status PENDING and the payload of the first
    attempt, and exactly one entry on the PENDING list; the first attempt
    resolves, the second is refused with [JOB_ALREADY_EXISTS] and writes
    nothing. *)
Theorem addJob_twice queueName jobId data data' (db : store) :
  as_written queueName jobId →
  jobId ≠ status_str PENDING →
  db !! jobKey queueName jobId = None →
  hash_at (listKey queueName PENDING) db = None →
  jobId ∉ list_at (listKey queueName PENDING) db →
  (addJob queueName jobId data db).2 = Resolved ()
  ∧ enqueued_once queueName jobId data data' db.
Proof.
  intros Hscript Hne Hnew Hpending Hnotin. unfold enqueued_once.
  rewrite addJob_new by done. split; [done|].
  rewrite addJob_exists; [|done|]; last first.
  { rewrite lookup_insert_ne by (symmetry; by rewrite jobKey_listKey).
    by rewrite lookup_insert_eq. }
  split_and!; [done..| |].
  - eexists. unfold hash_at.
    rewrite lookup_insert_ne by (symmetry; by rewrite jobKey_listKey).
    by rewrite lookup_insert_eq.
  - unfold list_at at 1. rewrite lookup_insert_eq.
    rewrite entries_cons, entries_not_elem_of by done. by case_decide.
Qed.

End addJob.

Section addJob_examples.
Import DBActions.
#[local] Existing Instance demo.

Lemma addJob_twice_witness :
  (addJob "mail" "a" "x" ∅).2 = Resolved () ∧ enqueued_once "mail" "a" "x" "y" ∅.
Proof.
  apply (addJob_twice "mail" "a" "x" "y" ∅).
  - reflexivity.
  - discriminate.
  - reflexivity.
  - reflexivity.
  - vm_compute. apply not_elem_of_nil.
Defined.

Example addJob_twice_record :
  hash_at (jobKey "mail" "a") (addJob "mail" "a" "y" (addJob "mail" "a" "x" ∅).1).1
  = Some (Hash (Some "a") (Some "x") (Some "pending") None).
Proof. vm_compute. reflexivity. Qed.

(** C1 fails for the job id that is the name of the PENDING status: the
    record of the job is written at the key of the PENDING list, the push is
    refused, and the id is on no list. *)
Lemma addJob_twice_status_name :
  ¬ enqueued_once "mail" "pending" "x" "x" ∅.
Proof.
  intros Honce.
  assert (entries "pending"
            (list_at (listKey "mail" PENDING)
               (addJob "mail" "pending" "x" (addJob "mail" "pending" "x" ∅).1).1) = 1)
    as Hentries.
  { unfold enqueued_once in Honce.
    destruct (addJob "mail" "pending" "x" ∅) as [db1 r1]. cbn [fst].
    destruct (addJob "mail" "pending" "x" db1) as [db2 r2]. cbn [fst].
    by destruct Honce as (_ & _ & _ & Hentries). }
  vm_compute in Hentries. discriminate.
Qed.

Example addJob_status_name_first :
  (addJob "mail" "pending" "x" ∅).2 = Rejected ReplyError.
Proof. reflexivity. Qed.

(** An id with a quote: the message pasted into the script ends the string
    it is pasted in.  In the instance the server answers such a script with
    an error and writes nothing. *)
Example addJob_quote :
  addJob "mail" "a'b" "x" ∅ = (∅, Rejected ReplyError).
Proof. reflexivity. Qed.

End addJob_examples.

Section terminal.
Context `{Helpers}.
Import DBActions.
Implicit Types (db : store).

Lemma laid_out_list queueName s db :
  laid_out queueName db → hash_at (listKey queueName s) db = None.
Proof.
  intros Hdb. specialize (Hdb (status_str s)).
  change (jobKey queueName (status_str s)) with (listKey queueName s) in Hdb.
  unfold hash_at. destruct (db !! listKey queueName s) as [[h|l]|]; try done.
  by destruct (Hdb s).
Qed.

Lemma laid_out_record queueName jobId db l :
  laid_out queueName db → plain_id jobId → db !! jobKey queueName jobId ≠ Some (RList l).
Proof.
  intros Hdb Hid Hk. specialize (Hdb jobId). rewrite Hk in Hdb.
  destruct Hdb as [s ->]. by destruct (Hid s).
Qed.

Lemma plain_id_or jobId : plain_id jobId ∨ ∃ s, jobId = status_str s.
Proof.
  destruct (decide (jobId = status_str PENDING)) as [?|H1]; [right; eauto|].
  destruct (decide (jobId = status_str RUNNING)) as [?|H2]; [right; eauto|].
  destruct (decide (jobId = status_str STALLED)) as [?|H3]; [right; eauto|].
  destruct (decide (jobId = status_str COMPLETED)) as [?|H4]; [right; eauto|].
  destruct (decide (jobId = status_str FAILED)) as [?|H5]; [right; eauto|].
  left. by intros [].
Qed.

Lemma plain_id_keys queueName jobId s :
  plain_id jobId → jobKey queueName jobId ≠ listKey queueName s.
Proof. intros Hid. rewrite jobKey_listKey. apply Hid. Qed.

Lemma laid_out_insert_hash queueName jobId h db :
  laid_out queueName db → plain_id jobId →
  laid_out queueName (<[jobKey queueName jobId := RHash h]> db).
Proof.
  intros Hdb Hid x. destruct (decide (jobId = x)) as [<-|Hne].
  - by rewrite lookup_insert_eq.
  - rewrite lookup_insert_ne; [apply Hdb|]. by intros ?%(inj _).
Qed.

Lemma laid_out_insert_list queueName s l db :
  laid_out queueName db → laid_out queueName (<[listKey queueName s := RList l]> db).
Proof.
  intros Hdb x. destruct (decide (status_str s = x)) as [<-|Hne].
  - change (jobKey queueName (status_str s)) with (listKey queueName s).
    rewrite lookup_insert_eq. eauto.
  - rewrite lookup_insert_ne; [apply Hdb|]. unfold listKey, jobKey. by intros ?%(inj _).
Qed.

Lemma laid_out_delete queueName key db :
  laid_out queueName db → laid_out queueName (delete key db).
Proof.
  intros Hdb x. destruct (decide (key = jobKey queueName x)) as [->|Hne].
  - by rewrite lookup_delete_eq.
  - rewrite lookup_delete_ne by done. apply Hdb.
Qed.

Lemma laid_out_set_list queueName s l db :
  laid_out queueName db → laid_out queueName (set_list (listKey queueName s) l db).
Proof.
  intros Hdb. destruct l; [by apply laid_out_delete | by apply laid_out_insert_list].
Qed.

Lemma laid_out_empty queueName : laid_out queueName ∅.
Proof. intros x. by rewrite lookup_empty. Qed.

(** The pipeline [completeJob] and [failJob] share. *)
Lemma terminal_pipeline queueName jobId fvs st db :
  laid_out queueName db → plain_id jobId → st ≠ RUNNING →
  let db' := (exec [ HSET (jobKey queueName jobId) fvs;
                     LREM (listKey queueName RUNNING) 1 jobId;
                     LPUSH (listKey queueName st) jobId ] db).1 in
  hash_at (jobKey queueName jobId) db'
  = Some (foldl hash_set (default hash_empty (hash_at (jobKey queueName jobId) db)) fvs)
  ∧ list_at (listKey queueName RUNNING) db'
    = remove_first 1 jobId (list_at (listKey queueName RUNNING) db)
  ∧ list_at (listKey queueName st) db' = jobId :: list_at (listKey queueName st) db
  ∧ laid_out queueName db'.
Proof.
  intros Hdb Hid Hst.
  pose proof (plain_id_keys queueName jobId RUNNING Hid) as HkR.
  pose proof (plain_id_keys queueName jobId st Hid) as Hkst.
  assert (listKey queueName RUNNING ≠ listKey queueName st) as HRst
    by (by intros ?%(inj _)).
  cbn [exec].
  destruct (run_HSET (jobKey queueName jobId) fvs db) as [n1 ->];
    [intros l; by apply laid_out_record|].
  set (h := foldl hash_set _ fvs).
  set (db1 := <[jobKey queueName jobId := RHash h]> db).
  assert (laid_out queueName db1) as Hdb1 by by apply laid_out_insert_hash.
  destruct (run_LREM (listKey queueName RUNNING) 1 jobId db1) as [n2 ->];
    [by apply laid_out_list|].
  set (db2 := set_list _ _ db1).
  assert (laid_out queueName db2) as Hdb2 by by apply laid_out_set_list.
  destruct (run_LPUSH (listKey queueName st) jobId db2) as [n3 ->];
    [by apply laid_out_list|].
  cbn. split_and!.
  - rewrite hash_at_insert_ne by done.
    subst db2. rewrite hash_at_set_list by by apply laid_out_list.
    apply hash_at_insert.
  - rewrite list_at_insert_ne by done. subst db2. rewrite list_at_set_list.
    subst db1. by rewrite list_at_insert_ne.
  - rewrite list_at_insert. f_equal. subst db2.
    rewrite list_at_set_list_ne by done. subst db1. by rewrite list_at_insert_ne.
  - by apply laid_out_insert_list.
Qed.

Lemma hash_set_status h fvs v :
  h_status (foldl hash_set h (fvs ++ [(STATUS, v)])) = Some v.
Proof. by rewrite foldl_app. Qed.

Lemma completeJob_settled queueName jobId db :
  laid_out queueName db → plain_id jobId →
  settled queueName jobId COMPLETED db (completeJob queueName (Some jobId) db)
  ∧ laid_out queueName (completeJob queueName (Some jobId) db).1.
Proof.
  intros Hdb Hid.
  destruct (terminal_pipeline queueName jobId [(STATUS, status_str COMPLETED)]
              COMPLETED db Hdb Hid) as (Hh & HR & HC & Hl); [done|].
  unfold settled, completeJob. cbn [fst snd template argument default].
  split_and!; eauto.
Qed.

Lemma failJob_settled queueName jobId reason db :
  laid_out queueName db → plain_id jobId →
  settled queueName jobId FAILED db (failJob queueName (Some jobId) reason db)
  ∧ hash_at (jobKey queueName jobId) (failJob queueName (Some jobId) reason db).1
    ≫= h_failed_reason = Some (argument reason)
  ∧ laid_out queueName (failJob queueName (Some jobId) reason db).1.
Proof.
  intros Hdb Hid.
  destruct (terminal_pipeline queueName jobId
              [(STATUS, status_str FAILED); (FAILED_REASON, argument reason)]
              FAILED db Hdb Hid) as (Hh & HR & HF & Hl); [done|].
  unfold settled, failJob. cbn [fst snd template argument default].
  split_and!; [done| |done|done| |done].
  - eexists. split; [apply Hh|]. done.
  - exact (f_equal (λ o, o ≫= h_failed_reason) Hh).
Qed.

(** C9, as amended: for a queue laid out as the spec has it and a job id
    that no status is written as, [completeJob] and [failJob] need nothing
    else and do not raise: with or without a record of the job, and with or
    without the id on the RUNNING list, they set the status field, remove
    one entry of the id from the RUNNING list if there is one, and push the
    id onto the COMPLETED, respectively FAILED, list; [completeJob] twice
    leaves the id two more times on the COMPLETED list. *)
Theorem terminal_no_precondition queueName jobId db :
  laid_out queueName db → plain_id jobId → settles_any queueName jobId db.
Proof.
  intros Hdb Hid. unfold settles_any.
  destruct (completeJob_settled queueName jobId db Hdb Hid) as [Hc Hdb1].
  split_and!; [done| |].
  - intros reason. by apply failJob_settled.
  - destruct (completeJob_settled queueName jobId _ Hdb1 Hid) as [(_ & _ & _ & ->) _].
    destruct Hc as (_ & _ & _ & ->). rewrite !entries_cons. by case_decide.
Qed.

End terminal.

Section getJobs.
Context `{Helpers}.
Import DBActions.
Implicit Types (db : store).

(** The loop of [getJobs] on a list of non-empty ids: it pops the first
    [limit] ids, in order, onto the tail of the RUNNING list, and touches no
    other key. *)
Lemma getJobs_pop_take queueName from limit db :
  from ≠ RUNNING → laid_out queueName db →
  "" ∉ take limit (list_at (listKey queueName from) db) →
  ∃ db1,
    getJobs_pop (listKey queueName from) (listKey queueName RUNNING) limit db
    = (db1, Resolved (take limit (list_at (listKey queueName from) db)))
    ∧ list_at (listKey queueName from) db1 = drop limit (list_at (listKey queueName from) db)
    ∧ list_at (listKey queueName RUNNING) db1
      = list_at (listKey queueName RUNNING) db ++ take limit (list_at (listKey queueName from) db)
    ∧ laid_out queueName db1
    ∧ (∀ key, key ≠ listKey queueName from → key ≠ listKey queueName RUNNING →
              db1 !! key = db !! key).
Proof.
  intros Hfrom. revert db.
  assert (listKey queueName from ≠ listKey queueName RUNNING) as Hkeys
    by (by intros ?%(inj _)).
  induction limit as [|limit IH]; intros db Hdb Hids.
  { exists db. rewrite take_0, drop_0, app_nil_r. done. }
  cbn [getJobs_pop].
  destruct (list_at (listKey queueName from) db) as [|x l] eqn:Hl.
  { rewrite run_LMOVE_empty by (done || by apply laid_out_list). cbn.
    exists db. rewrite Hl, app_nil_r. done. }
  rewrite (run_LMOVE_cons _ _ x l) by (done || by apply laid_out_list).
  cbn [take drop] in *. apply not_elem_of_cons in Hids as [Hx Hids].
  cbn [falsy]. rewrite bool_decide_eq_false_2 by done.
  set (db0 := set_list (listKey queueName from) l db).
  set (db' := <[_ := _]> db0).
  assert (list_at (listKey queueName from) db' = l) as Hl'.
  { subst db' db0. rewrite list_at_insert_ne by done. apply list_at_set_list. }
  assert (laid_out queueName db') as Hdb'.
  { by apply laid_out_insert_list, laid_out_set_list. }
  destruct (IH db' Hdb') as (db1 & -> & Hf & Hr & Hdb1 & Hother); [by rewrite Hl'|].
  exists db1. rewrite Hl' in *. split_and!; try done.
  - rewrite Hr. subst db'. rewrite list_at_insert. subst db0.
    rewrite list_at_set_list_ne by done. by rewrite <- app_assoc.
  - intros key Hk1 Hk2. rewrite Hother by done. subst db' db0.
    rewrite lookup_insert_ne by done. by rewrite lookup_set_list_ne.
Qed.

Lemma around_S k l : around (S k) l = l ++ around k l.
Proof. done. Qed.

Lemma around_nil k : around k [] = [].
Proof. induction k as [|k IH]; [done|]. by rewrite around_S, IH. Qed.

Lemma length_around k l : length (around k l) = k * length l.
Proof.
  induction k as [|k IH]; [done|]. rewrite around_S, length_app, IH. lia.
Qed.

(** Reading a list over and over from its second entry is reading it, turned
    by one, over and over. *)
Lemma around_turn k x l : around (S k) (x :: l) = x :: around k (l ++ [x]) ++ l.
Proof.
  induction k as [|k IH]; [by rewrite around_S, app_nil_r|].
  rewrite around_S, IH, (around_S k (l ++ [x])).
  cbn. f_equal. by rewrite <- !app_assoc.
Qed.

(** From the RUNNING list to itself. *)
Lemma getJobs_pop_rotate queueName limit db :
  laid_out queueName db →
  "" ∉ list_at (listKey queueName RUNNING) db →
  ∃ db1 ids,
    getJobs_pop (listKey queueName RUNNING) (listKey queueName RUNNING) limit db
    = (db1, Resolved ids)
    ∧ ids = take limit (around (S limit) (list_at (listKey queueName RUNNING) db))
    ∧ list_at (listKey queueName RUNNING) db1
      = take (length (list_at (listKey queueName RUNNING) db))
          (drop limit (around (S limit) (list_at (listKey queueName RUNNING) db)))
    ∧ length ids ≤ limit
    ∧ ids ⊆ list_at (listKey queueName RUNNING) db
    ∧ list_at (listKey queueName RUNNING) db1 ≡ₚ list_at (listKey queueName RUNNING) db
    ∧ laid_out queueName db1
    ∧ (∀ key, key ≠ listKey queueName RUNNING → db1 !! key = db !! key).
Proof.
  revert db. induction limit as [|limit IH]; intros db Hdb Hids.
  { exists db, []. split_and!; try done; try first [cbn; lia | apply list_subseteq_nil].
    rewrite around_S, app_nil_r. cbn [drop]. by rewrite take_ge. }
  cbn [getJobs_pop].
  destruct (list_at (listKey queueName RUNNING) db) as [|x l] eqn:Hl.
  { rewrite !around_nil.
    rewrite run_LMOVE_empty by (done || by apply laid_out_list). cbn.
    exists db, []. rewrite Hl.
    split_and!; try done; first [cbn; lia | apply list_subseteq_nil]. }
  rewrite (run_LMOVE_cons _ _ x l) by (done || by apply laid_out_list).
  rewrite list_at_set_list.
  apply not_elem_of_cons in Hids as [Hx Hids].
  cbn [falsy]. rewrite bool_decide_eq_false_2 by done.
  set (db0 := set_list (listKey queueName RUNNING) l db).
  set (db' := <[_ := _]> db0).
  assert (list_at (listKey queueName RUNNING) db' = l ++ [x]) as Hl'.
  { subst db'. apply list_at_insert. }
  assert (laid_out queueName db') as Hdb'.
  { by apply laid_out_insert_list, laid_out_set_list. }
  destruct (IH db' Hdb')
    as (db1 & ids & -> & Hids' & Hturned & Hlen & Hsub & Hperm & Hdb1 & Hother).
  { rewrite Hl'. rewrite not_elem_of_app, not_elem_of_cons. split_and!; try done.
    apply not_elem_of_nil. }
  exists db1, (x :: ids). rewrite Hl' in *.
  assert (limit ≤ length (around (S limit) (l ++ [x]))) as Hlong
    by (rewrite length_around, length_app; cbn; nia).
  split_and!; try done.
  - rewrite around_turn. cbn [take]. f_equal. by rewrite take_app_le.
  - rewrite Hturned, around_turn. cbn [drop]. rewrite drop_app_le by done.
    rewrite length_app. cbn [length]. rewrite Nat.add_1_r.
    rewrite take_app_le; [done|].
    rewrite length_drop, length_around, length_app. cbn. nia.
  - cbn. lia.
  - intros y [->|Hy]%elem_of_cons; [left|].
    apply Hsub, elem_of_app in Hy as [Hy|Hy%list_elem_of_singleton]; [by right|subst; left].
  - rewrite Hperm. by rewrite Permutation_app_comm.
  - intros key Hk. rewrite Hother by done. subst db' db0.
    rewrite lookup_insert_ne by done. by rewrite lookup_set_list_ne.
Qed.

Lemma job_of_ext queueName db db' jobId :
  db' !! jobKey queueName jobId = db !! jobKey queueName jobId →
  job_of queueName db' jobId = job_of queueName db jobId.
Proof. intros Hk. unfold job_of, hash_at. by rewrite Hk. Qed.

Lemma list_at_ext key db db' : db' !! key = db !! key → list_at key db' = list_at key db.
Proof. intros Hk. unfold list_at. by rewrite Hk. Qed.

(** Writing the status of a record changes the record of no job, as
    [getJobs] reads it. *)
Lemma job_of_insert_status queueName x v db jobId :
  job_of queueName
    (<[jobKey queueName x :=
         RHash (foldl hash_set (default hash_empty (hash_at (jobKey queueName x) db))
                  [(STATUS, v)])]> db) jobId
  = job_of queueName db jobId.
Proof.
  unfold job_of. destruct (decide (x = jobId)) as [->|Hne].
  - by rewrite hash_at_insert.
  - rewrite hash_at_insert_ne; [done|]. by intros ?%(inj _).
Qed.

(** The pipeline of reads: it changes nothing, and every entry is the
    pair of the id field and the payload field of a record. *)
Lemma exec_hmget queueName ids db :
  laid_out queueName db → Forall plain_id ids →
  exec ((λ jobId, HMGET (jobKey queueName jobId) [JOB_ID; DATA]) <$> ids) db
  = (db, hmget_reply queueName db <$> ids).
Proof.
  intros Hdb. induction 1 as [|x ids Hx Hids IH]; [done|].
  rewrite !fmap_cons. cbn [exec].
  assert (run (HMGET (jobKey queueName x) [JOB_ID; DATA]) db
          = (db, hmget_reply queueName db x)) as ->.
  { pose proof (laid_out_record queueName x db) as Hrec.
    unfold hmget_reply, hash_at. cbn.
    destruct (db !! jobKey queueName x) as [[h|l]|]; try done.
    by destruct (Hrec l). }
  by rewrite IH.
Qed.

Lemma to_jobs_records queueName ids db :
  to_jobs (hmget_reply queueName db <$> ids) = Some (job_of queueName db <$> ids).
Proof.
  induction ids as [|x ids IH]; [done|].
  rewrite !fmap_cons. cbn [to_jobs]. by rewrite IH.
Qed.

(** The pipeline of writes: the records of the ids get the status, the
    other fields and the other keys stay. *)
Lemma exec_hset_status queueName v ids db :
  laid_out queueName db → Forall plain_id ids →
  let db' := (exec ((λ jobId, HSET (jobKey queueName jobId) [(STATUS, v)]) <$> ids) db).1 in
  laid_out queueName db'
  ∧ (∀ s, db' !! listKey queueName s = db !! listKey queueName s)
  ∧ (∀ jobId, jobId ∈ ids →
       ∃ h, hash_at (jobKey queueName jobId) db' = Some h ∧ h_status h = Some v)
  ∧ (∀ jobId h, hash_at (jobKey queueName jobId) db = Some h → h_status h = Some v →
       ∃ h', hash_at (jobKey queueName jobId) db' = Some h' ∧ h_status h' = Some v)
  ∧ (∀ jobId, job_of queueName db' jobId = job_of queueName db jobId).
Proof.
  intros Hdb Hids. revert db Hdb.
  induction Hids as [|x ids Hx Hids IH]; intros db Hdb.
  { cbn. split_and!; try done; [by intros ? ?%elem_of_nil | eauto]. }
  rewrite fmap_cons. cbn [exec].
  destruct (run_HSET (jobKey queueName x) [(STATUS, v)] db) as [n ->];
    [intros l; by apply laid_out_record|].
  set (h0 := foldl hash_set _ _). set (db1 := <[_ := _]> db).
  assert (laid_out queueName db1) as Hdb1 by by apply laid_out_insert_hash.
  destruct (IH db1 Hdb1) as (Hl & Hlists & Hset & Hkeep & Hjob).
  destruct (exec _ db1) as [db2 rs] eqn:E. cbn [fst] in *.
  split_and!; [done| | | |].
  - intros s. rewrite Hlists. subst db1.
    by rewrite lookup_insert_ne by by apply plain_id_keys.
  - intros jobId [->|Hin]%elem_of_cons; [|by apply Hset].
    apply (Hkeep x h0); [apply hash_at_insert|done].
  - intros jobId h Hh Hv. destruct (decide (x = jobId)) as [->|Hne].
    + apply (Hkeep jobId h0); [apply hash_at_insert|done].
    + apply (Hkeep jobId h); [|done]. subst db1.
      rewrite hash_at_insert_ne; [done|]. by intros ?%(inj _).
  - intros jobId. rewrite Hjob. subst db1. by apply job_of_insert_status.
Qed.

(** The second half of [getJobs], after the ids were popped. *)
Lemma getJobs_pipelines queueName ids db :
  laid_out queueName db → Forall plain_id ids →
  let jobsPipeline := (λ jobId, HMGET (jobKey queueName jobId) [JOB_ID; DATA]) <$> ids in
  let statusPipeline :=
    (λ jobId, HSET (jobKey queueName jobId) [(STATUS, status_str RUNNING)]) <$> ids in
  ∃ db3,
    (let '(db2, jobsResults) := exec jobsPipeline db in
     let '(db3, _) := exec statusPipeline db2 in
     match to_jobs jobsResults with
     | Some jobs => (db3, Resolved jobs)
     | None => (db3, Rejected TypeError)
     end) = (db3, Resolved (job_of queueName db <$> ids))
    ∧ laid_out queueName db3
    ∧ (∀ s, db3 !! listKey queueName s = db !! listKey queueName s)
    ∧ (∀ jobId, jobId ∈ ids → has_status queueName jobId RUNNING db3)
    ∧ (∀ jobId, job_of queueName db3 jobId = job_of queueName db jobId).
Proof.
  intros Hdb Hids. cbn zeta. rewrite exec_hmget by done.
  destruct (exec_hset_status queueName (status_str RUNNING) ids db Hdb Hids)
    as (Hl & Hlists & Hset & _ & Hjob).
  destruct (exec _ db) as [db3 rs]. cbn [fst] in *.
  rewrite to_jobs_records. by exists db3.
Qed.

(** C4, as amended: on a queue laid out as the spec has it, whose list of
    [from] holds non-empty ids that no status is written as, [getJobs] pops
    the first [n] ids of the list of [from], or all of them when they are
    fewer, moves each onto the tail of the RUNNING list, sets the status
    field of each to RUNNING, and resolves with exactly their records, id
    and decompressed payload; from the RUNNING list itself it moves [n]
    times the id at the head to the tail; on an empty list it resolves with
    nothing and changes nothing. *)
Theorem getJobs_fetched queueName from n db :
  laid_out queueName db →
  Forall plain_id (list_at (listKey queueName from) db) →
  "" ∉ list_at (listKey queueName from) db →
  fetched queueName from n db (getJobs queueName from n db).
Proof.
  intros Hdb Hplain Hne. unfold getJobs. rewrite getQueuifyKey_status.
  change (colon (getQueuifyKey queueName [RUNS]) (status_str RUNNING))
    with (listKey queueName RUNNING).
  split; last first.
  { intros Hl. destruct n as [|n]; [done|]. cbn [getJobs_pop].
    by rewrite run_LMOVE_empty by (done || by apply laid_out_list). }
  assert (∃ db1 ids,
    getJobs_pop (listKey queueName from) (listKey queueName RUNNING) n db = (db1, Resolved ids)
    ∧ length ids ≤ n ∧ laid_out queueName db1
    ∧ ids ⊆ list_at (listKey queueName from) db
    ∧ (∀ jobId, plain_id jobId → db1 !! jobKey queueName jobId = db !! jobKey queueName jobId)
    ∧ (if decide (from = RUNNING)
       then let l := list_at (listKey queueName RUNNING) db in
            ids = take n (around (S n) l)
            ∧ list_at (listKey queueName RUNNING) db1
              = take (length l) (drop n (around (S n) l))
       else ids = take n (list_at (listKey queueName from) db)
            ∧ list_at (listKey queueName from) db1
              = drop n (list_at (listKey queueName from) db)
            ∧ list_at (listKey queueName RUNNING) db1
              = list_at (listKey queueName RUNNING) db ++ ids))
    as (db1 & ids & -> & Hlen & Hdb1 & Hsub & Hrec & Hlists).
  { case_decide as Hfrom.
    - subst from.
      destruct (getJobs_pop_rotate queueName n db Hdb Hne)
        as (db1 & ids & Hpop & Hids & Hturned & Hlen & Hsub & Hperm & Hdb1 & Hother).
      exists db1, ids. split_and!; try done.
      intros jobId Hid. by apply Hother, plain_id_keys.
    - destruct (getJobs_pop_take queueName from n db Hfrom Hdb)
        as (db1 & Hpop & Hf & Hr & Hdb1 & Hother).
      { intros Hin. apply Hne. by eapply subseteq_take. }
      eexists db1, _. split_and!; try done.
      + rewrite length_take. lia.
      + apply subseteq_take.
      + intros jobId Hid. by apply Hother; apply plain_id_keys. }
  assert (Forall plain_id ids) as Hids.
  { apply Forall_forall. intros x Hx. rewrite Forall_forall in Hplain. by apply Hplain, Hsub. }
  assert (job_of queueName db1 <$> ids = job_of queueName db <$> ids) as Hjobs.
  { apply list_fmap_ext. intros i x Hx. apply job_of_ext, Hrec.
    rewrite Forall_forall in Hids. apply Hids. by eapply list_elem_of_lookup_2. }
  destruct ids as [|x ids].
  { exists []. cbn [fst snd]. split_and!; try done. by intros ? ?%elem_of_nil. }
  destruct (getJobs_pipelines queueName (x :: ids) db1 Hdb1 Hids)
    as (db3 & Hrun & Hdb3 & Hsame & Hstatus & _).
  change (λ jobId, HMGET (colon (getQueuifyKey queueName [RUNS]) jobId) [JOB_ID; DATA])
    with (λ jobId, HMGET (jobKey queueName jobId) [JOB_ID; DATA]).
  change (λ jobId, HSET (colon (getQueuifyKey queueName [RUNS]) jobId)
                     [(STATUS, status_str RUNNING)])
    with (λ jobId, HSET (jobKey queueName jobId) [(STATUS, status_str RUNNING)]).
  cbn zeta in Hrun. rewrite Hrun. exists (x :: ids). cbn [fst snd].
  split_and!; try done; [by rewrite Hjobs|].
  rewrite !(list_at_ext _ db1 db3) by apply Hsame. done.
Qed.

Lemma job_of_laid_out queueName db db' jobId :
  laid_out queueName db → laid_out queueName db' →
  (∀ x, plain_id x → db' !! jobKey queueName x = db !! jobKey queueName x) →
  job_of queueName db' jobId = job_of queueName db jobId.
Proof.
  intros Hdb Hdb' Hsame.
  destruct (plain_id_or jobId) as [Hplain|[s ->]].
  - by apply job_of_ext, Hsame.
  - unfold job_of. change (jobKey queueName (status_str s)) with (listKey queueName s).
    by rewrite !laid_out_list.
Qed.

(** [getJobs] from a list other than the RUNNING one, in full. *)
Lemma getJobs_take queueName from n db :
  from ≠ RUNNING → laid_out queueName db →
  Forall plain_id (take n (list_at (listKey queueName from) db)) →
  "" ∉ take n (list_at (listKey queueName from) db) →
  ∃ db',
    getJobs queueName from n db
    = (db', Resolved (job_of queueName db <$> take n (list_at (listKey queueName from) db)))
    ∧ list_at (listKey queueName from) db' = drop n (list_at (listKey queueName from) db)
    ∧ list_at (listKey queueName RUNNING) db'
      = list_at (listKey queueName RUNNING) db ++ take n (list_at (listKey queueName from) db)
    ∧ laid_out queueName db'
    ∧ (∀ jobId, job_of queueName db' jobId = job_of queueName db jobId)
    ∧ (∀ s, s ≠ from → s ≠ RUNNING →
            list_at (listKey queueName s) db' = list_at (listKey queueName s) db).
Proof.
  intros Hfrom Hdb Hplain Hne. unfold getJobs. rewrite getQueuifyKey_status.
  change (colon (getQueuifyKey queueName [RUNS]) (status_str RUNNING))
    with (listKey queueName RUNNING).
  destruct (getJobs_pop_take queueName from n db Hfrom Hdb Hne)
    as (db1 & -> & Hf & Hr & Hdb1 & Hother).
  assert (∀ jobId, job_of queueName db1 jobId = job_of queueName db jobId) as Hjob1.
  { intros jobId. apply job_of_laid_out; [done..|].
    intros x Hx. by apply Hother; apply plain_id_keys. }
  assert (∀ s, s ≠ from → s ≠ RUNNING →
            list_at (listKey queueName s) db1 = list_at (listKey queueName s) db) as Hs1.
  { intros s ? ?. apply list_at_ext, Hother; by intros ?%(inj _). }
  destruct (take n (list_at (listKey queueName from) db)) as [|x ids] eqn:Hids.
  { by exists db1. }
  destruct (getJobs_pipelines queueName (x :: ids) db1 Hdb1 Hplain)
    as (db3 & Hrun & Hdb3 & Hsame & Hstatus & Hjob3).
  change (λ jobId, HMGET (colon (getQueuifyKey queueName [RUNS]) jobId) [JOB_ID; DATA])
    with (λ jobId, HMGET (jobKey queueName jobId) [JOB_ID; DATA]).
  change (λ jobId, HSET (colon (getQueuifyKey queueName [RUNS]) jobId)
                     [(STATUS, status_str RUNNING)])
    with (λ jobId, HSET (jobKey queueName jobId) [(STATUS, status_str RUNNING)]).
  cbn zeta in Hrun. rewrite Hrun. exists db3.
  rewrite !(list_at_ext _ db1 db3) by apply Hsame.
  split_and!; try done.
  - f_equal. f_equal. apply list_fmap_ext. intros i y _. apply Hjob1.
  - intros jobId. by rewrite Hjob3.
  - intros s ? ?. rewrite (list_at_ext _ db1 db3) by apply Hsame. by apply Hs1.
Qed.

End getJobs.

Section moveJobsBetweenLists.
Context `{Helpers}.
Import DBActions.
Implicit Types (db : store).

(** The pipeline of [moveJobsBetweenLists] between two lists, run on a
    source list that starts with the ids the pipeline was built from. *)
Lemma exec_move queueName from to ids rest db :
  from ≠ to → laid_out queueName db → Forall plain_id ids →
  list_at (listKey queueName from) db = ids ++ rest →
  let db' :=
    (exec (ids ≫= (λ jobId,
             [ LMOVE (listKey queueName from) (listKey queueName to) LEFT RIGHT;
               HSET (jobKey queueName jobId) [(STATUS, status_str to)] ])) db).1 in
  laid_out queueName db'
  ∧ list_at (listKey queueName from) db' = rest
  ∧ list_at (listKey queueName to) db' = list_at (listKey queueName to) db ++ ids
  ∧ (∀ jobId, jobId ∈ ids → has_status queueName jobId to db')
  ∧ (∀ jobId, has_status queueName jobId to db → has_status queueName jobId to db')
  ∧ (∀ jobId, job_of queueName db' jobId = job_of queueName db jobId)
  ∧ (∀ s, s ≠ from → s ≠ to →
          list_at (listKey queueName s) db' = list_at (listKey queueName s) db).
Proof.
  intros Hft Hdb Hids. revert db Hdb.
  assert (listKey queueName from ≠ listKey queueName to) as Hkeys
    by (by intros ?%(inj _)).
  induction Hids as [|x ids Hx Hids IH]; intros db Hdb Hl.
  { cbn. rewrite app_nil_r. split_and!; try done. by intros ? ?%elem_of_nil. }
  rewrite bind_cons. cbn [app exec].
  rewrite (run_LMOVE_cons _ _ x (ids ++ rest)) by (done || by apply laid_out_list).
  set (db0 := set_list (listKey queueName from) (ids ++ rest) db).
  set (db1 := <[listKey queueName to := _]> db0).
  assert (laid_out queueName db1) as Hdb1
    by by apply laid_out_insert_list, laid_out_set_list.
  destruct (run_HSET (jobKey queueName x) [(STATUS, status_str to)] db1) as [n ->];
    [intros l; by apply laid_out_record|].
  set (h0 := foldl hash_set _ _).
  set (db2 := <[jobKey queueName x := RHash h0]> db1).
  assert (laid_out queueName db2) as Hdb2 by by apply laid_out_insert_hash.
  assert (∀ s, list_at (listKey queueName s) db2 = list_at (listKey queueName s) db1) as H21.
  { intros s. subst db2. apply list_at_insert_ne. by apply plain_id_keys. }
  assert (list_at (listKey queueName from) db1 = ids ++ rest) as Hf1.
  { subst db1 db0. rewrite list_at_insert_ne by done. apply list_at_set_list. }
  assert (list_at (listKey queueName to) db1 = list_at (listKey queueName to) db ++ [x])
    as Ht1.
  { subst db1 db0. rewrite list_at_insert. by rewrite list_at_set_list_ne. }
  destruct (IH db2 Hdb2) as (Hl' & Hf & Ht & Hset & Hkeep & Hjob & Hs);
    [by rewrite H21|].
  destruct (exec _ db2) as [db3 rs] eqn:E. cbn [fst] in *.
  assert (∀ jobId, job_of queueName db2 jobId = job_of queueName db jobId) as Hjob2.
  { intros jobId. subst db2. subst h0. rewrite job_of_insert_status.
    apply job_of_laid_out; [done..|]. intros y Hy. subst db1 db0.
    rewrite lookup_insert_ne by (symmetry; by apply plain_id_keys).
    apply lookup_set_list_ne. symmetry. by apply plain_id_keys. }
  assert (has_status queueName x to db2) as Hx2.
  { exists h0. split; [apply hash_at_insert|done]. }
  split_and!; try done.
  - rewrite Ht, H21, Ht1. by rewrite <- app_assoc.
  - intros jobId [->|Hin]%elem_of_cons; [by apply Hkeep|by apply Hset].
  - intros jobId (h & Hh & Hv). apply Hkeep.
    destruct (decide (x = jobId)) as [->|Hne]; [done|].
    exists h. split; [|done]. subst db2. rewrite hash_at_insert_ne by by intros ?%(inj _).
    subst db1. rewrite hash_at_insert_list.
    + subst db0. by rewrite hash_at_set_list by by apply laid_out_list.
    + by apply laid_out_list, laid_out_set_list.
  - intros jobId. by rewrite Hjob.
  - intros s Hsf Hst. rewrite Hs, H21 by done. subst db1 db0.
    rewrite list_at_insert_ne by by intros ?%(inj _).
    apply list_at_set_list_ne. by intros ?%(inj _).
Qed.

(** The same pipeline from a list to itself: the ids go from the head of
    the list to its tail. *)
Lemma exec_move_same queueName st ids rest db :
  laid_out queueName db → Forall plain_id ids →
  list_at (listKey queueName st) db = ids ++ rest →
  let db' :=
    (exec (ids ≫= (λ jobId,
             [ LMOVE (listKey queueName st) (listKey queueName st) LEFT RIGHT;
               HSET (jobKey queueName jobId) [(STATUS, status_str st)] ])) db).1 in
  laid_out queueName db'
  ∧ list_at (listKey queueName st) db' = rest ++ ids
  ∧ (∀ jobId, jobId ∈ ids → has_status queueName jobId st db')
  ∧ (∀ jobId, has_status queueName jobId st db → has_status queueName jobId st db').
Proof.
  intros Hdb Hids. revert rest db Hdb.
  induction Hids as [|x ids Hx Hids IH]; intros rest db Hdb Hl.
  { cbn. rewrite app_nil_r. split_and!; try done. by intros ? ?%elem_of_nil. }
  rewrite bind_cons. cbn [app exec].
  rewrite (run_LMOVE_cons _ _ x (ids ++ rest)) by (done || by apply laid_out_list).
  rewrite list_at_set_list.
  set (db0 := set_list (listKey queueName st) (ids ++ rest) db).
  set (db1 := <[listKey queueName st := _]> db0).
  assert (laid_out queueName db1) as Hdb1
    by by apply laid_out_insert_list, laid_out_set_list.
  destruct (run_HSET (jobKey queueName x) [(STATUS, status_str st)] db1) as [n ->];
    [intros l; by apply laid_out_record|].
  set (h0 := foldl hash_set _ _).
  set (db2 := <[jobKey queueName x := RHash h0]> db1).
  assert (laid_out queueName db2) as Hdb2 by by apply laid_out_insert_hash.
  assert (list_at (listKey queueName st) db2 = ids ++ (rest ++ [x])) as Hl2.
  { subst db2. rewrite list_at_insert_ne by by apply plain_id_keys.
    subst db1. rewrite list_at_insert. by rewrite <- app_assoc. }
  destruct (IH (rest ++ [x]) db2 Hdb2 Hl2) as (Hl' & Hf & Hset & Hkeep).
  destruct (exec _ db2) as [db3 rs] eqn:E. cbn [fst] in *.
  assert (has_status queueName x st db2) as Hx2.
  { exists h0. split; [apply hash_at_insert|done]. }
  split_and!; try done.
  - rewrite Hf. by rewrite <- app_assoc.
  - intros jobId [->|Hin]%elem_of_cons; [by apply Hkeep|by apply Hset].
  - intros jobId (h & Hh & Hv). apply Hkeep.
    destruct (decide (x = jobId)) as [->|Hne]; [done|].
    exists h. split; [|done]. subst db2. rewrite hash_at_insert_ne by by intros ?%(inj _).
    subst db1. rewrite hash_at_insert_list.
    + subst db0. by rewrite hash_at_set_list by by apply laid_out_list.
    + by apply laid_out_list, laid_out_set_list.
Qed.

Lemma run_LRANGE_ALL key db :
  hash_at key db = None →
  run (LRANGE_ALL key) db = (db, Ok (VArray (Some <$> list_at key db))).
Proof. unfold hash_at, list_at. cbn. by destruct (db !! key) as [[h|l]|]. Qed.

Lemma bulk_strings_Some l : bulk_strings (Some <$> l) = l.
Proof. unfold bulk_strings. rewrite <- list_fmap_compose. apply list_fmap_id. Qed.

Lemma moveJobsBetweenLists_ok queueName from to db :
  laid_out queueName db →
  moveJobsBetweenLists queueName from to db
  = ((exec (list_at (listKey queueName from) db ≫= (λ jobId,
              [ LMOVE (listKey queueName from) (listKey queueName to) LEFT RIGHT;
                HSET (jobKey queueName jobId) [(STATUS, status_str to)] ])) db).1,
     Resolved (list_at (listKey queueName from) db)).
Proof.
  intros Hdb. unfold moveJobsBetweenLists.
  change (colon (getQueuifyKey queueName [RUNS]) (status_str from))
    with (listKey queueName from).
  rewrite run_LRANGE_ALL by by apply laid_out_list. by rewrite bulk_strings_Some.
Qed.

(** Fetching one by one from a list other than the RUNNING one returns its
    jobs in the order of the list. *)
Lemma fetches_in_order queueName from db :
  from ≠ RUNNING → laid_out queueName db →
  Forall plain_id (list_at (listKey queueName from) db) →
  "" ∉ list_at (listKey queueName from) db →
  fetches queueName from (length (list_at (listKey queueName from) db)) db
  = (λ jobId, Resolved [job_of queueName db jobId]) <$> list_at (listKey queueName from) db.
Proof.
  intros Hfrom.
  remember (list_at (listKey queueName from) db) as l eqn:Hl.
  revert db Hl. induction l as [|x l IH]; intros db Hl Hdb Hplain Hne; [done|].
  cbn [length fetches]. unfold default_limit.
  destruct (getJobs_take queueName from 1 db Hfrom Hdb)
    as (db' & -> & Hf & _ & Hdb' & Hjob & _).
  { rewrite <- Hl. cbn. apply Forall_cons in Hplain as [? _]. by apply Forall_singleton. }
  { rewrite <- Hl. cbn. apply not_elem_of_cons in Hne as [? _].
    by apply not_elem_of_cons; split; [|apply not_elem_of_nil]. }
  rewrite <- Hl in *. cbn [take drop fmap list_fmap] in *. f_equal.
  apply Forall_cons in Hplain as [_ Hplain]. apply not_elem_of_cons in Hne as [_ Hne].
  rewrite (IH db') by done. apply list_fmap_ext. intros i y _. by rewrite Hjob.
Qed.

Lemma moved_all_laid_out queueName from to db :
  from ≠ to → laid_out queueName db →
  Forall plain_id (list_at (listKey queueName from) db) →
  moved_all queueName from to db (moveJobsBetweenLists queueName from to db).
Proof.
  intros Hft Hdb Hplain. unfold moved_all.
  rewrite moveJobsBetweenLists_ok by done. cbn [fst snd]. rewrite decide_False by done.
  destruct (exec_move queueName from to _ [] db Hft Hdb Hplain)
    as (_ & Hf & Ht & Hset & _); [by rewrite app_nil_r|].
  split_and!; done.
Qed.

(** C2, as amended: on a queue laid out as the spec has it, whose list of
    [from] holds ids that no status is written as, [moveJobsBetweenLists]
    moves every id of the list of [from] to the tail of the list of [to] in
    the order of the list, sets the status field of each to [to], and
    resolves with the ids; and when the ids on the RUNNING list are
    moreover not empty and the STALLED list is empty, the first [N] fetches
    from STALLED after the move of the [N] RUNNING jobs return those jobs in
    the order of the RUNNING list. *)
Theorem moveJobsBetweenLists_moved queueName from to db :
  laid_out queueName db →
  Forall plain_id (list_at (listKey queueName from) db) →
  moved_all queueName from to db (moveJobsBetweenLists queueName from to db)
  ∧ (Forall plain_id (list_at (listKey queueName RUNNING) db) →
     "" ∉ list_at (listKey queueName RUNNING) db →
     recovered_first queueName db).
Proof.
  intros Hdb Hplain. split.
  - unfold moved_all. rewrite moveJobsBetweenLists_ok by done. cbn [fst snd].
    case_decide as Hft.
    + subst to.
      destruct (exec_move_same queueName from _ [] db Hdb Hplain) as (_ & Hl & Hset & _);
        [by rewrite app_nil_r|].
      split_and!; done.
    + destruct (exec_move queueName from to _ [] db Hft Hdb Hplain)
        as (_ & Hf & Ht & Hset & _); [by rewrite app_nil_r|].
      split_and!; done.
  - intros HplainR HneR Hstalled. rewrite moveJobsBetweenLists_ok by done. cbn [fst].
    destruct (exec_move queueName RUNNING STALLED
                (list_at (listKey queueName RUNNING) db) [] db)
      as (Hdb' & _ & Ht & _ & _ & Hjob & _); [done..|by rewrite app_nil_r|].
    rewrite Hstalled in Ht. cbn [app] in Ht.
    set (db' := (exec _ db).1) in *.
    rewrite <- Ht. rewrite fetches_in_order; [|done|done|by rewrite Ht..].
    rewrite Ht. apply list_fmap_ext. intros i y _. by rewrite Hjob.
Qed.

End moveJobsBetweenLists.

Section addJob_layout.
Context `{Helpers}.
Import DBActions.

(** Enqueuing an id that no status is written as, with the script as it is
    written, keeps the layout. *)
Lemma addJob_laid_out queueName jobId data (db : store) :
  as_written queueName jobId → laid_out queueName db → plain_id jobId →
  laid_out queueName (addJob queueName jobId data db).1.
Proof.
  intros Hscript Hdb Hid. destruct (db !! jobKey queueName jobId) as [v|] eqn:Hk.
  - by rewrite addJob_exists by (done || eauto).
  - rewrite addJob_new by (done || by apply laid_out_list). cbn [fst].
    by apply laid_out_insert_list, laid_out_insert_hash.
Qed.

End addJob_layout.

Section persistence_examples.
Import DBActions.
#[local] Existing Instance demo.

Lemma demo_plain_a : plain_id "a".
Proof. intros []; discriminate. Qed.

Lemma demo_plain_b : plain_id "b".
Proof. intros []; discriminate. Qed.

Lemma demo_plain_empty : plain_id "".
Proof. intros []; discriminate. Qed.

(** A queue with the jobs [a] and [b] in RUNNING, fetched in this order. *)
Definition crashed : store :=
  <[listKey "mail" RUNNING := RList ["a"; "b"]]>
    (<[jobKey "mail" "a" :=
         RHash (Hash (Some "a") (Some "x") (Some (status_str RUNNING)) None)]>
       (<[jobKey "mail" "b" :=
            RHash (Hash (Some "b") (Some "y") (Some (status_str RUNNING)) None)]> ∅)).

Lemma crashed_laid_out : laid_out "mail" crashed.
Proof.
  apply laid_out_insert_list.
  apply laid_out_insert_hash; [|apply demo_plain_a].
  apply laid_out_insert_hash; [|apply demo_plain_b].
  apply laid_out_empty.
Qed.

Lemma crashed_plain : Forall plain_id (list_at (listKey "mail" RUNNING) crashed).
Proof.
  vm_compute list_at. repeat constructor; [apply demo_plain_a | apply demo_plain_b].
Qed.

Lemma moveJobsBetweenLists_moved_witness :
  moved_all "mail" RUNNING STALLED crashed
    (moveJobsBetweenLists "mail" RUNNING STALLED crashed)
  ∧ recovered_first "mail" crashed.
Proof.
  destruct (moveJobsBetweenLists_moved "mail" RUNNING STALLED crashed
              crashed_laid_out crashed_plain) as [Hmoved Hfirst].
  split; [exact Hmoved|]. apply Hfirst; [exact crashed_plain|].
  vm_compute list_at. intros Hin. by repeat (apply elem_of_cons in Hin as [?|Hin]);
    try by apply elem_of_nil in Hin.
Defined.

Example crashed_recovered :
  fetches "mail" STALLED 2 (moveJobsBetweenLists "mail" RUNNING STALLED crashed).1
  = [Resolved [Job (Some "a") "x"]; Resolved [Job (Some "b") "y"]].
Proof. vm_compute. reflexivity. Qed.

(** A job whose id is the name of the STALLED status, enqueued and fetched
    on a new queue: its record is at the key of the STALLED list. *)
Definition stalled_named : store :=
  (getJobs "mail" PENDING 1 (addJob "mail" "stalled" "x" ∅).1).1.

Example stalled_named_running :
  list_at (listKey "mail" RUNNING) stalled_named = ["stalled"].
Proof. vm_compute. reflexivity. Qed.

(** C2 fails on it: the move is refused, the id stays on the RUNNING list,
    and the call resolves with the id all the same. *)
Lemma moveJobsBetweenLists_status_name :
  ¬ moved_all "mail" RUNNING STALLED stalled_named
      (moveJobsBetweenLists "mail" RUNNING STALLED stalled_named).
Proof.
  intros (_ & _ & _ & Hfrom). specialize (Hfrom ltac:(done)).
  vm_compute in Hfrom. discriminate.
Qed.

Example moveJobsBetweenLists_status_name_result :
  (moveJobsBetweenLists "mail" RUNNING STALLED stalled_named).2 = Resolved ["stalled"]
  ∧ list_at (listKey "mail" RUNNING)
      (moveJobsBetweenLists "mail" RUNNING STALLED stalled_named).1 = ["stalled"]
  ∧ list_at (listKey "mail" STALLED)
      (moveJobsBetweenLists "mail" RUNNING STALLED stalled_named).1 = [].
Proof. vm_compute. done. Qed.

(** A queue with the jobs [a] and [b] enqueued in this order. *)
Definition queued : store :=
  (addJob "mail" "b" "y" (addJob "mail" "a" "x" ∅).1).1.

Lemma queued_laid_out : laid_out "mail" queued.
Proof.
  apply addJob_laid_out; [reflexivity| |apply demo_plain_b].
  apply addJob_laid_out; [reflexivity| |apply demo_plain_a].
  apply laid_out_empty.
Qed.

Lemma getJobs_fetched_witness :
  fetched "mail" PENDING 1 queued (getJobs "mail" PENDING 1 queued).
Proof.
  apply (getJobs_fetched "mail" PENDING 1 queued queued_laid_out).
  - vm_compute list_at. repeat constructor; [apply demo_plain_b | apply demo_plain_a].
  - vm_compute list_at. intros Hin.
    by repeat (apply elem_of_cons in Hin as [?|Hin]); try by apply elem_of_nil in Hin.
Defined.

Example crashed_turned :
  (getJobs "mail" RUNNING 3 crashed).2
  = Resolved [Job (Some "a") "x"; Job (Some "b") "y"; Job (Some "a") "x"]
  ∧ list_at (listKey "mail" RUNNING) (getJobs "mail" RUNNING 3 crashed).1 = ["b"; "a"].
Proof. vm_compute. done. Qed.

Example queued_fetch :
  (getJobs "mail" PENDING 1 queued).2 = Resolved [Job (Some "b") "y"].
Proof. vm_compute. reflexivity. Qed.

(** A queue with one job enqueued, whose id is the empty string. *)
Definition unnamed : store := (addJob "mail" "" "x" ∅).1.

Example unnamed_pending :
  (addJob "mail" "" "x" ∅).2 = Resolved ()
  ∧ list_at (listKey "mail" PENDING) unnamed = [""].
Proof. vm_compute. done. Qed.

(** On it the id is popped and moved onto the RUNNING list, and the call
    resolves with no job: the loop takes the empty id for the answer of an
    empty list. *)
Lemma getJobs_empty_id :
  ¬ fetched "mail" PENDING 1 unnamed (getJobs "mail" PENDING 1 unnamed).
Proof.
  intros [(ids & _ & Hjobs & _ & Hmoved) _].
  rewrite decide_False in Hmoved by done. destruct Hmoved as (-> & _).
  vm_compute in Hjobs. discriminate.
Qed.

Example getJobs_empty_id_result :
  (getJobs "mail" PENDING 1 unnamed).2 = Resolved []
  ∧ list_at (listKey "mail" RUNNING) (getJobs "mail" PENDING 1 unnamed).1 = [""]
  ∧ list_at (listKey "mail" PENDING) (getJobs "mail" PENDING 1 unnamed).1 = []
  ∧ hash_at (jobKey "mail" "") (getJobs "mail" PENDING 1 unnamed).1
    = Some (Hash (Some "") (Some "x") (Some "pending") None).
Proof. vm_compute. done. Qed.

(** A job whose id is the name of the RUNNING status, enqueued on a new
    queue: its record is at the key of the RUNNING list. *)
Definition running_named : store := (addJob "mail" "running" "x" ∅).1.

Example running_named_pending :
  (addJob "mail" "running" "x" ∅).2 = Resolved ()
  ∧ list_at (listKey "mail" PENDING) running_named = ["running"]
  ∧ hash_at (listKey "mail" RUNNING) running_named
    = Some (Hash (Some "running") (Some "x") (Some "pending") None).
Proof. vm_compute. done. Qed.

(** C4 fails on it: the move of the id onto the RUNNING list is refused,
    the call rejects, and the job stays PENDING, to be refused again by
    every later fetch. *)
Lemma getJobs_status_name :
  ¬ fetched "mail" PENDING 1 running_named (getJobs "mail" PENDING 1 running_named).
Proof.
  intros [(ids & _ & Hjobs & _) _]. vm_compute in Hjobs. discriminate.
Qed.

Example getJobs_status_name_result :
  getJobs "mail" PENDING 1 running_named = (running_named, Rejected ReplyError).
Proof. vm_compute. reflexivity. Qed.

Lemma terminal_no_precondition_witness : settles_any "mail" "a" queued.
Proof.
  apply (terminal_no_precondition "mail" "a" queued queued_laid_out demo_plain_a).
Defined.

(** C9 fails for the id that is the name of the COMPLETED status: the
    record is written at the key of the COMPLETED list and the push is
    refused. *)
Lemma completeJob_status_name : ¬ settles_any "mail" "completed" ∅.
Proof.
  intros [(_ & _ & _ & Hlist) _]. vm_compute in Hlist. discriminate.
Qed.

Example completeJob_status_name_result :
  list_at (listKey "mail" COMPLETED)
    (completeJob "mail" (Some "completed")
       (completeJob "mail" (Some "completed") ∅).1).1 = [].
Proof. vm_compute. reflexivity. Qed.

End persistence_examples.

(** * Properties of the engine *)

Section start.
Context `{Helpers}.
Import Engine.

Lemma emit_no_handler queueName e payload (st : state) :
  emit queueName e payload (λ st, st) st = logs (Emit queueName e payload) st.
Proof.
  unfold emit. generalize (registered queueName e (logs (Emit queueName e payload) st)).
  intros n. induction n as [|n IH]; [done|]. cbn. apply IH.
Qed.

(** C6: [start] (the registration of a queue) fails with the error of a
    missing store when the queue has no connection, and with
    [ALREADY_EXISTS] when it has one and the name is taken; either way it
    throws to its caller and the state, the map of queues included, is as
    before.  Otherwise the runtime state of the queue is created under its
    name: no worker, no idle worker, stalled recovery not complete. *)
Theorem start_registers (q : tQueue) (st : state) :
  match db q, queues st !! name q with
  | None, _ => start q st = (st, Rejected QueueDbRequired)
  | Some _, Some _ => start q st = (st, Rejected (ALREADY_EXISTS (name q)))
  | Some conn, None =>
      (start q st).2 = Resolved ()
      ∧ queues (start q st).1 = <[name q := QueueMapValue q conn [] "" false]> (queues st)
  end.
Proof.
  unfold start. destruct (db q) as [conn|]; [|done].
  destruct (queues st !! name q) as [existing|]; [done|].
  cbn [checkExisting fst snd]. split; [done|]. by rewrite emit_no_handler.
Qed.

End start.

Section handlers.
Context `{Helpers}.
Import Engine.

Lemma iter_invariant {A} (P : A → Prop) (f : A → A) n a :
  (∀ a, P a → P (f a)) → P a → P (Nat.iter n f a).
Proof. intros Hf Ha. induction n as [|n IH]; [done|]. cbn. by apply Hf. Qed.

(** An invariant of the handler and of the log is an invariant of [emit]. *)
Lemma emit_invariant (P : state → Prop) queueName e payload handler st :
  (∀ st, P st → P (handler st)) →
  P (logs (Emit queueName e payload) st) →
  P (emit queueName e payload handler st).
Proof. intros Hh Hl. unfold emit. by apply iter_invariant. Qed.

Lemma servers_onJobsRequest queueName workerId st :
  servers (onJobsRequest queueName workerId st) = servers st.
Proof.
  unfold onJobsRequest. destruct (queues st !! queueName) as [queue|]; [|done].
  destruct (map_get workerId (workers queue)); [|done]. by destruct (negb _).
Qed.

Lemma servers_onFinish queueName workerId batch st :
  servers (onFinish queueName workerId batch st) = servers st.
Proof.
  unfold onFinish. destruct (_ - 1)%Z; try done. cbn [queues set_remainingJobs].
  destruct (queues st !! queueName) as [queue|]; [|done].
  destruct (map_get workerId (workers queue)); [|done].
  apply (emit_invariant (λ st', servers st' = servers st)); [|done].
  intros st' Hst'. by rewrite servers_onJobsRequest.
Qed.

Lemma servers_on_server {A} conn (call : store → store * result A) st :
  servers (on_server conn call st).1 !!! conn = (call (servers st !!! conn)).1.
Proof.
  unfold on_server. destruct (call _) as [redis r]. cbn. by rewrite lookup_total_insert_eq.
Qed.

Lemma servers_onFailed queueName jobId errorMessage queue st :
  queues st !! queueName = Some queue →
  servers (onFailed queueName jobId errorMessage st) !!! dbActions queue
  = (DBActions.failJob queueName jobId errorMessage (servers st !!! dbActions queue)).1.
Proof.
  intros Hq. unfold onFailed. rewrite Hq. rewrite emit_no_handler. cbn [servers logs].
  by rewrite servers_on_server.
Qed.

(** The tasks of a batch of a local worker: one per job, settling as the
    routine does on the job. *)
Lemma dispatch_local queueName workerId batch w f job :
  worker w = WorkerFunction f → isSandbox (config w) = false → job ∈ jobs w →
  AwaitRoutine queueName workerId batch job (f job) ∈ dispatch queueName workerId batch w.
Proof.
  intros Hw Hs Hjob. unfold dispatch. rewrite Hs, Hw. cbn.
  apply (list_elem_of_fmap_2 (λ job, AwaitRoutine queueName workerId batch job (f job))).
  by apply elem_of_reverse.
Qed.

(** C7, as amended: a job dispatched to a local worker is started with the
    worker's routine, and when the routine throws an error with a message,
    for a job whose id no status is written as, on a server laid out as the
    spec has it, the job ends with the status FAILED and the message as its
    failure reason: [failJob] sets both, removes the id from the RUNNING
    list and pushes it onto the FAILED list. *)
Theorem routine_failure_recorded i queueName workerId batch job jobId message queue st :
  tasks st !! i = Some (AwaitRoutine queueName workerId batch job (Rejects (Some message))) →
  id job = Some jobId →
  queues st !! queueName = Some queue →
  laid_out queueName (servers st !!! dbActions queue) →
  plain_id jobId →
  failure_recorded i queueName jobId message st
  ∧ (∀ w f, worker w = WorkerFunction f → isSandbox (config w) = false → job ∈ jobs w →
            f job = Rejects (Some message) →
            AwaitRoutine queueName workerId batch job (Rejects (Some message))
            ∈ dispatch queueName workerId batch w).
Proof.
  intros Hi Hid Hq Hdb Hplain. split.
  - exists workerId, batch, job, queue. split_and!; try done.
    cbn [step]. rewrite Hi. unfold settle_routine.
    rewrite servers_onFinish, Hid.
    rewrite (servers_onFailed _ _ _ queue) by done. cbn [servers set_tasks].
    destruct (failJob_settled queueName jobId (Some message) _ Hdb Hplain)
      as ((_ & Hs & HR & HF) & Hreason & _).
    by split_and!.
  - intros w f Hw Hs Hjob <-. by apply dispatch_local.
Qed.

End handlers.

Section engine_examples.
Import DBActions Engine.
#[local] Existing Instance demo.

Definition mail : tQueue := Queue "mail" (Some 0).
Definition local : tWorkerConfig := WorkerConfig None None.
Definition succeeds : tWorker := WorkerFunction (λ _, Fulfils).
Definition throws_boom : tWorker := WorkerFunction (λ _, Rejects (Some "boom")).

(** A job is enqueued, a local worker whose routine throws [boom] is
    registered, and the job is fetched and started. *)
Definition boom_started (jobId : string) : state :=
  steps [ Start mail; Enqueue "mail" jobId "x"; Register "mail" "w1" throws_boom local;
          Resume 0 ] initial.

Example boom_started_tasks :
  tasks (boom_started "a")
  = [AwaitRoutine "mail" "w1" 1 (Job (Some "a") "x") (Rejects (Some "boom"))].
Proof. vm_compute. reflexivity. Qed.

Lemma boom_started_laid_out : laid_out "mail" (servers (boom_started "a") !!! 0).
Proof.
  assert (servers (boom_started "a") !!! 0
          = <[listKey "mail" RUNNING := RList ["a"]]>
              (<[jobKey "mail" "a" :=
                   RHash (Hash (Some "a") (Some "x") (Some (status_str RUNNING)) None)]> ∅))
    as -> by (vm_compute; reflexivity).
  apply laid_out_insert_list, laid_out_insert_hash; [apply laid_out_empty|].
  apply demo_plain_a.
Qed.

Lemma routine_failure_recorded_witness :
  failure_recorded 0 "mail" "a" "boom" (boom_started "a").
Proof.
  refine (proj1 (routine_failure_recorded 0 "mail" "w1" 1 (Job (Some "a") "x") "a" "boom"
                   (QueueMapValue mail 0
                      [("w1", WorkerData throws_boom [] BUSY local)] "" true)
                   (boom_started "a") _ _ _ _ _)).
  - vm_compute. reflexivity.
  - reflexivity.
  - vm_compute. reflexivity.
  - exact boom_started_laid_out.
  - exact demo_plain_a.
Defined.

Example boom_recorded :
  let redis := servers (step (Resume 0) (boom_started "a")) !!! 0 in
  hash_at (jobKey "mail" "a") redis
  = Some (Hash (Some "a") (Some "x") (Some "failed") (Some "boom"))
  ∧ list_at (listKey "mail" RUNNING) redis = []
  ∧ list_at (listKey "mail" FAILED) redis = ["a"].
Proof. vm_compute. done. Qed.

(** C7 fails for the job whose id is the name of the FAILED status: the
    record of the job is at the key of the FAILED list, and the push is
    refused. *)
Lemma routine_failure_status_name :
  ¬ failure_recorded 0 "mail" "failed" "boom" (boom_started "failed").
Proof.
  intros (workerId & batch & job & queue & Htask & Hid & Hqueue & Hfailed).
  vm_compute in Hqueue. injection Hqueue as <-.
  destruct Hfailed as (_ & _ & _ & Hlist). vm_compute in Hlist. discriminate.
Qed.

Example boom_status_name :
  let redis := servers (step (Resume 0) (boom_started "failed")) !!! 0 in
  hash_at (jobKey "mail" "failed") redis
  = Some (Hash (Some "failed") (Some "x") (Some "failed") (Some "boom"))
  ∧ list_at (listKey "mail" RUNNING) redis = []
  ∧ list_at (listKey "mail" FAILED) redis = [].
Proof. vm_compute. done. Qed.

(** One worker and one job; the job is fetched and completed, and the
    worker is idle again and known as the idle worker of the queue.  Two
    more jobs are then enqueued one after the other: each enqueue sends a
    pool request to the idle worker, and each request fetches a job and
    starts a batch of its own. *)
Definition overlapping : list action :=
  [ Start mail; Enqueue "mail" "A" "x"; Register "mail" "w1" succeeds local;
    Resume 0; Resume 0; Resume 0;
    Enqueue "mail" "B" "x"; Enqueue "mail" "C" "x";
    Resume 0; Resume 0 ].

Example overlapping_batches :
  tasks (steps overlapping initial)
  = [ AwaitRoutine "mail" "w1" 2 (Job (Some "C") "x") Fulfils;
      AwaitRoutine "mail" "w1" 3 (Job (Some "B") "x") Fulfils ]
  ∧ map_to_list (remainingJobs (steps overlapping initial)) = [(2, 1%Z); (3, 1%Z); (1, 0%Z)].
Proof. vm_compute. done. Qed.

(** C8 on the code: when the routine of the first of the two batches
    settles, the countdown of that batch reaches zero and the worker is
    marked idle, while the routine of the other batch is still in flight. *)
Lemma idle_while_dispatched :
  let st := steps (overlapping ++ [Resume 0]) initial in
  (status <$> (queues st !! "mail" ≫= λ queue, map_get "w1" (workers queue))) = Some IDLE
  ∧ tasks st = [ AwaitRoutine "mail" "w1" 3 (Job (Some "B") "x") Fulfils;
                 AwaitJobs "mail" "w1" PENDING ]
  ∧ ¬ idle_busy st.
Proof.
  cbn zeta. split_and!; [vm_compute; reflexivity..|].
  intros Hinv.
  destruct (Hinv "mail"
              (QueueMapValue mail 0 [("w1", WorkerData succeeds [] IDLE local)] "w1" true)
              "w1" (WorkerData succeeds [] IDLE local)) as [_ Hnot];
    [vm_compute; reflexivity|reflexivity|reflexivity|].
  apply Hnot. exists 3, (Job (Some "B") "x"), Fulfils.
  assert (tasks (steps (overlapping ++ [Resume 0]) initial)
          = [ AwaitRoutine "mail" "w1" 3 (Job (Some "B") "x") Fulfils;
              AwaitJobs "mail" "w1" PENDING ]) as -> by (vm_compute; reflexivity).
  apply elem_of_cons. by left.
Qed.

(** A job with the empty id is enqueued; a worker is registered and its
    request pops the id onto the RUNNING list without getting the job.  The
    process is started again on the same servers, one more job is enqueued,
    and the first worker is registered: the empty id is moved to STALLED and
    a pool request is sent. *)
Definition restarted : state :=
  steps [ Start mail; Enqueue "mail" "b" "y"; Register "mail" "w2" succeeds local ]
    (boot (servers
             (steps [ Start mail; Enqueue "mail" "" "x";
                      Register "mail" "w1" succeeds local; Resume 0 ] initial))).

Example restarted_request :
  tasks restarted = [AwaitJobs "mail" "w2" STALLED]
  ∧ list_at (listKey "mail" STALLED) (servers restarted !!! 0) = [""]
  ∧ list_at (listKey "mail" PENDING) (servers restarted !!! 0) = ["b"]
  ∧ list_at (listKey "mail" RUNNING) (servers restarted !!! 0) = [].
Proof. vm_compute. done. Qed.

(** C10 on the code: that one pool request moves two ids onto the RUNNING
    list, the empty one from STALLED and then [b] from PENDING; the batch
    of the worker gets the one job [b]. *)
Lemma request_moves_two :
  let st := steps [Resume 0; Resume 0] restarted in
  list_at (listKey "mail" RUNNING) (servers st !!! 0) = [""; "b"]
  ∧ pool_requests "mail" (log st) = pool_requests "mail" (log restarted)
  ∧ tasks st = [AwaitRoutine "mail" "w2" 1 (Job (Some "b") "y") Fulfils].
Proof. vm_compute. done. Qed.

End engine_examples.

(** ** Stalled recovery is a single pass *)

Section one_shot.
Context `{Helpers}.
Import Engine.
Implicit Types (st : state).

Lemma filter_length_app {A} (f : A → bool) l k :
  length (List.filter f (l ++ k)) = length (List.filter f l) + length (List.filter f k).
Proof. by rewrite List.filter_app, length_app. Qed.

Lemma one_shot_logs q c e st :
  is_stalled_fetch q e = false → one_shot q c st → one_shot q c (logs e st).
Proof.
  intros He [Hf Hc]. split; [done|]. unfold stalled_fetches in *. cbn [log tasks logs].
  rewrite filter_length_app. cbn. rewrite He. cbn. lia.
Qed.

Lemma one_shot_add_task q c t st :
  is_stalled_await q t = false → one_shot q c st → one_shot q c (add_task t st).
Proof.
  intros Ht [Hf Hc]. split; [done|]. unfold stalled_fetches in *. cbn [log tasks add_task].
  rewrite filter_length_app. cbn. rewrite Ht. cbn. lia.
Qed.

Lemma one_shot_set_queue q c q' v st :
  (q' = q → isStalledJobsProcessingComplete v = true) →
  one_shot q c st → one_shot q c (set_queue q' v st).
Proof.
  intros Hv [Hf Hc]. split; [|done]. unfold flag_of in *. cbn [queues set_queue].
  destruct (decide (q' = q)) as [->|Hne].
  - rewrite lookup_insert_eq. cbn. by rewrite Hv.
  - by rewrite lookup_insert_ne.
Qed.

Lemma one_shot_set_server q c conn redis st :
  one_shot q c st → one_shot q c (set_server conn redis st).
Proof. done. Qed.

Lemma one_shot_set_remainingJobs q c batch n st :
  one_shot q c st → one_shot q c (set_remainingJobs batch n st).
Proof. done. Qed.

Lemma one_shot_add_listener q c q' e st :
  one_shot q c st → one_shot q c (add_listener q' e st).
Proof.
  intros [Hf Hc]. split; [done|]. unfold stalled_fetches in *. cbn [log tasks add_listener].
  rewrite filter_length_app. cbn. lia.
Qed.

Lemma one_shot_on_server {A} q c conn (call : store → store * result A) st :
  one_shot q c st → one_shot q c (on_server conn call st).1.
Proof. intros Hst. unfold on_server. by destruct (call _). Qed.

Lemma flag_of_lookup q st queue :
  queues st !! q = Some queue → flag_of q st = Some (isStalledJobsProcessingComplete queue).
Proof. intros Hq. unfold flag_of. by rewrite Hq. Qed.

Lemma one_shot_flag q c q' queue st :
  one_shot q c st → queues st !! q' = Some queue → q' = q →
  isStalledJobsProcessingComplete queue = true.
Proof.
  intros [Hf _] Hq ->. rewrite (flag_of_lookup _ _ _ Hq) in Hf. by injection Hf.
Qed.

Lemma one_shot_onJobsRequest q c q' w st :
  one_shot q c st → one_shot q c (onJobsRequest q' w st).
Proof.
  intros Hst. unfold onJobsRequest.
  destruct (queues st !! q') as [queue|] eqn:Hq; [|done].
  destruct (map_get w (workers queue)); [|done].
  destruct (isStalledJobsProcessingComplete queue) eqn:Hflag; cbn [negb].
  - by apply one_shot_add_task.
  - apply one_shot_add_task; [|done]. cbn. apply bool_decide_eq_false. intros ->.
    pose proof (one_shot_flag _ _ _ _ _ Hst Hq eq_refl). congruence.
Qed.

Lemma is_stalled_await_dispatch q q' w batch wd :
  List.filter (is_stalled_await q) (dispatch q' w batch wd) = [].
Proof.
  unfold dispatch. induction (reverse (jobs wd)) as [|job l IH]; [done|].
  rewrite fmap_cons. cbn. by destruct (isSandbox _).
Qed.

Lemma one_shot_onJobsProcess q c q' w st :
  one_shot q c st → one_shot q c (onJobsProcess q' w st).
Proof.
  intros Hst. unfold onJobsProcess.
  destruct (queues st !! q') as [queue|] eqn:Hq; [|done].
  pose proof (one_shot_flag _ _ _ _ _ Hst Hq) as Hflag.
  destruct (map_get w (workers queue)) as [wd|]; [|done].
  destruct (jobs wd) as [|job js].
  { by apply one_shot_set_queue. }
  destruct (no_worker (worker wd)).
  { by apply one_shot_set_queue. }
  match goal with |- one_shot _ _ (set_tasks (tasks ?s ++ ?d) ?s) =>
    assert (one_shot q c s) as [Hf Hc]
      by by apply one_shot_set_remainingJobs, one_shot_set_queue
  end.
  split; [done|]. unfold stalled_fetches in *. cbn [log tasks set_tasks] in *.
  rewrite filter_length_app, is_stalled_await_dispatch. cbn in *. lia.
Qed.

Lemma one_shot_emit q c q' e payload handler st :
  (∀ st, one_shot q c st → one_shot q c (handler st)) →
  one_shot q c st → one_shot q c (emit q' e payload handler st).
Proof. intros Hh Hst. apply emit_invariant; [done|]. by apply one_shot_logs. Qed.

Lemma one_shot_deliver q c q' w fetched st :
  one_shot q c st → one_shot q c (deliver q' w fetched st).
Proof.
  intros Hst. unfold deliver.
  destruct (queues st !! q') as [queue|] eqn:Hq; [|done].
  pose proof (one_shot_flag _ _ _ _ _ Hst Hq) as Hflag.
  destruct (map_get w (workers queue)) as [wd|]; [|done].
  apply one_shot_emit; [intros; by apply one_shot_onJobsProcess|].
  by apply one_shot_set_queue.
Qed.

(** Resuming a fetch adds the fetch to the log. *)
Lemma one_shot_onJobsRequest_resume q c q' w from st :
  one_shot q c st →
  one_shot q (c + (if is_stalled_await q (AwaitJobs q' w from) then 1 else 0))
    (onJobsRequest_resume q' w from st)
  ∨ (queues st !! q' = None ∧ onJobsRequest_resume q' w from st = st).
Proof.
  intros Hst. unfold onJobsRequest_resume.
  destruct (queues st !! q') as [queue|] eqn:Hq; [left|by right].
  pose proof (one_shot_flag _ _ _ _ _ Hst Hq) as Hflag.
  set (n := if is_stalled_await _ _ then 1 else 0).
  assert (one_shot q (c + n) (logs (GetJobs q' from DBActions.default_limit) st)) as Hlog.
  { destruct Hst as [Hf Hc]. split; [done|]. unfold stalled_fetches in *.
    cbn [log tasks logs]. rewrite filter_length_app. subst n. cbn.
    destruct from; cbn; try lia. destruct (bool_decide _); cbn; lia. }
  pose proof (one_shot_on_server q (c + n) (dbActions queue)
                (DBActions.getJobs q' from DBActions.default_limit) _ Hlog) as Hserver.
  destruct (on_server _ _ _) as [st1 [fetched|e]]; cbn [fst] in Hserver; [|done].
  destruct from, fetched; try done; try by apply one_shot_deliver.
  apply one_shot_add_task; [done|]. by apply one_shot_set_queue.
Qed.

Lemma one_shot_onWorkerAdd q c q' w st :
  one_shot q c st → one_shot q c (onWorkerAdd q' w st).
Proof.
  intros Hst. unfold onWorkerAdd.
  destruct (queues st !! q') as [queue|]; [|done].
  destruct (map_get w (workers queue)); [|done].
  apply one_shot_emit; [intros; by apply one_shot_onJobsRequest|done].
Qed.

Lemma one_shot_onComplete q c q' jobId st :
  one_shot q c st → one_shot q c (onComplete q' jobId st).
Proof.
  intros Hst. unfold onComplete. destruct (queues st !! q') as [queue|]; [|done].
  apply one_shot_emit; [done|]. by apply one_shot_on_server, one_shot_logs.
Qed.

Lemma one_shot_onFailed q c q' jobId message st :
  one_shot q c st → one_shot q c (onFailed q' jobId message st).
Proof.
  intros Hst. unfold onFailed. destruct (queues st !! q') as [queue|]; [|done].
  apply one_shot_emit; [done|]. by apply one_shot_on_server, one_shot_logs.
Qed.

Lemma one_shot_onFinish q c q' w batch st :
  one_shot q c st → one_shot q c (onFinish q' w batch st).
Proof.
  intros Hst. unfold onFinish. destruct (_ - 1)%Z; try done.
  cbn [queues set_remainingJobs].
  destruct (queues st !! q') as [queue|] eqn:Hq; [|done].
  pose proof (one_shot_flag _ _ _ _ _ Hst Hq) as Hflag.
  destruct (map_get w (workers queue)); [|done].
  apply one_shot_emit; [intros; by apply one_shot_onJobsRequest|].
  by apply one_shot_set_queue.
Qed.

Lemma one_shot_start q c queue st :
  one_shot q c st → one_shot q c (start queue st).1.
Proof.
  intros Hst. unfold start. destruct (db queue); [|done].
  destruct (queues st !! name queue) as [existing|] eqn:Hq; [done|]. cbn [checkExisting fst].
  apply one_shot_emit; [done|]. apply one_shot_set_queue; [|done].
  intros Heq. subst q. destruct Hst as [Hf _]. unfold flag_of in Hf. by rewrite Hq in Hf.
Qed.

Lemma one_shot_addJob q c q' jobId data st :
  one_shot q c st → one_shot q c (addJob q' jobId data st).1.
Proof.
  intros Hst. unfold addJob. destruct (queues st !! q') as [queue|]; [|done].
  pose proof (one_shot_on_server q c (dbActions queue) (DBActions.addJob q' jobId data)
                (logs (AddJob q' jobId) st)) as Hserver.
  destruct (on_server _ _ _) as [st1 [[]|e]]; cbn [fst] in *;
    [|by apply Hserver, one_shot_logs].
  assert (one_shot q c (emit (Some q') JOB_ADD (Some q') (λ st, st) st1)) as Hadd
    by by apply one_shot_emit; [|apply Hserver, one_shot_logs].
  case_decide; [done|]. cbn [fst].
  apply one_shot_emit; [intros; by apply one_shot_onJobsRequest|done].
Qed.

Lemma one_shot_startWorkerPool q c key queueData st :
  one_shot q c st → one_shot q c (startWorkerPool key queueData st).1.
Proof.
  intros Hst. unfold startWorkerPool.
  pose proof (one_shot_on_server q c (dbActions queueData)
                (DBActions.moveJobsBetweenLists (name (queue queueData)) RUNNING STALLED)
                (logs (MoveJobsBetweenLists (name (queue queueData)) RUNNING STALLED) st))
    as Hserver.
  destruct (on_server _ _ _) as [st1 [[|x ids]|e]]; cbn [fst] in *;
    try by apply Hserver, one_shot_logs.
  apply one_shot_set_queue; [done|]. by apply Hserver, one_shot_logs.
Qed.

Lemma one_shot_startWorkers q c q' st :
  one_shot q c st → one_shot q c (startWorkers q' st).1.
Proof.
  intros Hst. unfold startWorkers. destruct (queues st !! q') as [queueData|]; [|done].
  pose proof (one_shot_startWorkerPool q c q' queueData st Hst) as Hpool.
  destruct (startWorkerPool _ _ _) as [st1 [[]|e]]; cbn [fst] in *; [|done].
  by repeat apply one_shot_add_listener.
Qed.

Lemma one_shot_addWorker q c q' w workerFunction workerConfig st :
  one_shot q c st → one_shot q c (addWorker q' w workerFunction workerConfig st).1.
Proof.
  intros Hst. unfold addWorker. destruct (queues st !! q') as [queue|] eqn:Hq; [|done].
  pose proof (one_shot_flag _ _ _ _ _ Hst Hq) as Hflag.
  match goal with |- context [set_queue q' ?v st] =>
    assert (one_shot q c (set_queue q' v st)) as Hst0 by (by apply one_shot_set_queue);
    set (st0 := set_queue q' v st) in *
  end.
  clearbody st0.
  assert (one_shot q c
            (if bool_decide (0 < length (workers queue))
             then (st0, Resolved ()) else startWorkers q' st0).1) as Hstart.
  { destruct (bool_decide _); [done|]. by apply one_shot_startWorkers. }
  destruct (if bool_decide _ then _ else _) as [st1 [[]|e]]; cbn [fst] in *; [|done].
  apply one_shot_emit; [intros; by apply one_shot_onWorkerAdd|done].
Qed.

Lemma stalled_fetches_delete q i t st :
  tasks st !! i = Some t →
  stalled_fetches q st
  = stalled_fetches q (set_tasks (delete i (tasks st)) st)
    + (if is_stalled_await q t then 1 else 0).
Proof.
  intros Hi. unfold stalled_fetches. cbn [log tasks set_tasks].
  apply list_elem_of_split_length in Hi as (l1 & l2 & -> & ->).
  rewrite delete_middle, !filter_length_app. cbn.
  destruct (is_stalled_await q t); cbn; lia.
Qed.

(** Every step keeps the invariant. *)
Lemma one_shot_step q c a st : one_shot q c st → one_shot q c (step a st).
Proof.
  intros Hst. destruct a as [queue|q' jobId data|q' w f cfg|i|i r]; cbn [step].
  - by apply one_shot_start.
  - by apply one_shot_addJob.
  - by apply one_shot_addWorker.
  - destruct (tasks st !! i) as [t|] eqn:Hi; [|done].
    destruct t as [q' w from|q' w batch job settles|q' w batch job]; [| |done].
    all: destruct Hst as [Hf Hc]; rewrite (stalled_fetches_delete q i _ st Hi) in Hc.
    all: set (st0 := set_tasks (delete i (tasks st)) st) in *.
    all: set (n := if is_stalled_await q _ then 1 else 0) in *.
    all: assert (one_shot q (c - n) st0) as Hst0 by (split; [done|lia]).
    + destruct (one_shot_onJobsRequest_resume q (c - n) q' w from st0 Hst0)
        as [Hr|[Hnone ->]].
      * fold n in Hr. by replace (c - n + n) with c in Hr by lia.
      * split; [done|]. subst n. cbn in *. destruct from; try lia.
        case_bool_decide as Hq; [|lia]. subst q'. unfold flag_of in Hf.
        cbn [queues set_tasks] in Hnone. by rewrite Hnone in Hf.
    + assert (n = 0) as Hn by done. rewrite Hn, Nat.sub_0_r in Hst0.
      unfold settle_routine. apply one_shot_onFinish.
      destruct settles; [by apply one_shot_onComplete | by apply one_shot_onFailed].
  - destruct (tasks st !! i) as [[q' w from|q' w batch job settles|q' w batch job]|] eqn:Hi;
      try done.
    destruct Hst as [Hf Hc]. rewrite (stalled_fetches_delete q i _ st Hi) in Hc.
    cbn in Hc. rewrite Nat.add_0_r in Hc.
    unfold settle_sandbox. apply one_shot_onFinish.
    destruct r as [s error|message]; [destruct s|].
    4: by apply one_shot_onComplete.
    all: by apply one_shot_onFailed.
Qed.

Lemma one_shot_steps q c l st : one_shot q c st → one_shot q c (steps l st).
Proof.
  revert st. induction l as [|a l IH]; intros st Hst; [done|].
  cbn. by apply IH, one_shot_step.
Qed.

Lemma dispatch_no_fetch q w batch wd :
  List.filter (λ t, match t with AwaitJobs _ _ _ => true | _ => false end)
    (dispatch q w batch wd) = [].
Proof.
  unfold dispatch. induction (reverse (jobs wd)) as [|j l IH]; [done|].
  rewrite fmap_cons. cbn. by destruct (isSandbox _).
Qed.

(** [onJobsProcess] writes nothing to the log, starts no fetch, and keeps
    the flag of every queue. *)
Lemma onJobsProcess_quiet q q' w st :
  flag_of q (onJobsProcess q' w st) = flag_of q st
  ∧ awaited_fetches (onJobsProcess q' w st) = awaited_fetches st
  ∧ log (onJobsProcess q' w st) = log st.
Proof.
  assert (∀ v, (q' = q → isStalledJobsProcessingComplete v
                         = default false (flag_of q st) ∧ is_Some (queues st !! q)) →
               flag_of q (set_queue q' v st) = flag_of q st) as Hset.
  { intros v Hv. unfold flag_of in *. cbn [queues set_queue].
    destruct (decide (q' = q)) as [->|Hne]; [|by rewrite lookup_insert_ne].
    rewrite lookup_insert_eq. destruct (Hv eq_refl) as [Hv1 [v' Hv2]].
    rewrite Hv2 in *. cbn in *. by rewrite Hv1. }
  unfold onJobsProcess.
  destruct (queues st !! q') as [queue|] eqn:Hq; [|done].
  assert (q' = q → isStalledJobsProcessingComplete queue = default false (flag_of q st)
                   ∧ is_Some (queues st !! q)) as Hflag.
  { intros ->. unfold flag_of. rewrite Hq. eauto. }
  destruct (map_get w (workers queue)) as [wd|]; [|done].
  destruct (jobs wd) as [|job js].
  { split_and!; [|done..]. by apply Hset. }
  destruct (no_worker (worker wd)).
  { split_and!; [|done..]. by apply Hset. }
  split_and!; [by apply Hset| |done].
  unfold awaited_fetches. cbn [tasks set_tasks set_remainingJobs set_queue].
  by rewrite List.filter_app, dispatch_no_fetch, app_nil_r.
Qed.

Lemma deliver_quiet q w fetched queue wd st :
  queues st !! q = Some queue → map_get w (workers queue) = Some wd →
  flag_of q (deliver q w fetched st) = flag_of q st
  ∧ awaited_fetches (deliver q w fetched st) = awaited_fetches st
  ∧ log (deliver q w fetched st) = log st ++ [Emit (Some q) JOB_POOL_PROCESS (Some w)].
Proof.
  intros Hq Hw. unfold deliver. rewrite Hq, Hw.
  apply (emit_invariant (λ st', flag_of q st' = flag_of q st
                               ∧ awaited_fetches st' = awaited_fetches st
                               ∧ log st' = log st ++ [Emit (Some q) JOB_POOL_PROCESS (Some w)])).
  - intros st' (Hf & Ha & Hl).
    destruct (onJobsProcess_quiet q q w st') as (-> & -> & ->). done.
  - split_and!; [|done..]. unfold flag_of. cbn [queues logs set_queue].
    by rewrite lookup_insert_eq, Hq.
Qed.

(** C3: a pool request for a registered worker awaits a fetch from
    STALLED as long as the flag of the queue is unset, and a fetch from
    PENDING once it is set.  When the fetch from STALLED answers with
    nothing, the flag is set and the request goes on with PENDING; when it
    answers with a job, the flag stays and the request fetches nothing else.
    Once the flag is set it stays set whatever the engine does next, and no
    fetch from STALLED is started any more: the fetches from STALLED made
    and the ones already awaited are as many as before. *)
Theorem stalled_recovery_once queueName workerId queue workerData st :
  queues st !! queueName = Some queue →
  map_get workerId (workers queue) = Some workerData →
  onJobsRequest queueName workerId st
  = add_task (AwaitJobs queueName workerId
                (if isStalledJobsProcessingComplete queue then PENDING else STALLED)) st
  ∧ stalled_answer queueName workerId queue st
  ∧ (isStalledJobsProcessingComplete queue = true →
     ∀ l, one_shot queueName (stalled_fetches queueName st) (steps l st)).
Proof.
  intros Hq Hw. split_and!.
  - unfold onJobsRequest. rewrite Hq, Hw. by destruct (isStalledJobsProcessingComplete _).
  - unfold stalled_answer, onJobsRequest_resume. rewrite Hq. unfold on_server.
    cbn [servers logs].
    destruct (DBActions.getJobs _ _ _ _) as [redis [[|job fetched]|e]]; cbn [snd].
    + split_and!; [|done..]. unfold flag_of. cbn. by rewrite lookup_insert_eq.
    + match goal with |- context [deliver _ _ _ ?s] =>
        destruct (deliver_quiet queueName workerId (job :: fetched) queue workerData s)
          as (Hf & Ha & Hl); [done..|]
      end.
      rewrite Hf, Ha, Hl. split_and!; [done..|]. cbn [log set_server logs].
      by rewrite <- app_assoc.
    + done.
  - intros Hflag l. apply one_shot_steps. split; [|done].
    by rewrite (flag_of_lookup _ _ _ Hq), Hflag.
Qed.

End one_shot.

(** ** Startup: the move comes first, and once *)

Section startup.
Context `{Helpers}.
Import Engine.
Implicit Types (st : state).

(** A handler that registers nothing, keeps every flag and every server,
    and only emits. *)
Definition only_emits (st st' : state) : Prop :=
  servers st' = servers st
  ∧ listeners st' = listeners st
  ∧ (∀ q, flag_of q st' = flag_of q st)
  ∧ ∃ rest, log st' = log st ++ rest ∧ Forall is_emit rest.

Lemma only_emits_refl st : only_emits st st.
Proof. split_and!; [done..|]. exists []. by rewrite app_nil_r. Qed.

Lemma only_emits_trans st1 st2 st3 :
  only_emits st1 st2 → only_emits st2 st3 → only_emits st1 st3.
Proof.
  intros (Hs1 & Hl1 & Hf1 & r1 & Hr1 & He1) (Hs2 & Hl2 & Hf2 & r2 & Hr2 & He2).
  split_and!; [congruence|congruence|intros q; by rewrite Hf2|].
  exists (r1 ++ r2). rewrite Hr2, Hr1, app_assoc. split; [done|]. by apply Forall_app.
Qed.

Lemma only_emits_onJobsRequest q w st : only_emits st (onJobsRequest q w st).
Proof.
  unfold onJobsRequest. destruct (queues st !! q) as [queue|]; [|apply only_emits_refl].
  destruct (map_get w (workers queue)); [|apply only_emits_refl].
  destruct (negb _); split_and!; try done; exists []; by rewrite app_nil_r.
Qed.

Lemma only_emits_emit q e payload handler st :
  (∀ st, only_emits st (handler st)) → only_emits st (emit q e payload handler st).
Proof.
  intros Hh. apply (emit_invariant (only_emits st)).
  - intros st' Hst'. eapply only_emits_trans; [done|apply Hh].
  - split_and!; [done..|]. exists [Emit q e payload]. split; [done|].
    by apply Forall_singleton.
Qed.

Lemma only_emits_onWorkerAdd q w st : only_emits st (onWorkerAdd q w st).
Proof.
  unfold onWorkerAdd. destruct (queues st !! q) as [queue|]; [|apply only_emits_refl].
  destruct (map_get w (workers queue)); [|apply only_emits_refl].
  apply only_emits_emit. intros st'. apply only_emits_onJobsRequest.
Qed.

Lemma map_set_nonempty {V} key (v : V) m : map_set key v m ≠ [].
Proof. destruct m as [|[k v'] m]; [done|]. cbn. by case_decide. Qed.

Lemma startup_addWorker queueName workerId workerFunction workerConfig queue st :
  queues st !! queueName = Some queue →
  startup queueName workerId workerFunction workerConfig queue st.
Proof.
  intros Hq. unfold startup, addWorker. rewrite Hq.
  set (ws := map_set workerId _ (workers queue)).
  set (st0 := set_queue queueName (set_workers ws queue) st).
  destruct (workers queue) as [|w0 ws0] eqn:Hws; cbn [length bool_decide].
  - rewrite bool_decide_eq_false_2 by lia.
    unfold startWorkers. replace (queues st0 !! queueName) with (Some (set_workers ws queue))
      by (subst st0; cbn; by rewrite lookup_insert_eq).
    unfold startWorkerPool, on_server.
    cbn [servers logs set_queue set_workers Engine.queue Engine.dbActions].
    subst st0. cbn [servers set_queue].
    destruct (DBActions.moveJobsBetweenLists _ _ _ _) as [redis [[|x ids]|e]]; cbn [fst snd].
    + match goal with |- context [emit _ _ _ _ ?s] =>
        destruct (only_emits_emit (Some queueName) WORKER_ADD (Some workerId)
                    (onWorkerAdd queueName workerId) s) as (Hs & Hl & Hf & rest & Hr & _);
          [intros; apply only_emits_onWorkerAdd|]
      end.
      rewrite Hs, Hl, Hr, Hf.
      cbn [servers log listeners add_listener set_queue set_server logs].
      split_and!.
      * eexists. rewrite <- !app_assoc. cbn [app]. reflexivity.
      * done.
      * intros _. unfold flag_of. cbn. by rewrite lookup_insert_eq.
      * by rewrite <- !app_assoc.
    + match goal with |- context [emit _ _ _ _ ?s] =>
        destruct (only_emits_emit (Some queueName) WORKER_ADD (Some workerId)
                    (onWorkerAdd queueName workerId) s) as (Hs & Hl & Hf & rest & Hr & _);
          [intros; apply only_emits_onWorkerAdd|]
      end.
      rewrite Hs, Hl, Hr.
      cbn [servers log listeners add_listener set_queue set_server logs].
      split_and!.
      * eexists. rewrite <- !app_assoc. cbn [app]. reflexivity.
      * done.
      * done.
      * by rewrite <- !app_assoc.
    + cbn [servers log listeners add_listener set_queue set_server logs].
      split_and!; [by eexists|done..].
  - rewrite bool_decide_eq_true_2 by (cbn; lia). cbn [fst].
    destruct (only_emits_emit (Some queueName) WORKER_ADD (Some workerId)
                (onWorkerAdd queueName workerId) st0) as (Hs & Hl & _ & rest & Hr & He);
      [intros; apply only_emits_onWorkerAdd|].
    split_and!; [done..|]. by exists rest.
Qed.

(** Every handler that is registered belongs to a queue with a worker. *)
Definition listening (st : state) : Prop :=
  ∀ q e, (Some q, e) ∈ listeners st →
         ∃ queue, queues st !! q = Some queue ∧ workers queue ≠ [].

(** A step that registers nothing, and that drops neither a queue nor the
    last worker of a queue. *)
Definition keeps (st st' : state) : Prop :=
  listeners st' = listeners st
  ∧ ∀ q queue, queues st !! q = Some queue →
               ∃ queue', queues st' !! q = Some queue'
                         ∧ (workers queue ≠ [] → workers queue' ≠ []).

Lemma keeps_refl st : keeps st st.
Proof. split; [done|]. intros q queue Hq. by exists queue. Qed.

Lemma keeps_trans st1 st2 st3 : keeps st1 st2 → keeps st2 st3 → keeps st1 st3.
Proof.
  intros [Hl1 Hg1] [Hl2 Hg2]. split; [congruence|]. intros q queue Hq.
  destruct (Hg1 q queue Hq) as (queue2 & Hq2 & Hw2).
  destruct (Hg2 q queue2 Hq2) as (queue3 & Hq3 & Hw3). exists queue3. split; [done|tauto].
Qed.

Lemma keeps_listening st st' : keeps st st' → listening st → listening st'.
Proof.
  intros [Hl Hg] Hst q e He. rewrite Hl in He.
  destruct (Hst q e He) as (queue & Hq & Hw).
  destruct (Hg q queue Hq) as (queue' & Hq' & Hw'). exists queue'. split; [done|tauto].
Qed.

Lemma keeps_set_queue q v st :
  (∀ old, queues st !! q = Some old → workers old ≠ [] → workers v ≠ []) →
  keeps st (set_queue q v st).
Proof.
  intros Hv. split; [done|]. intros q' queue Hq'. cbn [queues set_queue].
  destruct (decide (q = q')) as [->|Hne].
  - rewrite lookup_insert_eq. exists v. split; [done|]. by apply Hv.
  - rewrite lookup_insert_ne by done. by exists queue.
Qed.

(** A change of anything but the queues and the handlers. *)
Lemma keeps_same st st' :
  listeners st' = listeners st → queues st' = queues st → keeps st st'.
Proof. intros Hl Hq. split; [done|]. intros q queue. rewrite Hq. by exists queue. Qed.

Lemma queues_on_server {A} conn (call : store → store * result A) st :
  queues (on_server conn call st).1 = queues st.
Proof. unfold on_server. by destruct (call _). Qed.

Lemma keeps_on_server {A} conn (call : store → store * result A) st :
  keeps st (on_server conn call st).1.
Proof. unfold on_server. destruct (call _). by apply keeps_same. Qed.

Lemma keeps_emit q e payload handler st :
  (∀ st, keeps st (handler st)) → keeps st (emit q e payload handler st).
Proof.
  intros Hh. apply (emit_invariant (keeps st)); [|by apply keeps_same].
  intros st' Hst'. eapply keeps_trans; [done|apply Hh].
Qed.

Lemma keeps_onJobsRequest q w st : keeps st (onJobsRequest q w st).
Proof.
  unfold onJobsRequest. destruct (queues st !! q) as [queue|]; [|apply keeps_refl].
  destruct (map_get w (workers queue)); [|apply keeps_refl].
  by destruct (negb _); apply keeps_same.
Qed.

Lemma keeps_onJobsProcess q w st : keeps st (onJobsProcess q w st).
Proof.
  unfold onJobsProcess. destruct (queues st !! q) as [queue|] eqn:Hq; [|apply keeps_refl].
  destruct (map_get w (workers queue)) as [wd|]; [|apply keeps_refl].
  destruct (jobs wd); cbn zeta.
  { apply keeps_set_queue. intros; cbn; apply map_set_nonempty. }
  destruct (no_worker _).
  { apply keeps_set_queue. intros; cbn; apply map_set_nonempty. }
  match goal with |- keeps st (set_tasks _ (set_remainingJobs _ _ (set_queue ?k ?v st))) =>
    apply (keeps_trans st (set_queue k v st)); [|by apply keeps_same]
  end.
  apply keeps_set_queue. intros; cbn; apply map_set_nonempty.
Qed.

Lemma keeps_deliver q w fetched st : keeps st (deliver q w fetched st).
Proof.
  unfold deliver. destruct (queues st !! q) as [queue|] eqn:Hq; [|apply keeps_refl].
  destruct (map_get w (workers queue)) as [wd|]; [|apply keeps_refl]. cbn zeta.
  match goal with |- keeps st (emit _ _ _ _ (set_queue ?k ?v st)) =>
    apply (keeps_trans st (set_queue k v st))
  end.
  - apply keeps_set_queue. intros; cbn; apply map_set_nonempty.
  - apply keeps_emit. intros; apply keeps_onJobsProcess.
Qed.

Lemma keeps_onJobsRequest_resume q w from st : keeps st (onJobsRequest_resume q w from st).
Proof.
  unfold onJobsRequest_resume.
  destruct (queues st !! q) as [queue|] eqn:Hq; [|apply keeps_refl].
  pose proof (keeps_on_server (dbActions queue)
                (DBActions.getJobs q from DBActions.default_limit)
                (logs (GetJobs q from DBActions.default_limit) st)) as Hserver.
  assert (keeps st (on_server (dbActions queue)
                      (DBActions.getJobs q from DBActions.default_limit)
                      (logs (GetJobs q from DBActions.default_limit) st)).1) as Hst1.
  { eapply keeps_trans; [|apply Hserver]. by apply keeps_same. }
  pose proof (queues_on_server (dbActions queue)
                (DBActions.getJobs q from DBActions.default_limit)
                (logs (GetJobs q from DBActions.default_limit) st)) as Hqueues.
  destruct (on_server _ _ _) as [st1 [fetched|e]]; cbn [fst queues logs] in *; [|done].
  assert (keeps st1 (add_task (AwaitJobs q w PENDING)
                       (set_queue q (set_isStalledJobsProcessingComplete true queue) st1)))
    as Hflag.
  { eapply keeps_trans; [|by apply keeps_same]. apply keeps_set_queue.
    intros old Hold Hw. rewrite Hqueues, Hq in Hold. by injection Hold as <-. }
  destruct from, fetched; try done;
    first [ by eapply keeps_trans; [done|apply keeps_deliver]
          | by eapply keeps_trans; [done|apply Hflag] ].
Qed.
Lemma keeps_onWorkerAdd q w st : keeps st (onWorkerAdd q w st).
Proof.
  unfold onWorkerAdd. destruct (queues st !! q) as [queue|]; [|apply keeps_refl].
  destruct (map_get w (workers queue)); [|apply keeps_refl].
  apply keeps_emit. intros; apply keeps_onJobsRequest.
Qed.

Lemma keeps_onComplete q jobId st : keeps st (onComplete q jobId st).
Proof.
  unfold onComplete. destruct (queues st !! q) as [queue|]; [|apply keeps_refl].
  rewrite emit_no_handler.
  eapply keeps_trans; [|by apply keeps_same].
  eapply keeps_trans; [|apply keeps_on_server]. by apply keeps_same.
Qed.

Lemma keeps_onFailed q jobId message st : keeps st (onFailed q jobId message st).
Proof.
  unfold onFailed. destruct (queues st !! q) as [queue|]; [|apply keeps_refl].
  rewrite emit_no_handler.
  eapply keeps_trans; [|by apply keeps_same].
  eapply keeps_trans; [|apply keeps_on_server]. by apply keeps_same.
Qed.

Lemma keeps_onFinish q w batch st : keeps st (onFinish q w batch st).
Proof.
  unfold onFinish. destruct (_ - 1)%Z; try by apply keeps_same.
  cbn [queues set_remainingJobs].
  destruct (queues st !! q) as [queue|] eqn:Hq; [|by apply keeps_same].
  destruct (map_get w (workers queue)); [|by apply keeps_same]. cbn zeta.
  match goal with |- keeps st (emit _ _ _ _ (set_queue ?k ?v ?s)) =>
    apply (keeps_trans st (set_queue k v s))
  end.
  - apply (keeps_trans st (set_remainingJobs batch 0 st)); [by apply keeps_same|].
    apply keeps_set_queue. intros; cbn; apply map_set_nonempty.
  - apply keeps_emit. intros; apply keeps_onJobsRequest.
Qed.

Lemma keeps_start queue st : keeps st (start queue st).1.
Proof.
  unfold start. destruct (db queue); [|apply keeps_refl].
  destruct (queues st !! name queue) as [existing|] eqn:Hq; [apply keeps_refl|].
  cbn [checkExisting fst]. rewrite emit_no_handler.
  eapply keeps_trans; [|by apply keeps_same]. apply keeps_set_queue.
  intros old Hold. congruence.
Qed.

Lemma keeps_addJob q jobId data st : keeps st (addJob q jobId data st).1.
Proof.
  unfold addJob. destruct (queues st !! q) as [queue|]; [|apply keeps_refl].
  assert (keeps st (on_server (dbActions queue) (DBActions.addJob q jobId data)
                      (logs (AddJob q jobId) st)).1) as Hst1.
  { eapply keeps_trans; [|apply keeps_on_server]. by apply keeps_same. }
  destruct (on_server _ _ _) as [st1 [[]|e]]; cbn [fst] in *; [|done].
  rewrite emit_no_handler.
  assert (keeps st (logs (Emit (Some q) JOB_ADD (Some q)) st1)) as Hst2
    by (eapply keeps_trans; [done|by apply keeps_same]).
  case_decide; [done|]. cbn [fst].
  eapply keeps_trans; [done|]. apply keeps_emit. intros; apply keeps_onJobsRequest.
Qed.

(** Registering a worker keeps the invariant: the handlers it registers
    are those of the queue the worker was just added to. *)
Lemma listening_addWorker q w workerFunction workerConfig st :
  listening st → listening (addWorker q w workerFunction workerConfig st).1.
Proof.
  intros Hst. unfold addWorker. destruct (queues st !! q) as [queue|] eqn:Hq; [|done].
  set (ws := map_set w _ (workers queue)).
  set (st0 := set_queue q (set_workers ws queue) st).
  assert (keeps st st0) as H0.
  { apply keeps_set_queue. intros; cbn; apply map_set_nonempty. }
  assert (∃ queue0, queues st0 !! q = Some queue0 ∧ workers queue0 ≠ []) as Hq0.
  { exists (set_workers ws queue). subst st0. cbn. rewrite lookup_insert_eq.
    split; [done|apply map_set_nonempty]. }
  assert (listening st0) as Hst0 by by eapply keeps_listening.
  clearbody st0. clear H0 Hst.
  assert (∀ st1, listening st1 →
            listening (emit (Some q) WORKER_ADD (Some w) (onWorkerAdd q w) st1)) as Hemit.
  { intros st1 Hst1. eapply keeps_listening; [|done].
    apply keeps_emit. intros; apply keeps_onWorkerAdd. }
  destruct (bool_decide _); [by apply Hemit|].
  unfold startWorkers. destruct Hq0 as (queue0 & Hq0 & Hw0). rewrite Hq0.
  unfold startWorkerPool.
  pose proof (queues_on_server (dbActions queue0)
                (DBActions.moveJobsBetweenLists (name (Engine.queue queue0)) RUNNING STALLED)
                (logs (MoveJobsBetweenLists (name (Engine.queue queue0)) RUNNING STALLED) st0))
    as Hqueues.
  pose proof (keeps_on_server (dbActions queue0)
                (DBActions.moveJobsBetweenLists (name (Engine.queue queue0)) RUNNING STALLED)
                (logs (MoveJobsBetweenLists (name (Engine.queue queue0)) RUNNING STALLED) st0))
    as Hkeeps.
  destruct (on_server _ _ _) as [st1 [ids|e]]; cbn [fst queues logs] in *.
  - assert (listening st1) as Hst1.
    { eapply keeps_listening; [apply Hkeeps|]. eapply keeps_listening; [|done].
      by apply keeps_same. }
    assert (∀ st2, listening st2 →
              (∃ queue2, queues st2 !! q = Some queue2 ∧ workers queue2 ≠ []) →
              listening (add_listener q JOB_POOL_PROCESS
                           (add_listener q JOB_POOL_REQUEST
                              (add_listener q WORKER_ADD st2)))) as Hadd.
    { intros st2 Hst2 Hq2 q' e He. cbn in He.
      rewrite <- !app_assoc in He. cbn in He. rewrite elem_of_app in He.
      destruct He as [He|He]; [by apply (Hst2 q' e)|].
      assert (q' = q) as ->; [|exact Hq2].
      repeat (apply elem_of_cons in He as [He|He]; [by simplify_eq|]).
      by apply elem_of_nil in He. }
    destruct ids as [|x ids]; cbn [fst]; apply Hemit, Hadd.
    + eapply keeps_listening; [|done]. apply keeps_set_queue.
      intros old Hold _. cbn. done.
    + exists (set_isStalledJobsProcessingComplete true queue0). cbn.
      by rewrite lookup_insert_eq.
    + done.
    + exists queue0. by rewrite Hqueues.
  - cbn [fst]. eapply keeps_listening; [apply Hkeeps|]. eapply keeps_listening; [|done].
    by apply keeps_same.
Qed.

Lemma listening_step a st : listening st → listening (step a st).
Proof.
  intros Hst. destruct a as [queue|q jobId data|q w f cfg|i|i r]; cbn [step].
  - eapply keeps_listening; [apply keeps_start|done].
  - eapply keeps_listening; [apply keeps_addJob|done].
  - by apply listening_addWorker.
  - destruct (tasks st !! i) as [[q w from|q w batch job settles|q w batch job]|]; try done.
    + eapply keeps_listening; [apply keeps_onJobsRequest_resume|].
      eapply keeps_listening; [|done]. by apply keeps_same.
    + unfold settle_routine. eapply keeps_listening; [apply keeps_onFinish|].
      destruct settles.
      * eapply keeps_listening; [apply keeps_onComplete|].
        eapply keeps_listening; [|done]. by apply keeps_same.
      * eapply keeps_listening; [apply keeps_onFailed|].
        eapply keeps_listening; [|done]. by apply keeps_same.
  - destruct (tasks st !! i) as [[q w from|q w batch job settles|q w batch job]|]; try done.
    unfold settle_sandbox. eapply keeps_listening; [apply keeps_onFinish|].
    assert (listening (set_tasks (delete i (tasks st)) st)) as Hst0
      by (eapply keeps_listening; [|done]; by apply keeps_same).
    destruct r as [s error|message]; [destruct s|].
    4: by eapply keeps_listening; [apply keeps_onComplete|].
    all: by eapply keeps_listening; [apply keeps_onFailed|].
Qed.

Lemma reachable_listening st : reachable st → listening st.
Proof.
  intros (redis & l & ->).
  assert (listening (boot redis)) as Hboot.
  { intros q e He. cbn in He.
    repeat (apply elem_of_cons in He as [He|He]; [by simplify_eq|]).
    by apply elem_of_nil in He. }
  generalize dependent (boot redis). induction l as [|a l IH]; intros st Hst; [done|].
  cbn. by apply IH, listening_step.
Qed.

(** C5: registering the first worker of a queue runs the move of the
    RUNNING jobs to STALLED before it registers any handler of the queue,
    and sets the flag of the queue at once when the move moved nothing; the
    server of the queue then holds what the move left, which on a queue
    laid out as the spec has it is every RUNNING job moved to STALLED;
    registering a later worker moves nothing, leaves every server as it is
    and registers nothing.  And in every state the engine can reach, a
    queue without a worker has no handler listening yet, so that the move
    of its first worker comes before any handler of the queue is active. *)
Theorem startup_moves_first queueName workerId workerFunction workerConfig queue st :
  queues st !! queueName = Some queue →
  startup queueName workerId workerFunction workerConfig queue st
  ∧ startup_recovers queueName workerId workerFunction workerConfig queue st
  ∧ (reachable st → workers queue = [] → silent queueName st).
Proof.
  intros Hq. pose proof (startup_addWorker _ workerId workerFunction workerConfig _ _ Hq)
    as Hstartup.
  split_and!; [done| |].
  - intros Hw Hdb Hplain. unfold startup in Hstartup. rewrite Hw in Hstartup.
    destruct Hstartup as (_ & -> & _). rewrite lookup_total_insert_eq.
    rewrite <- surjective_pairing. by apply moved_all_laid_out.
  - intros Hst Hw e He.
    destruct (reachable_listening st Hst queueName e He) as (queue' & Hq' & Hne).
    congruence.
Qed.

End startup.

Section temporal_examples.
Import DBActions Engine.
#[local] Existing Instance demo.

Definition restarted_queue : tQueueMapValue :=
  QueueMapValue mail 0 [("w2", WorkerData succeeds [] IDLE local)] "" false.

Lemma stalled_recovery_once_witness :
  onJobsRequest "mail" "w2" restarted
  = add_task (AwaitJobs "mail" "w2" STALLED) restarted
  ∧ stalled_answer "mail" "w2" restarted_queue restarted
  ∧ (isStalledJobsProcessingComplete restarted_queue = true →
     ∀ l, one_shot "mail" (stalled_fetches "mail" restarted) (steps l restarted)).
Proof.
  apply (stalled_recovery_once "mail" "w2" restarted_queue
           (WorkerData succeeds [] IDLE local) restarted).
  - vm_compute. reflexivity.
  - reflexivity.
Defined.

(** After the empty answer of the fetch from STALLED the flag is set, and it
    stays set through every later step. *)
Example recovery_stays_complete l :
  flag_of "mail" (steps l (step (Resume 0) restarted)) = Some true.
Proof.
  refine (proj1 (one_shot_steps "mail" (stalled_fetches "mail" (step (Resume 0) restarted))
                   l (step (Resume 0) restarted) _)).
  split; [vm_compute; reflexivity|done].
Qed.

Definition registered_queue : tQueueMapValue := QueueMapValue mail 0 [] "" false.

(** The process is started on a server that holds the jobs [a] and [b] in
    RUNNING, and the queue is registered. *)
Definition recovering : state := steps [Start mail] (boot {[0 := crashed]}).

Lemma startup_moves_first_witness :
  startup "mail" "w1" succeeds local registered_queue recovering
  ∧ moved_all "mail" RUNNING STALLED crashed
      (servers (addWorker "mail" "w1" succeeds local recovering).1 !!! 0,
       Resolved ["a"; "b"])
  ∧ silent "mail" recovering.
Proof.
  destruct (startup_moves_first "mail" "w1" succeeds local registered_queue recovering)
    as (Hstartup & Hrecovers & Hsilent); [vm_compute; reflexivity|].
  split_and!; [exact Hstartup| |].
  - apply (Hrecovers eq_refl crashed_laid_out crashed_plain).
  - apply Hsilent; [|reflexivity]. by exists {[0 := crashed]}, [Start mail].
Defined.

Example recovering_moved :
  let redis := servers (addWorker "mail" "w1" succeeds local recovering).1 !!! 0 in
  list_at (listKey "mail" RUNNING) redis = []
  ∧ list_at (listKey "mail" STALLED) redis = ["a"; "b"]
  ∧ hash_at (jobKey "mail" "a") redis
    = Some (Hash (Some "a") (Some "x") (Some "stalled") None)
  ∧ tasks (addWorker "mail" "w1" succeeds local recovering).1
    = [AwaitJobs "mail" "w1" STALLED].
Proof. vm_compute. done. Qed.

Example startup_log :
  log (steps [Start mail; Register "mail" "w1" succeeds local] initial)
  = [ Emit None QUEUE_ADD (Some "mail");
      MoveJobsBetweenLists "mail" RUNNING STALLED;
      On (Some "mail") WORKER_ADD; On (Some "mail") JOB_POOL_REQUEST;
      On (Some "mail") JOB_POOL_PROCESS;
      Emit (Some "mail") WORKER_ADD (Some "w1");
      Emit (Some "mail") JOB_POOL_REQUEST (Some "w1") ].
Proof. vm_compute. reflexivity. Qed.

End temporal_examples.

(** * Further properties of the persistence layer *)

Section persistence_more.
Context `{Helpers}.
Import DBActions.
Implicit Types (db : store).

(** The record a key holds after its payload was overwritten. *)
Definition with_payload (queueName jobId newData : string) (db : store) : hash :=
  hash_set (default hash_empty (hash_at (jobKey queueName jobId) db)) (DATA, newData).

Lemma updateJob_record queueName jobId newData db :
  (∀ l, db !! jobKey queueName jobId ≠ Some (RList l)) →
  updateJob queueName jobId newData db
  = (<[jobKey queueName jobId := RHash (with_payload queueName jobId newData db)]> db,
     Resolved ()).
Proof.
  intros Hk. unfold updateJob.
  change (colon (getQueuifyKey queueName [RUNS]) jobId) with (jobKey queueName jobId).
  by destruct (run_HSET (jobKey queueName jobId) [(DATA, newData)] db Hk) as [n ->].
Qed.

Lemma updateJob_laid_out queueName jobId newData db :
  laid_out queueName db → plain_id jobId →
  laid_out queueName (updateJob queueName jobId newData db).1.
Proof.
  intros Hdb Hid. rewrite updateJob_record by (intros l; by apply laid_out_record).
  by apply laid_out_insert_hash.
Qed.

(** [updateJob] writes the payload and nothing else: the id, the status and
    the failure reason of the record stay, every list of the queue stays,
    and the record of every other job stays.  For an id without a record it
    creates one that holds the payload only, on no list. *)
Theorem updateJob_payload_only queueName jobId newData db :
  laid_out queueName db → plain_id jobId →
  let out := updateJob queueName jobId newData db in
  let before := default hash_empty (hash_at (jobKey queueName jobId) db) in
  out.2 = Resolved ()
  ∧ hash_at (jobKey queueName jobId) out.1
    = Some (Hash (h_job_id before) (Some newData) (h_status before) (h_failed_reason before))
  ∧ (∀ s, list_at (listKey queueName s) out.1 = list_at (listKey queueName s) db)
  ∧ (∀ other, other ≠ jobId →
       out.1 !! jobKey queueName other = db !! jobKey queueName other).
Proof.
  intros Hdb Hid. cbn zeta.
  rewrite updateJob_record by (intros l; by apply laid_out_record). cbn [fst snd].
  split_and!; [done| | |].
  - by rewrite hash_at_insert.
  - intros s. apply list_at_insert_ne. by apply plain_id_keys.
  - intros other Hother. apply lookup_insert_ne. by intros ?%(inj _).
Qed.

(** [getJobs] from a list other than the RUNNING one, with the status of
    what it fetched. *)
Lemma getJobs_take_status queueName from n db :
  from ≠ RUNNING → laid_out queueName db →
  Forall plain_id (take n (list_at (listKey queueName from) db)) →
  "" ∉ take n (list_at (listKey queueName from) db) →
  ∃ db',
    getJobs queueName from n db
    = (db', Resolved (job_of queueName db <$> take n (list_at (listKey queueName from) db)))
    ∧ list_at (listKey queueName from) db' = drop n (list_at (listKey queueName from) db)
    ∧ list_at (listKey queueName RUNNING) db'
      = list_at (listKey queueName RUNNING) db ++ take n (list_at (listKey queueName from) db)
    ∧ laid_out queueName db'
    ∧ (∀ jobId, job_of queueName db' jobId = job_of queueName db jobId)
    ∧ (∀ s, s ≠ from → s ≠ RUNNING →
            list_at (listKey queueName s) db' = list_at (listKey queueName s) db)
    ∧ (∀ jobId, jobId ∈ take n (list_at (listKey queueName from) db) →
                has_status queueName jobId RUNNING db').
Proof.
  intros Hfrom Hdb Hplain Hne.
  destruct (getJobs_take queueName from n db Hfrom Hdb Hplain Hne)
    as (db' & Hget & Hf & Hr & Hl & Hj & Hs).
  exists db'. split_and!; try done.
  revert Hget. unfold getJobs. rewrite getQueuifyKey_status.
  change (colon (getQueuifyKey queueName [RUNS]) (status_str RUNNING))
    with (listKey queueName RUNNING).
  destruct (getJobs_pop_take queueName from n db Hfrom Hdb Hne)
    as (db1 & -> & _ & _ & Hdb1 & _).
  destruct (take n (list_at (listKey queueName from) db)) as [|x ids] eqn:Hids.
  { by intros _ ? ?%elem_of_nil. }
  destruct (getJobs_pipelines queueName (x :: ids) db1 Hdb1 Hplain)
    as (db3 & Hrun & _ & _ & Hstatus & _).
  change (λ jobId, HMGET (colon (getQueuifyKey queueName [RUNS]) jobId) [JOB_ID; DATA])
    with (λ jobId, HMGET (jobKey queueName jobId) [JOB_ID; DATA]).
  change (λ jobId, HSET (colon (getQueuifyKey queueName [RUNS]) jobId)
                     [(STATUS, status_str RUNNING)])
    with (λ jobId, HSET (jobKey queueName jobId) [(STATUS, status_str RUNNING)]).
  cbn zeta in Hrun. rewrite Hrun. by intros [= <-].
Qed.

(** Enqueue, then fetch, on a queue laid out as the spec has it, for a new,
    non-empty id that no status is written as and whose script is the one
    written: the PENDING list is served from the end it is pushed at, so
    that the job enqueued last is the one a fetch of one job returns, with
    its id and its payload decompressed, whatever was pending before; the
    jobs that were pending stay pending. *)
Theorem enqueue_then_fetch queueName jobId data db :
  as_written queueName jobId →
  laid_out queueName db → plain_id jobId → jobId ≠ "" →
  db !! jobKey queueName jobId = None →
  let out := getJobs queueName PENDING default_limit (addJob queueName jobId data db).1 in
  out.2 = Resolved [Job (Some jobId) (decompressData (Some data))]
  ∧ list_at (listKey queueName PENDING) out.1 = list_at (listKey queueName PENDING) db
  ∧ list_at (listKey queueName RUNNING) out.1
    = list_at (listKey queueName RUNNING) db ++ [jobId]
  ∧ has_status queueName jobId RUNNING out.1.
Proof.
  intros Hscript Hdb Hid Hne Hnew. cbn zeta.
  pose proof (plain_id_keys queueName jobId PENDING Hid) as Hkeys.
  rewrite addJob_new by (done || by apply laid_out_list). cbn [fst].
  set (db1 := <[listKey queueName PENDING := _]> _).
  assert (laid_out queueName db1) as Hdb1
    by by apply laid_out_insert_list, laid_out_insert_hash.
  assert (list_at (listKey queueName PENDING) db1
          = jobId :: list_at (listKey queueName PENDING) db) as Hl
    by apply list_at_insert.
  assert (list_at (listKey queueName RUNNING) db1 = list_at (listKey queueName RUNNING) db)
    as Hr.
  { subst db1. rewrite list_at_insert_ne by by intros ?%(inj _).
    apply list_at_insert_ne. by apply plain_id_keys. }
  assert (job_of queueName db1 jobId = Job (Some jobId) (decompressData (Some data))) as Hjob.
  { unfold job_of. subst db1. rewrite hash_at_insert_ne by done.
    by rewrite hash_at_insert. }
  unfold default_limit.
  destruct (getJobs_take_status queueName PENDING 1 db1)
    as (db' & -> & Hf & Hrun & _ & _ & _ & Hstatus);
    [done|done|rewrite Hl; by apply Forall_singleton|
     rewrite Hl; cbn; by apply not_elem_of_cons; split; [|apply not_elem_of_nil]|].
  rewrite Hl in *. cbn [take drop fmap list_fmap fst snd] in *. rewrite Hjob.
  split_and!; [done|done|by rewrite Hrun, Hr|].
  apply Hstatus. by left.
Qed.

(** Update, then fetch, on a queue laid out as the spec has it: a job at
    the head of a list other than RUNNING, with a non-empty id that no
    status is written as, whose payload was overwritten while it waited, is
    fetched with the new payload. *)
Theorem update_then_fetch queueName from jobId newData rest db :
  from ≠ RUNNING → laid_out queueName db → plain_id jobId → jobId ≠ "" →
  list_at (listKey queueName from) db = jobId :: rest →
  (getJobs queueName from default_limit (updateJob queueName jobId newData db).1).2
  = Resolved [Job (h_job_id (default hash_empty (hash_at (jobKey queueName jobId) db)))
                (decompressData (Some newData))].
Proof.
  intros Hfrom Hdb Hid Hne Hl.
  rewrite updateJob_record by (intros l; by apply laid_out_record). cbn [fst].
  set (db1 := <[_ := _]> db).
  assert (laid_out queueName db1) as Hdb1 by by apply laid_out_insert_hash.
  assert (list_at (listKey queueName from) db1 = jobId :: rest) as Hl1.
  { subst db1. rewrite list_at_insert_ne by by apply plain_id_keys. done. }
  unfold default_limit.
  destruct (getJobs_take queueName from 1 db1) as (db' & -> & _);
    [done|done|rewrite Hl1; by apply Forall_singleton|
     rewrite Hl1; cbn; by apply not_elem_of_cons; split; [|apply not_elem_of_nil]|].
  rewrite Hl1. cbn [take fmap list_fmap snd]. unfold job_of. subst db1.
  by rewrite hash_at_insert.
Qed.

(** Two fetches in a row hand out consecutive segments of the list, in
    order; together they are what one fetch of both limits hands out; and
    when no id is listed twice, no job is handed out twice. *)
Theorem getJobs_twice queueName from n m db :
  from ≠ RUNNING → laid_out queueName db →
  Forall plain_id (list_at (listKey queueName from) db) →
  "" ∉ list_at (listKey queueName from) db →
  let l := list_at (listKey queueName from) db in
  let out1 := getJobs queueName from n db in
  let out2 := getJobs queueName from m out1.1 in
  out1.2 = Resolved (job_of queueName db <$> take n l)
  ∧ out2.2 = Resolved (job_of queueName db <$> take m (drop n l))
  ∧ list_at (listKey queueName from) out2.1 = drop (n + m) l
  ∧ list_at (listKey queueName RUNNING) out2.1
    = list_at (listKey queueName RUNNING) db ++ take (n + m) l
  ∧ (NoDup l → ∀ jobId, jobId ∈ take n l → jobId ∉ take m (drop n l)).
Proof.
  intros Hfrom Hdb Hplain Hne. cbn zeta.
  destruct (getJobs_take queueName from n db Hfrom Hdb) as (db1 & -> & Hf1 & Hr1 & Hdb1 & Hj1 & _).
  { by apply Forall_take. }
  { intros Hin. apply Hne. by eapply subseteq_take. }
  cbn [fst snd].
  destruct (getJobs_take queueName from m db1 Hfrom Hdb1) as (db2 & -> & Hf2 & Hr2 & _).
  { rewrite Hf1. by apply Forall_take, Forall_drop. }
  { rewrite Hf1. intros Hin. apply Hne. by eapply subseteq_drop, subseteq_take. }
  cbn [fst snd]. rewrite Hf1 in *. split_and!; [done| | | |].
  - f_equal. apply list_fmap_ext. intros i x _. apply Hj1.
  - by rewrite Hf2, drop_drop.
  - by rewrite Hr2, Hr1, <- app_assoc, take_take_drop.
  - intros Hnodup. rewrite <- (take_drop n (list_at (listKey queueName from) db)) in Hnodup.
    apply NoDup_app in Hnodup as (_ & Hdisj & _). intros x Hx Hx'.
    apply (Hdisj x Hx). by eapply subseteq_take.
Qed.

Lemma remove_first_last jobId l : jobId ∉ l → remove_first 1 jobId (l ++ [jobId]) = l.
Proof.
  induction l as [|x l IH]; intros Hl; cbn.
  - by rewrite decide_True.
  - apply not_elem_of_cons in Hl as [Hx Hl]. rewrite decide_False by done.
    f_equal. by apply IH.
Qed.

(** The pipeline of [completeJob] and [failJob] leaves the other lists
    alone. *)
Lemma terminal_pipeline_frame queueName jobId fvs st s db :
  laid_out queueName db → plain_id jobId → s ≠ RUNNING → s ≠ st →
  list_at (listKey queueName s)
    (exec [ HSET (jobKey queueName jobId) fvs;
            LREM (listKey queueName RUNNING) 1 jobId;
            LPUSH (listKey queueName st) jobId ] db).1
  = list_at (listKey queueName s) db.
Proof.
  intros Hdb Hid HsR Hsst. cbn [exec].
  destruct (run_HSET (jobKey queueName jobId) fvs db) as [n1 ->];
    [intros l; by apply laid_out_record|].
  set (db1 := <[jobKey queueName jobId := _]> db).
  assert (laid_out queueName db1) as Hdb1 by by apply laid_out_insert_hash.
  destruct (run_LREM (listKey queueName RUNNING) 1 jobId db1) as [n2 ->];
    [by apply laid_out_list|].
  set (db2 := set_list _ _ db1).
  assert (laid_out queueName db2) as Hdb2 by by apply laid_out_set_list.
  destruct (run_LPUSH (listKey queueName st) jobId db2) as [n3 ->];
    [by apply laid_out_list|].
  cbn [fst]. rewrite list_at_insert_ne by by intros ?%(inj _).
  subst db2. rewrite list_at_set_list_ne by by intros ?%(inj _).
  subst db1. apply list_at_insert_ne. by apply plain_id_keys.
Qed.

(** The life of a job on a queue laid out as the spec has it, for a new,
    non-empty id that no status is written as, that is not on the RUNNING
    list and whose script is the one written: enqueued, fetched and
    completed (or failed), it has the terminal status (and the reason of
    the failure), it is at the head of the terminal list, and the PENDING
    and RUNNING lists are as they were before it was enqueued. *)
Theorem enqueue_fetch_settle queueName jobId data reason db :
  as_written queueName jobId →
  laid_out queueName db → plain_id jobId → jobId ≠ "" →
  db !! jobKey queueName jobId = None →
  jobId ∉ list_at (listKey queueName RUNNING) db →
  let fetched := (getJobs queueName PENDING default_limit
                    (addJob queueName jobId data db).1).1 in
  let completed := (completeJob queueName (Some jobId) fetched).1 in
  let failed := (failJob queueName (Some jobId) (Some reason) fetched).1 in
  (has_status queueName jobId COMPLETED completed
   ∧ list_at (listKey queueName COMPLETED) completed
     = jobId :: list_at (listKey queueName COMPLETED) db
   ∧ list_at (listKey queueName PENDING) completed = list_at (listKey queueName PENDING) db
   ∧ list_at (listKey queueName RUNNING) completed = list_at (listKey queueName RUNNING) db)
  ∧ (has_status queueName jobId FAILED failed
     ∧ hash_at (jobKey queueName jobId) failed ≫= h_failed_reason = Some reason
     ∧ list_at (listKey queueName FAILED) failed
       = jobId :: list_at (listKey queueName FAILED) db
     ∧ list_at (listKey queueName PENDING) failed = list_at (listKey queueName PENDING) db
     ∧ list_at (listKey queueName RUNNING) failed = list_at (listKey queueName RUNNING) db).
Proof.
  intros Hscript Hdb Hid Hne Hnew Hrunning. cbn zeta.
  pose proof (plain_id_keys queueName jobId PENDING Hid) as Hkeys.
  rewrite addJob_new by (done || by apply laid_out_list). cbn [fst].
  set (db1 := <[listKey queueName PENDING := _]> _).
  assert (laid_out queueName db1) as Hdb1
    by by apply laid_out_insert_list, laid_out_insert_hash.
  assert (list_at (listKey queueName PENDING) db1
          = jobId :: list_at (listKey queueName PENDING) db) as Hl
    by apply list_at_insert.
  assert (∀ s, s ≠ PENDING →
            list_at (listKey queueName s) db1 = list_at (listKey queueName s) db) as Hother.
  { intros s Hs. subst db1. rewrite list_at_insert_ne by by intros ?%(inj _).
    apply list_at_insert_ne. by apply plain_id_keys. }
  unfold default_limit.
  destruct (getJobs_take_status queueName PENDING 1 db1)
    as (db2 & -> & Hf & Hrun & Hdb2 & _ & Hs & _);
    [done|done|rewrite Hl; by apply Forall_singleton|
     rewrite Hl; cbn; by apply not_elem_of_cons; split; [|apply not_elem_of_nil]|].
  rewrite Hl in *. cbn [take drop fst] in *. rewrite Hother in Hrun by done.
  destruct (completeJob_settled queueName jobId db2 Hdb2 Hid) as [(_ & Hc1 & Hc2 & Hc3) _].
  destruct (failJob_settled queueName jobId (Some reason) db2 Hdb2 Hid)
    as ((_ & Hf1 & Hf2 & Hf3) & Hf4 & _).
  split; split_and!; try done.
  - by rewrite Hc3, Hs, Hother.
  - etrans; [|exact Hf].
    by apply (terminal_pipeline_frame queueName jobId _ COMPLETED PENDING db2).
  - by rewrite Hc2, Hrun, remove_first_last.
  - by rewrite Hf3, Hs, Hother.
  - etrans; [|exact Hf].
    by apply (terminal_pipeline_frame queueName jobId _ FAILED PENDING db2).
  - by rewrite Hf2, Hrun, remove_first_last.
Qed.

Lemma getJobs_laid_out queueName from n db :
  laid_out queueName db →
  Forall plain_id (list_at (listKey queueName from) db) →
  "" ∉ list_at (listKey queueName from) db →
  laid_out queueName (getJobs queueName from n db).1.
Proof.
  intros Hdb Hplain Hne. destruct (decide (from = RUNNING)) as [->|Hfrom].
  - unfold getJobs. rewrite getQueuifyKey_status.
    change (colon (getQueuifyKey queueName [RUNS]) (status_str RUNNING))
      with (listKey queueName RUNNING).
    destruct (getJobs_pop_rotate queueName n db Hdb Hne)
      as (db1 & ids & -> & _ & _ & _ & Hsub & _ & Hdb1 & _).
    destruct ids as [|x ids]; [done|].
    assert (Forall plain_id (x :: ids)) as Hids.
    { apply Forall_forall. intros y Hy. rewrite Forall_forall in Hplain.
      by apply Hplain, Hsub. }
    destruct (getJobs_pipelines queueName (x :: ids) db1 Hdb1 Hids) as (db3 & Hrun & Hdb3 & _).
    change (λ jobId, HMGET (colon (getQueuifyKey queueName [RUNS]) jobId) [JOB_ID; DATA])
      with (λ jobId, HMGET (jobKey queueName jobId) [JOB_ID; DATA]).
    change (λ jobId, HSET (colon (getQueuifyKey queueName [RUNS]) jobId)
                       [(STATUS, status_str RUNNING)])
      with (λ jobId, HSET (jobKey queueName jobId) [(STATUS, status_str RUNNING)]).
    cbn zeta in Hrun. by rewrite Hrun.
  - destruct (getJobs_take queueName from n db Hfrom Hdb) as (db' & -> & _ & _ & Hdb' & _);
      [by apply Forall_take| |done].
    intros Hin. apply Hne. by eapply subseteq_take.
Qed.

Lemma moveJobsBetweenLists_laid_out queueName from to db :
  laid_out queueName db →
  Forall plain_id (list_at (listKey queueName from) db) →
  laid_out queueName (moveJobsBetweenLists queueName from to db).1.
Proof.
  intros Hdb Hplain. rewrite moveJobsBetweenLists_ok by done. cbn [fst].
  destruct (decide (from = to)) as [->|Hft].
  - by destruct (exec_move_same queueName to _ [] db Hdb Hplain) as (? & _);
      [by rewrite app_nil_r|].
  - by destruct (exec_move queueName from to _ [] db Hft Hdb Hplain) as (? & _);
      [by rewrite app_nil_r|].
Qed.

(** The layout is an invariant: every operation of the persistence layer,
    called with an id that no status is written as, on lists of such ids,
    leaves status keys holding lists and the other keys holding records;
    [addJob] does when the script it sends is the one written. *)
Theorem operations_keep_layout queueName jobId data reason from to n db :
  laid_out queueName db → plain_id jobId →
  (as_written queueName jobId → laid_out queueName (addJob queueName jobId data db).1)
  ∧ laid_out queueName (updateJob queueName jobId data db).1
  ∧ laid_out queueName (completeJob queueName (Some jobId) db).1
  ∧ laid_out queueName (failJob queueName (Some jobId) reason db).1
  ∧ (Forall plain_id (list_at (listKey queueName from) db) →
     laid_out queueName (moveJobsBetweenLists queueName from to db).1
     ∧ ("" ∉ list_at (listKey queueName from) db →
        laid_out queueName (getJobs queueName from n db).1)).
Proof.
  intros Hdb Hid. split_and!.
  - intros Hscript. by apply addJob_laid_out.
  - by apply updateJob_laid_out.
  - by apply completeJob_settled.
  - by apply failJob_settled.
  - intros Hplain. split; [by apply moveJobsBetweenLists_laid_out|].
    intros Hne. by apply getJobs_laid_out.
Qed.

Lemma getJobs_pop_length src dst limit db :
  match (getJobs_pop src dst limit db).2 with
  | Resolved jobIds => length jobIds ≤ limit
  | Rejected _ => True
  end.
Proof.
  revert db. induction limit as [|limit IH]; intros db; [cbn; lia|].
  cbn [getJobs_pop]. destruct (run _ db) as [db1 [[k|jobId|l]|]]; try done.
  destruct (falsy jobId); [cbn; lia|].
  specialize (IH db1). destruct (getJobs_pop src dst limit db1) as [db2 [jobIds|e]]; [|done].
  cbn in *. lia.
Qed.

Lemma exec_length cs db : length (exec cs db).2 = length cs.
Proof.
  revert db. induction cs as [|c cs IH]; intros db; [done|]. cbn.
  destruct (run c db) as [db1 r]. specialize (IH db1).
  destruct (exec cs db1) as [db2 rs]. cbn in *. by rewrite IH.
Qed.

Lemma to_jobs_length rs jobs : to_jobs rs = Some jobs → length jobs = length rs.
Proof.
  revert jobs. induction rs as [|r rs IH]; intros jobs; cbn.
  - by intros [= <-].
  - destruct (to_job r); [|done]. destruct (to_jobs rs) as [jobs'|]; [|done].
    intros [= <-]. cbn. f_equal. by apply IH.
Qed.

Lemma getJobs_length queueName from limit (db : store) :
  match (getJobs queueName from limit db).2 with
  | Resolved jobs => length jobs ≤ limit
  | Rejected _ => True
  end.
Proof.
  unfold getJobs.
  pose proof (getJobs_pop_length (getQueuifyKey queueName [RUNS; status_str from])
                (colon (getQueuifyKey queueName [RUNS]) (status_str RUNNING)) limit db) as Hpop.
  destruct (getJobs_pop _ _ limit db) as [db1 [[|x ids]|e]]; cbn [snd] in *; [cbn; lia| |done].
  set (reads := _ <$> (x :: ids)). set (writes := _ <$> (x :: ids)).
  pose proof (exec_length reads db1) as Hlen.
  destruct (exec reads db1) as [db2 jobsResults]. destruct (exec writes db2) as [db3 rs].
  destruct (to_jobs jobsResults) as [jobs|] eqn:Hjobs; [|done]. cbn [snd] in *.
  rewrite (to_jobs_length _ _ Hjobs), Hlen. subst reads. by rewrite length_fmap.
Qed.

(** Whatever the store holds, [getJobs] never resolves with more jobs than
    its limit. *)
Theorem getJobs_at_most_limit queueName from limit (db : store) :
  match (getJobs queueName from limit db).2 with
  | Resolved jobs => length jobs ≤ limit
  | Rejected _ => True
  end.
Proof. apply getJobs_length. Qed.

(** Recovery is idempotent: moving a list a second time moves nothing and
    leaves the store as the first move left it. *)
Theorem moveJobsBetweenLists_again queueName from to db :
  from ≠ to → laid_out queueName db →
  Forall plain_id (list_at (listKey queueName from) db) →
  moveJobsBetweenLists queueName from to (moveJobsBetweenLists queueName from to db).1
  = ((moveJobsBetweenLists queueName from to db).1, Resolved []).
Proof.
  intros Hft Hdb Hplain.
  pose proof (moveJobsBetweenLists_laid_out queueName from to db Hdb Hplain) as Hdb'.
  assert (list_at (listKey queueName from) (moveJobsBetweenLists queueName from to db).1 = [])
    as Hempty.
  { rewrite moveJobsBetweenLists_ok by done. cbn [fst].
    by destruct (exec_move queueName from to _ [] db Hft Hdb Hplain) as (_ & ? & _);
      [by rewrite app_nil_r|]. }
  rewrite (moveJobsBetweenLists_ok queueName from to (moveJobsBetweenLists _ _ _ db).1)
    by done.
  by rewrite Hempty.
Qed.

End persistence_more.

(** * Further properties of the engine *)

Section engine_more.
Context `{Helpers}.
Import Engine.
Implicit Types (st : state).

Lemma servers_onComplete queueName jobId queue st :
  queues st !! queueName = Some queue →
  servers (onComplete queueName jobId st) !!! dbActions queue
  = (DBActions.completeJob queueName jobId (servers st !!! dbActions queue)).1.
Proof.
  intros Hq. unfold onComplete. rewrite Hq. rewrite emit_no_handler. cbn [servers logs].
  by rewrite servers_on_server.
Qed.

(** What the success of a job leaves in the store. *)
Definition completed_in (queueName jobId : string) (redis redis' : store) : Prop :=
  has_status queueName jobId COMPLETED redis'
  ∧ list_at (DBActions.listKey queueName RUNNING) redis'
    = remove_first 1 jobId (list_at (DBActions.listKey queueName RUNNING) redis)
  ∧ list_at (DBActions.listKey queueName COMPLETED) redis'
    = jobId :: list_at (DBActions.listKey queueName COMPLETED) redis.

(** When the routine of a local worker returns, for a job with an id that
    no status is written as, on a server laid out as the spec has it, the
    job is recorded as completed on the server of its queue: status
    COMPLETED, one entry less on the RUNNING list, and the id at the head of
    the COMPLETED list. *)
Theorem routine_success_recorded i queueName workerId batch job jobId queue st :
  tasks st !! i = Some (AwaitRoutine queueName workerId batch job Fulfils) →
  id job = Some jobId →
  queues st !! queueName = Some queue →
  laid_out queueName (servers st !!! dbActions queue) →
  plain_id jobId →
  completed_in queueName jobId (servers st !!! dbActions queue)
    (servers (step (Resume i) st) !!! dbActions queue).
Proof.
  intros Hi Hid Hq Hdb Hplain. cbn [step]. rewrite Hi. unfold settle_routine.
  rewrite servers_onFinish, Hid.
  rewrite (servers_onComplete _ _ queue) by done. cbn [servers set_tasks].
  destruct (completeJob_settled queueName jobId _ Hdb Hplain) as ((_ & Hs & HR & HC) & _).
  by split_and!.
Qed.

(** What the answer of a sandbox records, for a job with an id that no
    status is written as, on a server laid out as the spec has it: a
    message with the status COMPLETED completes the job; any other message
    fails it with the message of the error it carries, or with [Something
    went wrong] when it carries none or an empty one; an error of the
    process fails it with the same text after [Spawn Failed! ]. *)
Theorem sandbox_answer_recorded i r queueName workerId batch job jobId queue st :
  tasks st !! i = Some (AwaitSandbox queueName workerId batch job) →
  id job = Some jobId →
  queues st !! queueName = Some queue →
  laid_out queueName (servers st !!! dbActions queue) →
  plain_id jobId →
  let redis := servers st !!! dbActions queue in
  let redis' := servers (step (Answer i r) st) !!! dbActions queue in
  match r with
  | Message COMPLETED _ => completed_in queueName jobId redis redis'
  | Message _ error => failed_with queueName jobId (or_default error) redis redis'
  | SpawnError message =>
      failed_with queueName jobId ("Spawn Failed! " +:+ or_default message) redis redis'
  end.
Proof.
  intros Hi Hid Hq Hdb Hplain. cbn [step]. rewrite Hi. unfold settle_sandbox.
  rewrite servers_onFinish, Hid.
  assert (∀ reason,
            failed_with queueName jobId reason (servers st !!! dbActions queue)
              (servers (onFailed queueName (Some jobId) (Some reason)
                          (set_tasks (delete i (tasks st)) st)) !!! dbActions queue))
    as Hfailed.
  { intros reason. rewrite (servers_onFailed _ _ _ queue) by done. cbn [servers set_tasks].
    destruct (failJob_settled queueName jobId (Some reason) _ Hdb Hplain)
      as ((_ & Hs & HR & HF) & Hreason & _).
    by split_and!. }
  destruct r as [s error|message]; [destruct s|].
  1-3, 5-6: by apply Hfailed.
  rewrite (servers_onComplete _ _ queue) by done. cbn [servers set_tasks].
  destruct (completeJob_settled queueName jobId _ Hdb Hplain) as ((_ & Hs & HR & HC) & _).
  by split_and!.
Qed.

(** No queue has an idle worker on record. *)
Definition no_idle_cursor (st : state) : Prop :=
  ∀ q queue, queues st !! q = Some queue → idleWorkerId queue = "".

Lemma pool_requests_app q l k :
  pool_requests q (l ++ k) = pool_requests q l + pool_requests q k.
Proof. unfold pool_requests. by rewrite List.filter_app, length_app. Qed.

Lemma addJob_no_cursor q jobId data st :
  no_idle_cursor st →
  tasks (addJob q jobId data st).1 = tasks st
  ∧ queues (addJob q jobId data st).1 = queues st
  ∧ ∀ q', pool_requests q' (log (addJob q jobId data st).1) = pool_requests q' (log st).
Proof.
  intros Hst. unfold addJob. destruct (queues st !! q) as [queue|] eqn:Hq; [|done].
  rewrite (Hst q queue Hq). unfold on_server. cbn [servers logs].
  destruct (DBActions.addJob q jobId data _) as [redis [[]|e]]; cbn [fst].
  - rewrite emit_no_handler. rewrite decide_True by done.
    cbn [fst tasks queues log logs set_server].
    split_and!; [done..|]. intros q'. rewrite !pool_requests_app. cbn. lia.
  - cbn [fst tasks queues log logs set_server].
    split_and!; [done..|]. intros q'. rewrite pool_requests_app. cbn. lia.
Qed.

(** Jobs enqueued while no queue has an idle worker on record wake nobody:
    however many are enqueued, no pool request is emitted and no fetch is
    started.  The record of the idle worker is written only when a batch is
    processed or finished, so a worker that found nothing to fetch when it
    was registered is not told about the jobs enqueued afterwards. *)
Theorem enqueue_without_idle_worker (jobs : list (string * string * string)) st :
  no_idle_cursor st →
  let st' := steps ((λ j, Enqueue j.1.1 j.1.2 j.2) <$> jobs) st in
  tasks st' = tasks st
  ∧ queues st' = queues st
  ∧ ∀ q, pool_requests q (log st') = pool_requests q (log st).
Proof.
  revert st. induction jobs as [|[[q jobId] data] jobs IH]; intros st Hst; [done|].
  cbn zeta. rewrite fmap_cons. cbn [steps foldl step fst snd].
  destruct (addJob_no_cursor q jobId data st Hst) as (Ht & Hq & Hp).
  assert (no_idle_cursor (addJob q jobId data st).1) as Hst1.
  { intros q' queue. rewrite Hq. apply Hst. }
  destruct (IH _ Hst1) as (Ht' & Hq' & Hp'). unfold steps in *.
  rewrite Ht', Hq', Ht, Hq. split_and!; [done..|]. intros q'. by rewrite Hp', Hp.
Qed.

(** A duplicate enqueued through the engine, when the script sent for it is
    the one written: the call is rejected with [JOB_ALREADY_EXISTS], and
    apart from the call in the log nothing happened: no event, no pool
    request, the servers, the queues and the tasks as before. *)
Theorem addJob_duplicate_rejected queueName jobId data queue st :
  as_written queueName jobId →
  queues st !! queueName = Some queue →
  is_Some ((servers st !!! dbActions queue) !! DBActions.jobKey queueName jobId) →
  let out := addJob queueName jobId data st in
  out.2 = Rejected (JOB_ALREADY_EXISTS jobId queueName)
  ∧ log out.1 = log st ++ [AddJob queueName jobId]
  ∧ (∀ conn, servers out.1 !!! conn = servers st !!! conn)
  ∧ queues out.1 = queues st
  ∧ tasks out.1 = tasks st.
Proof.
  intros Hscript Hq Hk. cbn zeta. unfold addJob. rewrite Hq. unfold on_server.
  cbn [servers logs].
  rewrite addJob_exists by done. cbn. split_and!; [done..| |done|done].
  intros conn. destruct (decide (conn = dbActions queue)) as [->|Hne].
  - by rewrite lookup_total_insert_eq.
  - by rewrite lookup_total_insert_ne.
Qed.

Lemma map_get_set_eq {V} key (v : V) m : map_get key (map_set key v m) = Some v.
Proof.
  induction m as [|[k v'] m IH]; cbn; [by rewrite decide_True|].
  destruct (decide (k = key)) as [->|Hne]; cbn; [by rewrite decide_True|].
  by rewrite decide_False.
Qed.

Lemma map_get_set_ne {V} key key' (v : V) m :
  key ≠ key' → map_get key' (map_set key v m) = map_get key' m.
Proof.
  intros Hne. induction m as [|[k v'] m IH]; cbn; [by rewrite decide_False|].
  destruct (decide (k = key)) as [->|Hk]; cbn; [by rewrite !decide_False|].
  by rewrite IH.
Qed.

(** A job a worker holds is in its batch or in flight: started by a
    dispatch, and not settled yet. *)
Definition is_run (queueName workerId : string) (t : task) : bool :=
  match t with
  | AwaitRoutine q w _ _ _ | AwaitSandbox q w _ _ =>
      bool_decide (q = queueName) && bool_decide (w = workerId)
  | AwaitJobs _ _ _ => false
  end.

Definition batch_of (queueName workerId : string) (st : state) : list tJob :=
  default [] (jobs <$> (queues st !! queueName ≫= λ queue, map_get workerId (workers queue))).

Definition held (queueName workerId : string) (st : state) : nat :=
  length (List.filter (is_run queueName workerId) (tasks st))
  + length (batch_of queueName workerId st).

Lemma batch_of_set_queue q0 w0 q v st :
  (q = q0 → jobs <$> map_get w0 (workers v) = Some (batch_of q0 w0 st)
            ∨ (map_get w0 (workers v) = None ∧ batch_of q0 w0 st = [])) →
  batch_of q0 w0 (set_queue q v st) = batch_of q0 w0 st.
Proof.
  intros Hv. unfold batch_of at 1. cbn [queues set_queue].
  destruct (decide (q = q0)) as [->|Hne]; [|by rewrite lookup_insert_ne].
  rewrite lookup_insert_eq. cbn. by destruct (Hv eq_refl) as [->|[-> ->]].
Qed.

Lemma dispatch_is_run q0 w0 q w batch wd :
  length (List.filter (is_run q0 w0) (dispatch q w batch wd))
  = if decide (q = q0 ∧ w = w0) then length (jobs wd) else 0.
Proof.
  unfold dispatch. rewrite <- (length_reverse (jobs wd)).
  induction (reverse (jobs wd)) as [|job l IH]; [by case_decide|].
  rewrite fmap_cons. cbn [List.filter].
  assert (∀ t, t = AwaitSandbox q w batch job
               ∨ t = AwaitRoutine q w batch job (promisifyFunction (worker wd) job) →
               is_run q0 w0 t = bool_decide (q = q0 ∧ w = w0)) as Hrun.
  { intros t [->| ->]; cbn; by rewrite bool_decide_and. }
  rewrite (Hrun (if isSandbox _ then _ else _)) by (destruct (isSandbox _); auto).
  case_decide as Hqw.
  - rewrite bool_decide_eq_true_2 by done. cbn. by rewrite IH.
  - by rewrite bool_decide_eq_false_2.
Qed.

(** Processing a batch moves its jobs from the batch into flight: what a
    worker holds stays. *)
Lemma held_onJobsProcess q0 w0 q w st : held q0 w0 (onJobsProcess q w st) = held q0 w0 st.
Proof.
  unfold onJobsProcess.
  destruct (queues st !! q) as [queue|] eqn:Hq; [|done].
  destruct (map_get w (workers queue)) as [wd|] eqn:Hw; [|done].
  assert (∀ s, q = q0 → w ≠ w0 →
     jobs <$> map_get w0 (map_set w s (workers queue)) = Some (batch_of q0 w0 st)
     ∨ map_get w0 (map_set w s (workers queue)) = None ∧ batch_of q0 w0 st = []) as Hother.
  { intros s <- Hne. rewrite map_get_set_ne by done. unfold batch_of. rewrite Hq. cbn.
    destruct (map_get w0 (workers queue)); auto. }
  assert (q = q0 → w = w0 → batch_of q0 w0 st = jobs wd) as Hsame.
  { intros <- <-. unfold batch_of. rewrite Hq. cbn. by rewrite Hw. }
  destruct (jobs wd) as [|job js] eqn:Hjobs.
  { unfold held. cbn [tasks set_queue]. do 2 f_equal. apply batch_of_set_queue. intros Hqq.
    cbn. destruct (decide (w = w0)) as [Hww|Hne]; [|by apply Hother].
    subst w0. rewrite map_get_set_eq. cbn. left. rewrite Hsame by done. by rewrite Hjobs. }
  destruct (no_worker (worker wd)).
  { unfold held. cbn [tasks set_queue]. do 2 f_equal. apply batch_of_set_queue. intros Hqq.
    cbn. destruct (decide (w = w0)) as [Hww|Hne]; [|by apply Hother].
    subst w0. rewrite map_get_set_eq. cbn. left. rewrite Hsame by done. by rewrite Hjobs. }
  unfold held. cbn [tasks set_tasks set_remainingJobs set_queue].
  rewrite List.filter_app, length_app, dispatch_is_run, Hjobs.
  unfold batch_of at 1. cbn [queues set_tasks set_remainingJobs set_queue].
  destruct (decide (q = q0)) as [Hqq|Hqq].
  - subst q0. rewrite lookup_insert_eq. cbn [mbind option_bind workers set_workers set_idleWorkerId].
    destruct (decide (w = w0)) as [Hww|Hww].
    + subst w0. rewrite decide_True by done. rewrite map_get_set_eq. cbn.
      rewrite Hsame by done. cbn. lia.
    + rewrite decide_False by tauto. rewrite !map_get_set_ne by done.
      unfold batch_of. rewrite Hq. cbn. lia.
  - rewrite decide_False by tauto. rewrite lookup_insert_ne by done. unfold batch_of. lia.
Qed.

Lemma held_same q0 w0 st st' :
  tasks st' = tasks st → queues st' = queues st → held q0 w0 st' = held q0 w0 st.
Proof. intros Ht Hq. unfold held, batch_of. by rewrite Ht, Hq. Qed.

Lemma held_deliver q0 w0 q w fetched st :
  held q0 w0 (deliver q w fetched st)
  ≤ held q0 w0 st + (if decide (q0 = q ∧ w0 = w) then length fetched else 0).
Proof.
  unfold deliver.
  destruct (queues st !! q) as [queue|] eqn:Hq; [|lia].
  destruct (map_get w (workers queue)) as [wd|] eqn:Hw; [|lia].
  match goal with |- held _ _ (emit _ _ _ _ ?s) ≤ ?b =>
    apply (emit_invariant (λ st', held q0 w0 st' ≤ b));
      [intros st' Hst'; by rewrite held_onJobsProcess|]
  end.
  rewrite (held_same q0 w0 (set_queue q
             (set_workers (map_set w (set_jobs (jobs wd ++ fetched) wd) (workers queue)) queue)
             st) (logs _ _)) by done.
  unfold held. cbn [tasks set_queue].
  unfold batch_of at 1. cbn [queues set_queue].
  destruct (decide (q = q0)) as [Hqq|Hqq].
  - subst q0. rewrite lookup_insert_eq. cbn [mbind option_bind workers set_workers].
    destruct (decide (w = w0)) as [Hww|Hww].
    + subst w0. rewrite decide_True by done. rewrite map_get_set_eq. cbn.
      unfold batch_of. rewrite Hq. cbn. rewrite Hw. cbn. rewrite length_app. lia.
    + rewrite map_get_set_ne by done. unfold batch_of. rewrite Hq. cbn. lia.
  - rewrite lookup_insert_ne by done. unfold batch_of. lia.
Qed.

(** A pool request hands its worker at most one job: when the fetch of a
    request is answered, what the worker of the request holds, in its batch
    or in flight, grows by one job at most, and what every other worker
    holds does not grow. *)
Theorem request_delivers_at_most_one i queueName workerId from st q0 w0 :
  tasks st !! i = Some (AwaitJobs queueName workerId from) →
  held q0 w0 (step (Resume i) st)
  ≤ held q0 w0 st + (if decide (q0 = queueName ∧ w0 = workerId) then 1 else 0).
Proof.
  intros Hi. cbn [step]. rewrite Hi.
  set (st0 := set_tasks (delete i (tasks st)) st).
  assert (held q0 w0 st0 = held q0 w0 st) as <-.
  { unfold held, batch_of. subst st0. cbn [tasks queues set_tasks]. f_equal.
    apply list_elem_of_split_length in Hi as (l1 & l2 & -> & ->).
    by rewrite delete_middle, !List.filter_app. }
  clearbody st0. unfold onJobsRequest_resume.
  destruct (queues st0 !! queueName) as [queue|] eqn:Hq; [|lia].
  unfold on_server. cbn [servers logs].
  pose proof (getJobs_length queueName from DBActions.default_limit
                (servers st0 !!! dbActions queue)) as Hlen.
  destruct (DBActions.getJobs _ _ _ _) as [redis [fetched|e]]; cbn [snd] in Hlen.
  - set (st1 := set_server _ _ _).
    assert (held q0 w0 st1 = held q0 w0 st0) as Hst1 by by apply held_same.
    assert (held q0 w0 (deliver queueName workerId fetched st1)
            ≤ held q0 w0 st0 + (if decide (q0 = queueName ∧ w0 = workerId) then 1 else 0))
      as Hdeliver.
    { etrans; [apply held_deliver|]. rewrite Hst1. unfold DBActions.default_limit in Hlen.
      case_decide; lia. }
    destruct from, fetched; try done; try lia.
    all: try (rewrite <- Hst1; lia).
    unfold held, batch_of. cbn [tasks queues add_task set_queue].
    rewrite List.filter_app. cbn. rewrite app_nil_r. subst st1. cbn [tasks queues set_server logs].
    destruct (decide (queueName = q0)) as [->|Hne].
    + rewrite lookup_insert_eq, Hq. cbn. lia.
    + rewrite lookup_insert_ne by done. lia.
  - match goal with |- held _ _ ?st' ≤ _ => rewrite (held_same q0 w0 st0 st') by done end.
    lia.
Qed.

End engine_more.

(** ** Examples for the persistence layer and the engine *)

Section persistence_more_examples.
Import DBActions.
#[local] Existing Instance demo.

Lemma demo_plain_c : plain_id "c".
Proof. intros []; discriminate. Qed.

Lemma demo_as_written_c : as_written "mail" "c".
Proof. reflexivity. Qed.

Lemma queued_plain : Forall plain_id (list_at (listKey "mail" PENDING) queued).
Proof.
  vm_compute list_at. repeat constructor; [apply demo_plain_b | apply demo_plain_a].
Qed.

Lemma queued_named : "" ∉ list_at (listKey "mail" PENDING) queued.
Proof.
  vm_compute list_at. intros Hin.
  by repeat (apply elem_of_cons in Hin as [?|Hin]); try by apply elem_of_nil in Hin.
Qed.

Lemma updateJob_payload_only_witness :
  hash_at (jobKey "mail" "a") (updateJob "mail" "a" "z" queued).1
  = Some (Hash (Some "a") (Some "z") (Some "pending") None)
  ∧ ∀ s, list_at (listKey "mail" s) (updateJob "mail" "a" "z" queued).1
         = list_at (listKey "mail" s) queued.
Proof.
  destruct (updateJob_payload_only "mail" "a" "z" queued queued_laid_out demo_plain_a)
    as (_ & Hrecord & Hlists & _).
  split; [|exact Hlists]. rewrite Hrecord. vm_compute. reflexivity.
Defined.

Lemma enqueue_then_fetch_witness :
  (getJobs "mail" PENDING 1 (addJob "mail" "c" "z" queued).1).2
  = Resolved [Job (Some "c") "z"].
Proof.
  refine (proj1 (enqueue_then_fetch "mail" "c" "z" queued _ queued_laid_out demo_plain_c
                   _ _)).
  - reflexivity.
  - discriminate.
  - vm_compute. reflexivity.
Defined.

Lemma update_then_fetch_witness :
  (getJobs "mail" PENDING 1 (updateJob "mail" "b" "z" queued).1).2
  = Resolved [Job (Some "b") "z"].
Proof.
  rewrite (update_then_fetch "mail" PENDING "b" "z" ["a"] queued).
  - vm_compute. reflexivity.
  - discriminate.
  - exact queued_laid_out.
  - exact demo_plain_b.
  - discriminate.
  - vm_compute. reflexivity.
Defined.

Lemma getJobs_twice_witness :
  (getJobs "mail" PENDING 1 queued).2 = Resolved [Job (Some "b") "y"]
  ∧ (getJobs "mail" PENDING 1 (getJobs "mail" PENDING 1 queued).1).2
    = Resolved [Job (Some "a") "x"].
Proof.
  destruct (getJobs_twice "mail" PENDING 1 1 queued) as (H1 & H2 & _).
  - discriminate.
  - exact queued_laid_out.
  - exact queued_plain.
  - exact queued_named.
  - split; [rewrite H1|rewrite H2]; vm_compute; reflexivity.
Defined.

Lemma enqueue_fetch_settle_witness :
  let fetched := (getJobs "mail" PENDING 1 (addJob "mail" "c" "z" queued).1).1 in
  list_at (listKey "mail" COMPLETED) (completeJob "mail" (Some "c") fetched).1 = ["c"]
  ∧ list_at (listKey "mail" FAILED) (failJob "mail" (Some "c") (Some "boom") fetched).1
    = ["c"].
Proof.
  destruct (enqueue_fetch_settle "mail" "c" "z" "boom" queued demo_as_written_c queued_laid_out
              demo_plain_c)
    as [(_ & Hcompleted & _) (_ & _ & Hfailed & _)].
  - discriminate.
  - vm_compute. reflexivity.
  - vm_compute list_at. apply not_elem_of_nil.
  - split; [exact Hcompleted|exact Hfailed].
Defined.

Lemma operations_keep_layout_witness :
  laid_out "mail" (addJob "mail" "c" "z" queued).1
  ∧ laid_out "mail" (getJobs "mail" PENDING 2 queued).1.
Proof.
  destruct (operations_keep_layout "mail" "c" "z" None PENDING STALLED 2 queued
              queued_laid_out demo_plain_c) as (Hadd & _ & _ & _ & Hlists).
  split; [exact (Hadd demo_as_written_c)|]. apply (Hlists queued_plain), queued_named.
Defined.

Lemma moveJobsBetweenLists_again_witness :
  moveJobsBetweenLists "mail" RUNNING STALLED
    (moveJobsBetweenLists "mail" RUNNING STALLED crashed).1
  = ((moveJobsBetweenLists "mail" RUNNING STALLED crashed).1, Resolved []).
Proof.
  apply (moveJobsBetweenLists_again "mail" RUNNING STALLED crashed).
  - discriminate.
  - exact crashed_laid_out.
  - exact crashed_plain.
Defined.

End persistence_more_examples.

Section engine_more_examples.
Import DBActions Engine.
#[local] Existing Instance demo.

(** A job is enqueued, a worker is registered, and the job is fetched and
    started: by a local worker whose routine returns, or in a sandbox. *)
Definition started (worker : tWorker) (config : tWorkerConfig) : state :=
  steps [ Start mail; Enqueue "mail" "a" "x"; Register "mail" "w1" worker config;
          Resume 0 ] initial.

Definition sandboxed : tWorkerConfig := WorkerConfig (Some SANDBOX) None.
Definition script : tWorker := WorkerSource "worker.js".

Lemma started_store worker config :
  servers (started worker config) !!! 0
  = <[listKey "mail" RUNNING := RList ["a"]]>
      (<[jobKey "mail" "a" :=
           RHash (Hash (Some "a") (Some "x") (Some (status_str RUNNING)) None)]> ∅) →
  laid_out "mail" (servers (started worker config) !!! 0).
Proof.
  intros ->. apply laid_out_insert_list, laid_out_insert_hash; [apply laid_out_empty|].
  apply demo_plain_a.
Qed.

Lemma routine_success_recorded_witness :
  completed_in "mail" "a" (servers (started succeeds local) !!! 0)
    (servers (step (Resume 0) (started succeeds local)) !!! 0).
Proof.
  apply (routine_success_recorded 0 "mail" "w1" 1 (Job (Some "a") "x") "a"
           (QueueMapValue mail 0 [("w1", WorkerData succeeds [] BUSY local)] "" true)
           (started succeeds local)).
  - vm_compute. reflexivity.
  - reflexivity.
  - vm_compute. reflexivity.
  - apply started_store. vm_compute. reflexivity.
  - exact demo_plain_a.
Defined.

Lemma sandbox_answer_recorded_witness :
  failed_with "mail" "a" "Spawn Failed! Something went wrong"
    (servers (started script sandboxed) !!! 0)
    (servers (step (Answer 0 (SpawnError None)) (started script sandboxed)) !!! 0).
Proof.
  apply (sandbox_answer_recorded 0 (SpawnError None) "mail" "w1" 1 (Job (Some "a") "x") "a"
           (QueueMapValue mail 0 [("w1", WorkerData script [] BUSY sandboxed)] "" true)
           (started script sandboxed)).
  - vm_compute. reflexivity.
  - reflexivity.
  - vm_compute. reflexivity.
  - apply started_store. vm_compute. reflexivity.
  - exact demo_plain_a.
Defined.

(** A worker is registered on an empty queue and its fetch from PENDING
    finds nothing. *)
Definition waiting : state :=
  steps [ Start mail; Register "mail" "w1" succeeds local; Resume 0 ] initial.

Definition waiting_queue : tQueueMapValue :=
  QueueMapValue mail 0 [("w1", WorkerData succeeds [] IDLE local)] "" true.

Lemma waiting_no_idle_cursor : no_idle_cursor waiting.
Proof.
  intros q queue.
  assert (queues waiting = <["mail" := waiting_queue]> ∅) as ->
    by (vm_compute; reflexivity).
  intros [[_ <-]|[_ Hq]]%lookup_insert_Some; [done|].
  by rewrite lookup_empty in Hq.
Qed.

Lemma enqueue_without_idle_worker_witness :
  tasks (steps [Enqueue "mail" "a" "x"; Enqueue "mail" "b" "y"] waiting) = []
  ∧ pool_requests "mail"
      (log (steps [Enqueue "mail" "a" "x"; Enqueue "mail" "b" "y"] waiting))
    = pool_requests "mail" (log waiting).
Proof.
  destruct (enqueue_without_idle_worker [("mail", "a", "x"); ("mail", "b", "y")] waiting
              waiting_no_idle_cursor) as (Htasks & _ & Hrequests).
  split; [exact Htasks|exact (Hrequests "mail")].
Defined.

Lemma addJob_duplicate_rejected_witness :
  (addJob "mail" "a" "z" (started succeeds local)).2
  = Rejected (JOB_ALREADY_EXISTS "a" "mail").
Proof.
  refine (proj1 (addJob_duplicate_rejected "mail" "a" "z"
                   (QueueMapValue mail 0 [("w1", WorkerData succeeds [] BUSY local)] "" true)
                   (started succeeds local) _ _ _)).
  - reflexivity.
  - vm_compute. reflexivity.
  - eexists. vm_compute. reflexivity.
Defined.

(** Two jobs are enqueued and a worker is registered; its fetch from
    PENDING is awaited. *)
Definition requested : state :=
  steps [ Start mail; Enqueue "mail" "a" "x"; Enqueue "mail" "b" "y";
          Register "mail" "w1" succeeds local ] initial.

Lemma request_delivers_at_most_one_witness :
  held "mail" "w1" (step (Resume 0) requested) ≤ held "mail" "w1" requested + 1.
Proof.
  apply (request_delivers_at_most_one 0 "mail" "w1" PENDING requested "mail" "w1").
  vm_compute. reflexivity.
Defined.

End engine_more_examples.
